(** * Reversible PII tokenization: [contract_fipo/pii_handler.py]

    A shallow embedding of [PIIHandler] (tokenize / detokenize) and of
    [ContractAnalyzer._detokenize_response] from [contract_fipo/main.py],
    followed by the properties of the tokenization engine.

    Python values are modelled as follows.
    - [str] is a list of characters ([text]); slices follow Python's rules
      for negative and out-of-range indices.
    - [dict] is an association list kept in insertion order, which is the
      order [dict.items()] iterates in.
    - [int] offsets are [Z]; the per-category counters are [nat].
    - dict objects that can be reached through more than one reference live
      in a store ([Heap]) and are named by their address.
    - the external collaborators (the Presidio analyzer, [re.finditer],
      [json.dumps], [json.loads]) are parameters of the development. *)

From Stdlib Require Import String Ascii List ZArith Lia Bool Arith PeanoNat.
From Stdlib Require Import Permutation Sorted DecimalString DecimalNat.
Import ListNotations.

Local Open Scope list_scope.

(** ** Python strings *)

Definition text := list ascii.

(** A string literal. *)
Definition str (s : string) : text := list_ascii_of_string s.

Definition ascii_eqb (a b : ascii) : bool := Ascii.eqb a b.

Fixpoint text_eqb (a b : text) : bool :=
  match a, b with
  | [], [] => true
  | x :: a', y :: b' => ascii_eqb x y && text_eqb a' b'
  | _, _ => false
  end.

(** [s.startswith(p)] *)
Fixpoint startswith (s p : text) : bool :=
  match p, s with
  | [], _ => true
  | _ :: _, [] => false
  | x :: p', y :: s' => ascii_eqb x y && startswith s' p'
  end.

(** [sub in s] *)
Fixpoint contains (s sub : text) : bool :=
  startswith s sub ||
  match s with
  | [] => false
  | _ :: s' => contains s' sub
  end.

(** Normalisation of a slice bound against a string of length [len]:
    negative bounds count from the end, everything is clamped to [0, len]. *)
Definition slice_index (len : nat) (i : Z) : nat :=
  if (i <? 0)%Z then Z.to_nat (Z.max 0 (Z.of_nat len + i))
  else Nat.min (Z.to_nat i) len.

(** [s[:stop]] *)
Definition slice_to (s : text) (stop : Z) : text :=
  firstn (slice_index (length s) stop) s.

(** [s[start:]] *)
Definition slice_from (s : text) (start : Z) : text :=
  skipn (slice_index (length s) start) s.

(** [s[start:stop]] *)
Definition slice (s : text) (start stop : Z) : text :=
  let a := slice_index (length s) start in
  let b := slice_index (length s) stop in
  firstn (b - a) (skipn a s).

(** [str.replace] for a non-empty [old]: scan from the left, replace each
    occurrence found and resume after it ([skip] counts the characters of
    the occurrence still to be passed over). *)
Fixpoint replace_scan (old new : text) (skip : nat) (s : text) : text :=
  match s with
  | [] => []
  | c :: s' =>
      match skip with
      | S k => replace_scan old new k s'
      | O =>
          if startswith s old
          then new ++ replace_scan old new (length old - 1) s'
          else c :: replace_scan old new 0 s'
      end
  end.

(** [s.replace(old, new)].  With an empty [old] Python inserts [new] before
    every character and at the end. *)
Definition str_replace (s old new : text) : text :=
  match old with
  | [] => new ++ flat_map (fun c => c :: new) s
  | _ :: _ => replace_scan old new 0 s
  end.

(** [str(n)] / [f"{n}"] for a non-negative integer. *)
Definition decimal (n : nat) : text :=
  str (NilEmpty.string_of_uint (Nat.to_uint n)).

Definition is_decimal_digit (c : ascii) : bool :=
  (48 <=? nat_of_ascii c) && (nat_of_ascii c <=? 57).

(** ** Python dicts (insertion ordered) *)

Definition Dict (V : Type) := list (text * V).

Fixpoint dict_get {V} (d : Dict V) (k : text) : option V :=
  match d with
  | [] => None
  | (k', v) :: d' => if text_eqb k' k then Some v else dict_get d' k
  end.

(** [k in d] *)
Definition dict_mem {V} (d : Dict V) (k : text) : bool :=
  match dict_get d k with Some _ => true | None => false end.

(** [d[k] = v]: an existing key keeps its position, a new key goes last. *)
Fixpoint dict_set {V} (d : Dict V) (k : text) (v : V) : Dict V :=
  match d with
  | [] => [(k, v)]
  | (k', v') :: d' =>
      if text_eqb k' k then (k', v) :: d' else (k', v') :: dict_set d' k v
  end.

Definition keys {V} (d : Dict V) : list text := map fst d.
Definition values {V} (d : Dict V) : list V := map snd d.

(** ** The handler's mutable fields *)

(** What the handler reports while it runs: the calls it makes to its
    detectors and the [logger.debug] line of every generated token. *)
Inductive Event :=
| AnalyzerCall (t : text)
| FinditerCall (pattern : string) (t : text)
| GeneratedToken (token entity_type : text).

(** The instance fields written by the private methods: the contents of
    the dict objects [self.token_mapping] and [self.token_counters]. *)
Record Fields := mkFields {
  token_mapping : Dict text;
  token_counters : Dict nat;
  trace : list Event
}.

(** [self.token_counters[entity_type]] as it is read in [_generate_token],
    where the key has always been inserted before the read (see
    [counters_key_present]); on an absent key the model reads [0]. *)
Definition counter_of (counters : Dict nat) (entity_type : text) : nat :=
  match dict_get counters entity_type with Some n => n | None => 0 end.

Definition token_text (entity_type : text) (counter : nat) : text :=
  str "[PII_" ++ entity_type ++ str "_" ++ decimal counter ++ str "]".

(** [PIIHandler._generate_token] *)
Definition _generate_token (entity_type original_value : text) (self : Fields)
  : text * Fields :=
  let counters0 :=
    if dict_mem (token_counters self) entity_type then token_counters self
    else dict_set (token_counters self) entity_type 0 in
  let counters1 :=
    dict_set counters0 entity_type (counter_of counters0 entity_type + 1) in
  let counter := counter_of counters1 entity_type in
  let token := token_text entity_type counter in
  (token,
   {| token_mapping := dict_set (token_mapping self) token original_value;
      token_counters := counters1;
      trace := trace self ++ [GeneratedToken token entity_type] |}).

(** [PIIHandler.detokenize_text] *)
Definition detokenize_text (tokenized_text : text) (token_mapping : Dict text)
  : text :=
  fold_left (fun detokenized_text item =>
               str_replace detokenized_text (fst item) (snd item))
            token_mapping tokenized_text.

(** ** Detector results *)

(** A Presidio [RecognizerResult], as far as the handler reads it. *)
Record RecognizerResult := mkResult {
  start : Z;
  end_ : Z;
  entity_type : text
}.

(** A [re.Match], as far as the handler reads it:
    [match.start()], [match.end()], [match.group()]. *)
Record Match := mkMatch {
  m_start : Z;
  m_end : Z;
  m_group : text
}.

(** [results.sort(key=lambda x: x.start, reverse=True)]: Python's sort is
    stable, also with [reverse=True], so results with equal [start] keep
    their relative order. *)
Fixpoint insert_desc (x : RecognizerResult) (l : list RecognizerResult)
  : list RecognizerResult :=
  match l with
  | [] => [x]
  | y :: l' =>
      if (start y <=? start x)%Z then x :: y :: l' else y :: insert_desc x l'
  end.

Definition sort_desc (results : list RecognizerResult)
  : list RecognizerResult :=
  fold_right insert_desc [] results.

(** [tokenized_text[:a] + token + tokenized_text[b:]] *)
Definition splice (tokenized_text : text) (a b : Z) (token : text) : text :=
  slice_to tokenized_text a ++ token ++ slice_from tokenized_text b.

(** The fallback patterns, in the order of the source. *)
Definition patterns : list (string * text) :=
  [ ("\b[A-Za-z0-9._%+-]+@[A-Za-z0-9.-]+\.[A-Z|a-z]{2,}\b"%string, str "EMAIL");
    ("\b(?:\+?1[-.\s]?)?\(?[0-9]{3}\)?[-.\s]?[0-9]{3}[-.\s]?[0-9]{4}\b"%string,
     str "PHONE");
    ("\b\d{3}-\d{2}-\d{4}\b"%string, str "SSN");
    ("\b(?:\d{4}[-\s]?){3}\d{4}\b"%string, str "CREDIT_CARD");
    ("\b(?:[0-9]{1,3}\.){3}[0-9]{1,3}\b"%string, str "IP_ADDRESS");
    ("https?://[^\s]+"%string, str "URL");
    ("\b[A-Z][a-z]+ [A-Z][a-z]+\b"%string, str "PERSON") ].

Definition log_event (e : Event) (self : Fields) : Fields :=
  {| token_mapping := token_mapping self;
     token_counters := token_counters self;
     trace := trace self ++ [e] |}.

Section Detectors.

(** [self.analyzer.analyze(text=..., language='en', entities=[...])];
    [None] stands for a raised exception. *)
Variable analyze : text -> option (list RecognizerResult).

(** [list(re.finditer(pattern, text))] *)
Variable finditer : string -> text -> list Match.

(** One round of the loop of [_tokenize_with_regex] over the matches of
    one pattern. *)
Definition regex_replace_match (entity_type : text)
    (acc : text * Fields) (m : Match) : text * Fields :=
  let '(tokenized_text, self) := acc in
  let original_value := m_group m in
  let '(token, self) := _generate_token entity_type original_value self in
  (splice tokenized_text (m_start m) (m_end m) token, self).

Definition regex_apply_pattern (acc : text * Fields) (p : string * text)
  : text * Fields :=
  let '(tokenized_text, self) := acc in
  let '(pattern, entity_type) := p in
  let self := log_event (FinditerCall pattern tokenized_text) self in
  let matches := finditer pattern tokenized_text in
  fold_left (regex_replace_match entity_type) (rev matches)
            (tokenized_text, self).

(** [PIIHandler._tokenize_with_regex] *)
Definition _tokenize_with_regex (t : text) (self : Fields) : text * Fields :=
  fold_left regex_apply_pattern patterns (t, self).

(** One round of the loop of [_tokenize_with_presidio]; the original
    value is cut from the untouched input [t]. *)
Definition presidio_replace_result (t : text)
    (acc : text * Fields) (result : RecognizerResult) : text * Fields :=
  let '(tokenized_text, self) := acc in
  let original_value := slice t (start result) (end_ result) in
  let '(token, self) :=
    _generate_token (entity_type result) original_value self in
  (splice tokenized_text (start result) (end_ result) token, self).

(** [PIIHandler._tokenize_with_presidio]; when the analyzer raises, the
    handler falls back to the patterns. *)
Definition _tokenize_with_presidio (t : text) (self : Fields)
  : text * Fields :=
  let self := log_event (AnalyzerCall t) self in
  match analyze t with
  | Some results =>
      fold_left (presidio_replace_result t) (sort_desc results) (t, self)
  | None => _tokenize_with_regex t self
  end.

(** ** The handler object and the store *)

Definition loc := nat.

(** The dict objects in memory, by address. *)
Definition Heap := list (Dict text).

Definition heap_get (heap : Heap) (l : loc) : option (Dict text) :=
  nth_error heap l.

Fixpoint heap_set (heap : Heap) (l : loc) (d : Dict text) : Heap :=
  match heap, l with
  | [], _ => []
  | _ :: heap', O => d :: heap'
  | x :: heap', S l' => x :: heap_set heap' l' d
  end.

(** A new object gets the next free address. *)
Definition heap_alloc (heap : Heap) (d : Dict text) : loc * Heap :=
  (length heap, heap ++ [d]).

(** A [PIIHandler] instance: [token_mapping_ref] is the reference held in
    [self.token_mapping]; the counters dict is never handed out, so it is
    kept by value. *)
Record PIIHandler := mkHandler {
  use_presidio : bool;
  token_mapping_ref : loc;
  counters_field : Dict nat
}.

(** [PIIHandler.__init__]; [presidio_ok] tells whether the engines could
    be constructed. *)
Definition PIIHandler_init (presidio_ok : bool) (heap : Heap)
  : PIIHandler * Heap :=
  let '(l, heap) := heap_alloc heap [] in
  ({| use_presidio := presidio_ok; token_mapping_ref := l;
      counters_field := [] |}, heap).

Record Tokenized := mkTokenized {
  tokenized_text : text;
  mapping_ref : loc;
  handler_after : PIIHandler;
  heap_after : Heap;
  events : list Event
}.

(** [PIIHandler.tokenize_text].  The two [clear()] calls empty the dict
    objects of the handler in place; the private methods then fill them;
    [copy()] allocates a new dict object, whose reference is returned. *)
Definition tokenize_text (self : PIIHandler) (t : text) (heap : Heap)
  : Tokenized :=
  let cleared :=
    {| token_mapping := []; token_counters := []; trace := [] |} in
  let '(tokenized, fields) :=
    if use_presidio self then _tokenize_with_presidio t cleared
    else _tokenize_with_regex t cleared in
  let heap := heap_set heap (token_mapping_ref self) (token_mapping fields) in
  let '(copy, heap) := heap_alloc heap (token_mapping fields) in
  {| tokenized_text := tokenized;
     mapping_ref := copy;
     handler_after :=
       {| use_presidio := use_presidio self;
          token_mapping_ref := token_mapping_ref self;
          counters_field := token_counters fields |};
     heap_after := heap;
     events := trace fields |}.

(** The mapping a caller reads through the returned reference. *)
Definition returned_mapping (r : Tokenized) : Dict text :=
  match heap_get (heap_after r) (mapping_ref r) with
  | Some d => d
  | None => []
  end.

End Detectors.

(** ** [ContractAnalyzer._detokenize_response] *)

(** What a call gives: the value it returns, or the message ([str(e)]) of
    the exception it raises. *)
Inductive Outcome (A : Type) :=
| Returned (a : A)
| Raised (message : text).

Arguments Returned {A} a.
Arguments Raised {A} message.

(** What [json.loads] gives: the parsed document, a
    [json.JSONDecodeError], or an exception of another class (a
    [ValueError] for an integer literal beyond the interpreter's digit
    limit, a [RecursionError] for nesting beyond its recursion limit). *)
Inductive Loads (A : Type) :=
| Loaded (a : A)
| JSONDecodeError
| LoadRaised (message : text).

Arguments Loaded {A} a.
Arguments JSONDecodeError {A}.
Arguments LoadRaised {A} message.

Section Response.

(** The parsed response and the two [json] functions. *)
Variable JSON : Type.
Variable json_dumps : JSON -> Outcome text.
Variable json_loads : text -> Loads JSON.

(** [json.dumps] is called outside the [try]; the [except] clause catches
    [json.JSONDecodeError] only, every other exception of [json.loads]
    leaves the method. *)
Definition _detokenize_response (response : JSON) (token_mapping : Dict text)
  : Outcome JSON :=
  match json_dumps response with
  | Raised e => Raised e
  | Returned response_str =>
      let detokenized_str := detokenize_text response_str token_mapping in
      match json_loads detokenized_str with
      | Loaded parsed => Returned parsed
      | JSONDecodeError => Returned response
      | LoadRaised e => Raised e
      end
  end.

End Response.

(** ** A model of [re.finditer] for the seven fallback patterns

    The general results below hold for any [finditer].  To run the handler
    on concrete inputs the seven patterns are given here as syntax trees
    with Python's backtracking semantics (greedy repetition, leftmost
    match, non-overlapping scan).  The classes [\w], [\s] and [\d] are
    given on ASCII characters; none of the seven patterns can match the
    empty string. *)
Module Re.

Inductive regex :=
| Chr (c : ascii)
| Class (member : ascii -> bool)
| WordBoundary
| Cat (r1 r2 : regex)
| Opt (r : regex)
| Rep (lo : nat) (hi : option nat) (r : regex).

Definition code (c : ascii) : nat := nat_of_ascii c.
Definition between (lo hi : nat) (c : ascii) : bool :=
  (lo <=? code c) && (code c <=? hi).
Definition is_digit := between 48 57.
Definition is_upper := between 65 90.
Definition is_lower := between 97 122.
Definition is_alnum (c : ascii) := is_digit c || is_upper c || is_lower c.
Definition is_word (c : ascii) := is_alnum c || (code c =? 95).
Definition is_space (c : ascii) :=
  between 9 13 c || between 28 32 c.
Definition one_of (s : string) (c : ascii) : bool :=
  existsb (ascii_eqb c) (str s).

Definition word_before (prev : option ascii) : bool :=
  match prev with Some c => is_word c | None => false end.
Definition word_after (s : text) : bool :=
  match s with c :: _ => is_word c | [] => false end.

(** [matches r prev s k]: match [r] at the head of [s] ([prev] is the
    character just before it), then continue with [k]; alternatives are
    tried in Python's order and the first success wins. *)
Fixpoint matches (r : regex) (prev : option ascii) (s : text)
    (k : option ascii -> text -> option text) : option text :=
  match r with
  | Chr c =>
      match s with
      | x :: s' => if ascii_eqb x c then k (Some x) s' else None
      | [] => None
      end
  | Class member =>
      match s with
      | x :: s' => if member x then k (Some x) s' else None
      | [] => None
      end
  | WordBoundary =>
      if xorb (word_before prev) (word_after s) then k prev s else None
  | Cat r1 r2 => matches r1 prev s (fun p s' => matches r2 p s' k)
  | Opt r1 =>
      match matches r1 prev s k with
      | Some rest => Some rest
      | None => k prev s
      end
  | Rep lo hi r1 =>
      (fix loop (fuel n : nat) (prev : option ascii) (s : text)
         : option text :=
         let stop := if lo <=? n then k prev s else None in
         match fuel with
         | O => stop
         | S fuel' =>
             let may_repeat :=
               match hi with Some h => n <? h | None => true end in
             let more :=
               if may_repeat
               then matches r1 prev s
                      (fun p s' =>
                         if length s' <? length s
                         then loop fuel' (S n) p s' else None)
               else None in
             match more with
             | Some rest => Some rest
             | None => stop
             end
         end) (S (length s)) 0 prev s
  end.

(** The scan of [finditer]: try each position from the left; after a
    match resume at its end. *)
Fixpoint scan (r : regex) (prev : option ascii) (pos skip : nat) (s : text)
  : list Match :=
  match s with
  | [] => []
  | c :: s' =>
      match skip with
      | S j => scan r (Some c) (S pos) j s'
      | O =>
          match matches r prev s (fun _ rest => Some rest) with
          | Some rest =>
              let n := length s - length rest in
              mkMatch (Z.of_nat pos) (Z.of_nat (pos + n)) (firstn n s)
                :: scan r (Some c) (S pos) (n - 1) s'
          | None => scan r (Some c) (S pos) 0 s'
          end
      end
  end.

Fixpoint cat (rs : list regex) : regex :=
  match rs with
  | [] => Rep 0 (Some 0) WordBoundary
  | [r] => r
  | r :: rs' => Cat r (cat rs')
  end.

Definition plus (r : regex) := Rep 1 None r.
Definition times (n : nat) (r : regex) := Rep n (Some n) r.
Definition digit := Class is_digit.
Definition sep := Opt (Class (fun c => one_of "-." c || is_space c)).

(** The seven patterns of [patterns], in the same order. *)
Definition compiled : list regex :=
  [ (* EMAIL *)
    cat [ WordBoundary;
          plus (Class (fun c => is_alnum c || one_of "._%+-" c));
          Chr "@";
          plus (Class (fun c => is_alnum c || one_of ".-" c));
          Chr ".";
          Rep 2 None (Class (fun c => is_upper c || is_lower c || one_of "|" c));
          WordBoundary ];
    (* PHONE *)
    cat [ WordBoundary;
          Opt (cat [ Opt (Chr "+"); Chr "1"; sep ]);
          Opt (Chr "("); times 3 digit; Opt (Chr ")"); sep;
          times 3 digit; sep; times 4 digit; WordBoundary ];
    (* SSN *)
    cat [ WordBoundary; times 3 digit; Chr "-"; times 2 digit; Chr "-";
          times 4 digit; WordBoundary ];
    (* CREDIT_CARD *)
    cat [ WordBoundary;
          times 3 (cat [ times 4 digit;
                         Opt (Class (fun c => one_of "-" c || is_space c)) ]);
          times 4 digit; WordBoundary ];
    (* IP_ADDRESS *)
    cat [ WordBoundary;
          times 3 (cat [ Rep 1 (Some 3) digit; Chr "." ]);
          Rep 1 (Some 3) digit; WordBoundary ];
    (* URL *)
    cat [ Chr "h"; Chr "t"; Chr "t"; Chr "p"; Opt (Chr "s"); Chr ":";
          Chr "/"; Chr "/"; plus (Class (fun c => negb (is_space c))) ];
    (* PERSON *)
    cat [ WordBoundary; Class is_upper; plus (Class is_lower); Chr " ";
          Class is_upper; plus (Class is_lower); WordBoundary ] ].

Fixpoint lookup (pattern : string) (table : list ((string * text) * regex))
  : option regex :=
  match table with
  | [] => None
  | ((p, _), r) :: table' =>
      if String.eqb p pattern then Some r else lookup pattern table'
  end.

(** [list(re.finditer(pattern, t))] for a pattern of the handler. *)
Definition finditer (pattern : string) (t : text) : list Match :=
  match lookup pattern (combine patterns compiled) with
  | Some r => scan r None 0 0 t
  | None => []
  end.

End Re.

(** ** Notions used to state the properties *)

(** The tokens generated during a run, in the order of generation. *)
Definition allocated (tr : list Event) : list text :=
  flat_map (fun e => match e with
                     | GeneratedToken token _ => [token]
                     | _ => []
                     end) tr.

(** The detector calls made during a run. *)
Definition detector_calls (tr : list Event) : list Event :=
  filter (fun e => match e with
                   | AnalyzerCall _ | FinditerCall _ _ => true
                   | GeneratedToken _ _ => false
                   end) tr.

(** Successive [tokenize_text] calls on one handler instance; the result is
    the store after the last call. *)
Fixpoint tokenize_many (analyze : text -> option (list RecognizerResult))
    (finditer : string -> text -> list Match)
    (self : PIIHandler) (texts : list text) (heap : Heap) : Heap :=
  match texts with
  | [] => heap
  | t :: texts' =>
      let r := tokenize_text analyze finditer self t heap in
      tokenize_many analyze finditer (handler_after r) texts' (heap_after r)
  end.

(** The invariant of a tokenization session: the keys of the mapping are
    the generated tokens, without repetition, and every key carries a
    counter value that its category has already passed. *)
Definition session_inv (self : Fields) : Prop :=
  keys (token_mapping self) = allocated (trace self) /\
  NoDup (keys (token_mapping self)) /\
  forall k, In k (keys (token_mapping self)) ->
    exists ty n, k = token_text ty n /\
                 n <= counter_of (token_counters self) ty.

(** The Span invariant of the data model: [0 <= start < end <= len(text)]. *)
Definition in_bounds (t : text) (a b : Z) : bool :=
  ((0 <=? a) && (a <? b) && (b <=? Z.of_nat (length t)))%Z.

Definition result_in_bounds (t : text) (r : RecognizerResult) : bool :=
  in_bounds t (start r) (end_ r).

Definition match_in_bounds (t : text) (m : Match) : bool :=
  in_bounds t (m_start m) (m_end m).

(** ** A model of [json.dumps] / [json.loads]

    [_detokenize_response] is modelled for any pair of functions.  To run
    it on concrete responses, JSON documents over 8-bit characters with
    integer numbers are given here, with the default formatting of
    [json.dumps] (separators [", "] and [": "], everything outside the
    printable ASCII range escaped) and the strict parser of [json.loads],
    as CPython 3.11 has them: an integer of more than 4300 digits is
    refused with a [ValueError] by both functions.  Not covered: numbers
    with a fraction or an exponent, which this parser refuses, and the
    recursion limit of the interpreter. *)
Module Json.

Local Open Scope char_scope.

#[warnings="-register-all"]
Inductive value :=
| JNull
| JBool (b : bool)
| JNumber (n : Z)
| JString (s : text)
| JArray (items : list value)
| JObject (members : list (text * value)).

Definition quote : ascii := "034".
Definition backslash : ascii := "\".

Definition hex_digit (n : nat) : ascii :=
  nth n (str "0123456789abcdef") "0".

Definition escape_char (c : ascii) : text :=
  let n := nat_of_ascii c in
  if ascii_eqb c quote then [backslash; quote]
  else if ascii_eqb c backslash then [backslash; backslash]
  else if Nat.eqb n 8 then [backslash; "b"]
  else if Nat.eqb n 12 then [backslash; "f"]
  else if Nat.eqb n 10 then [backslash; "n"]
  else if Nat.eqb n 13 then [backslash; "r"]
  else if Nat.eqb n 9 then [backslash; "t"]
  else if Nat.ltb n 32 || Nat.ltb 126 n
       then [backslash; "u"; "0"; "0";
             hex_digit (Nat.div n 16); hex_digit (Nat.modulo n 16)]
  else [c].

Definition dumps_string (s : text) : text :=
  quote :: flat_map escape_char s ++ [quote].

Definition dumps_int (n : Z) : text :=
  str (NilEmpty.string_of_int (Z.to_int n)).

Fixpoint join (sep : text) (parts : list text) : text :=
  match parts with
  | [] => []
  | [p] => p
  | p :: parts' => p ++ sep ++ join sep parts'
  end.

(** [json.dumps(v)] *)
Fixpoint dumps (v : value) : text :=
  match v with
  | JNull => str "null"
  | JBool true => str "true"
  | JBool false => str "false"
  | JNumber n => dumps_int n
  | JString s => dumps_string s
  | JArray items => "[" :: join (str ", ") (map dumps items) ++ ["]"]
  | JObject members =>
      "{" :: join (str ", ")
               (map (fun m => dumps_string (fst m) ++ str ": " ++ dumps (snd m))
                    members)
          ++ ["}"]
  end.

(** [sys.get_int_max_str_digits()] *)
Definition max_str_digits : nat := 4300.

(** Whether a document holds an integer that [str] refuses to print. *)
Fixpoint oversized (v : value) : bool :=
  match v with
  | JNumber n => Nat.ltb max_str_digits (length (dumps_int (Z.abs n)))
  | JArray items => existsb oversized items
  | JObject members => existsb (fun m => oversized (snd m)) members
  | _ => false
  end.

Definition str_limit_message : text :=
  str "Exceeds the limit (4300 digits) for integer string conversion; use sys.set_int_max_str_digits() to increase the limit".

(** [json.dumps(v)], with the exception it raises. *)
Definition dumps_outcome (v : value) : Outcome text :=
  if oversized v then Raised str_limit_message else Returned (dumps v).

Definition is_ws (c : ascii) : bool :=
  let n := nat_of_ascii c in
  Nat.eqb n 32 || Nat.eqb n 9 || Nat.eqb n 10 || Nat.eqb n 13.

Fixpoint skip_ws (s : text) : text :=
  match s with
  | c :: s' => if is_ws c then skip_ws s' else s
  | [] => []
  end.

Definition hex_value (c : ascii) : option nat :=
  let n := nat_of_ascii c in
  if Nat.leb 48 n && Nat.leb n 57 then Some (n - 48)
  else if Nat.leb 97 n && Nat.leb n 102 then Some (n - 87)
  else if Nat.leb 65 n && Nat.leb n 70 then Some (n - 55)
  else None.

Definition unescape (e : ascii) : option ascii :=
  if ascii_eqb e quote then Some quote
  else if ascii_eqb e backslash then Some backslash
  else if ascii_eqb e "/" then Some "/"
  else if ascii_eqb e "b" then Some (ascii_of_nat 8)
  else if ascii_eqb e "f" then Some (ascii_of_nat 12)
  else if ascii_eqb e "n" then Some (ascii_of_nat 10)
  else if ascii_eqb e "r" then Some (ascii_of_nat 13)
  else if ascii_eqb e "t" then Some (ascii_of_nat 9)
  else None.

(** The characters of a string literal after its opening quote, up to the
    closing quote; control characters are refused (strict mode). *)
Fixpoint parse_string (s acc : text) : option (text * text) :=
  match s with
  | [] => None
  | c :: r =>
      if ascii_eqb c quote then Some (rev acc, r)
      else if ascii_eqb c backslash then
        match r with
        | "u" :: h1 :: h2 :: h3 :: h4 :: r' =>
            match hex_value h1, hex_value h2, hex_value h3, hex_value h4 with
            | Some 0, Some 0, Some a, Some b =>
                parse_string r' (ascii_of_nat (16 * a + b) :: acc)
            | _, _, _, _ => None
            end
        | e :: r' =>
            match unescape e with
            | Some ch => parse_string r' (ch :: acc)
            | None => None
            end
        | [] => None
        end
      else if Nat.ltb (nat_of_ascii c) 32 then None
      else parse_string r (c :: acc)
  end.

Fixpoint parse_digits (s : text) (acc : Z) : Z * text :=
  match s with
  | c :: r =>
      if is_decimal_digit c
      then parse_digits r (10 * acc + Z.of_nat (nat_of_ascii c - 48))
      else (acc, s)
  | [] => (acc, [])
  end.

Definition parse_natural (s : text) : option (Z * text) :=
  match s with
  | "0" :: r => Some (0%Z, r)
  | c :: _ => if is_decimal_digit c then Some (parse_digits s 0) else None
  | [] => None
  end.

(** Whether a fraction or an exponent follows the integer part. *)
Definition float_follows (r : text) : bool :=
  match r with
  | c :: r1 =>
      if ascii_eqb c "." then
        match r1 with d :: _ => is_decimal_digit d | [] => false end
      else if ascii_eqb c "e" || ascii_eqb c "E" then
        match r1 with
        | d :: r2 =>
            if is_decimal_digit d then true
            else if ascii_eqb d "+" || ascii_eqb d "-" then
              match r2 with d2 :: _ => is_decimal_digit d2 | [] => false end
            else false
        | [] => false
        end
      else false
  | [] => false
  end.

Definition int_limit_message (digits : nat) : text :=
  str "Exceeds the limit (4300 digits) for integer string conversion: value has "
  ++ decimal digits
  ++ str " digits; use sys.set_int_max_str_digits() to increase the limit".

(** A number: the integer part is converted with [int], which raises
    [ValueError] beyond the digit limit (the sign does not count). *)
Definition parse_number (s : text) : Loads (value * text) :=
  let '(negative, body) :=
    match s with
    | "-" :: r => (true, r)
    | _ => (false, s)
    end in
  match parse_natural body with
  | Some (n, r) =>
      if float_follows r then JSONDecodeError
      else
        let digits := length body - length r in
        if Nat.ltb max_str_digits digits
        then LoadRaised (int_limit_message digits)
        else Loaded (JNumber (if negative then - n else n), r)
  | None => JSONDecodeError
  end.

(** One JSON value at the head of [s]; [fuel] bounds the nesting depth. *)
Fixpoint parse_value (fuel : nat) (s : text) : Loads (value * text) :=
  match fuel with
  | O => JSONDecodeError
  | S fuel' =>
      match skip_ws s with
      | "n" :: "u" :: "l" :: "l" :: r => Loaded (JNull, r)
      | "t" :: "r" :: "u" :: "e" :: r => Loaded (JBool true, r)
      | "f" :: "a" :: "l" :: "s" :: "e" :: r => Loaded (JBool false, r)
      | "[" :: r =>
          match skip_ws r with
          | "]" :: r' => Loaded (JArray [], r')
          | _ =>
              (fix elements (n : nat) (r : text) (acc : list value)
                 : Loads (value * text) :=
                 match n with
                 | O => JSONDecodeError
                 | S n' =>
                     match parse_value fuel' r with
                     | Loaded (v, r1) =>
                         match skip_ws r1 with
                         | "," :: r2 => elements n' r2 (acc ++ [v])
                         | "]" :: r2 => Loaded (JArray (acc ++ [v]), r2)
                         | _ => JSONDecodeError
                         end
                     | JSONDecodeError => JSONDecodeError
                     | LoadRaised e => LoadRaised e
                     end
                 end) (length r) r []
          end
      | "{" :: r =>
          match skip_ws r with
          | "}" :: r' => Loaded (JObject [], r')
          | _ =>
              (fix members (n : nat) (r : text) (acc : list (text * value))
                 : Loads (value * text) :=
                 match n with
                 | O => JSONDecodeError
                 | S n' =>
                     match skip_ws r with
                     | q :: r0 =>
                         if ascii_eqb q quote then
                           match parse_string r0 [] with
                           | Some (k, r1) =>
                               match skip_ws r1 with
                               | ":" :: r2 =>
                                   match parse_value fuel' r2 with
                                   | Loaded (v, r3) =>
                                       match skip_ws r3 with
                                       | "," :: r4 =>
                                           members n' r4 (acc ++ [(k, v)])
                                       | "}" :: r4 =>
                                           Loaded (JObject (acc ++ [(k, v)]),
                                                   r4)
                                       | _ => JSONDecodeError
                                       end
                                   | JSONDecodeError => JSONDecodeError
                                   | LoadRaised e => LoadRaised e
                                   end
                               | _ => JSONDecodeError
                               end
                           | None => JSONDecodeError
                           end
                         else JSONDecodeError
                     | [] => JSONDecodeError
                     end
                 end) (length r) r []
          end
      | c :: r =>
          if ascii_eqb c quote then
            match parse_string r [] with
            | Some (s', r') => Loaded (JString s', r')
            | None => JSONDecodeError
            end
          else parse_number (c :: r)
      | [] => JSONDecodeError
      end
  end.

(** [json.loads(s)] *)
Definition loads (s : text) : Loads value :=
  match parse_value (S (length s)) s with
  | Loaded (v, r) =>
      match skip_ws r with
      | [] => Loaded v
      | _ :: _ => JSONDecodeError
      end
  | JSONDecodeError => JSONDecodeError
  | LoadRaised e => LoadRaised e
  end.

End Json.

(** The category part of the token grammar: [[A-Z0-9_]+]. *)
Definition category_char (c : ascii) : bool :=
  let n := nat_of_ascii c in
  ((65 <=? n) && (n <=? 90)) || ((48 <=? n) && (n <=? 57)) || (n =? 95).

Definition category_grammar (category : text) : bool :=
  match category with
  | [] => false
  | _ :: _ => forallb category_char category
  end.

Definition is_open_bracket (c : ascii) : bool := ascii_eqb c "["%char.
Definition is_close_bracket (c : ascii) : bool := ascii_eqb c "]"%char.

(** No ['['] in [s]. *)
Definition no_open_bracket (s : text) : bool :=
  forallb (fun c => negb (is_open_bracket c)) s.

(** Neither ['['] nor [']'] in [s]. *)
Definition bracket_free (s : text) : bool :=
  forallb (fun c => negb (is_open_bracket c || is_close_bracket c)) s.

(** A placeholder in brackets: ['['], then characters other than brackets,
    then [']'].  Every [[PII_<CATEGORY>_<N>]] with a bracket-free category
    has this shape. *)
Definition bracketed (t : text) : bool :=
  match t with
  | c :: rest =>
      is_open_bracket c &&
      match rev rest with
      | d :: body => is_close_bracket d && bracket_free body
      | [] => false
      end
  | [] => false
  end.

(** ** Simultaneous replacement of spans

    The reference against which the sequential rewrite is compared.  The
    original text is read once, position by position, against the whole
    list of spans: where a span starts its replacement is written, the
    other positions of a span are dropped, every other character is
    copied.  No offset is ever recomputed. *)

Definition starts_at (i : nat) (a : RecognizerResult * text) : bool :=
  (start (fst a) =? Z.of_nat i)%Z.

Definition covers (i : nat) (a : RecognizerResult * text) : bool :=
  ((start (fst a) <=? Z.of_nat i) && (Z.of_nat i <? end_ (fst a)))%Z.

Definition rewrite_at (payload : RecognizerResult * text -> text)
    (assigned : list (RecognizerResult * text)) (i : nat) (c : ascii) : text :=
  match find (starts_at i) assigned with
  | Some a => payload a
  | None => if existsb (covers i) assigned then [] else [c]
  end.

Fixpoint rewrite_spans (payload : RecognizerResult * text -> text)
    (assigned : list (RecognizerResult * text)) (i : nat) (t : text) : text :=
  match t with
  | [] => []
  | c :: t' =>
      rewrite_at payload assigned i c
      ++ rewrite_spans payload assigned (S i) t'
  end.

(** Every span's [[start, end)] slice of [t] replaced by the token assigned
    to the span, all at once. *)
Definition replace_simultaneously
    (assigned : list (RecognizerResult * text)) (t : text) : text :=
  rewrite_spans snd assigned 0 t.

(** The token each result receives when the results are handed to
    [_generate_token] one after the other, as the loop of
    [_tokenize_with_presidio] does. *)
Fixpoint allocate (results : list RecognizerResult) (t : text) (self : Fields)
  : list (RecognizerResult * text) :=
  match results with
  | [] => []
  | result :: results' =>
      let '(token, self') :=
        _generate_token (entity_type result)
                        (slice t (start result) (end_ result)) self in
      (result, token) :: allocate results' t self'
  end.

(** Two spans that share no position. *)
Definition disjoint (a b : RecognizerResult) : bool :=
  ((end_ a <=? start b) || (end_ b <=? start a))%Z.

Fixpoint pairwise_disjoint (results : list RecognizerResult) : bool :=
  match results with
  | [] => true
  | a :: results' => forallb (disjoint a) results' && pairwise_disjoint results'
  end.

(** Sorted by [start], highest first. *)
Definition descending (results : list RecognizerResult) : Prop :=
  StronglySorted (fun a b => (start b <= start a)%Z) results.

(** Highest first and each span ending where the previous one starts, or
    before. *)
Definition chain (results : list RecognizerResult) : Prop :=
  StronglySorted (fun a b => (end_ b <= start a)%Z) results.

(** ** Tokenized documents

    A text seen as a sequence of pieces: stretches of prose and
    placeholders. *)
Inductive piece :=
| Plain (s : text)
| Tok (t : text).

Definition render (p : piece) : text :=
  match p with Plain s => s | Tok t => t end.

Definition render_all (ps : list piece) : text := flat_map render ps.

(** Prose holds no ['[']; a placeholder is a bracketed token. *)
Definition piece_ok (p : piece) : bool :=
  match p with
  | Plain s => no_open_bracket s
  | Tok t => bracketed t
  end.

Definition tokenized_document (ps : list piece) : bool := forallb piece_ok ps.

(** The effect of one [replace(k, v)] on a piece. *)
Definition restore_piece (k v : text) (p : piece) : piece :=
  match p with
  | Tok t => if text_eqb k t then Plain v else p
  | Plain _ => p
  end.

(** The effect of a whole mapping on a piece. *)
Definition resolve (mapping : Dict text) (p : piece) : piece :=
  match p with
  | Tok t =>
      match dict_get mapping t with
      | Some v => Plain v
      | None => p
      end
  | Plain _ => p
  end.

(** The text with every placeholder cut down to a single ['[']. *)
Definition render_cut (ps : list piece) : text :=
  flat_map (fun p => match p with Plain s => s | Tok _ => str "[" end) ps.

(** The pieces of the simultaneous rewrite of [t], one per position. *)
Definition piece_at (assigned : list (RecognizerResult * text))
    (i : nat) (c : ascii) : piece :=
  match find (starts_at i) assigned with
  | Some a => Tok (snd a)
  | None => Plain (if existsb (covers i) assigned then [] else [c])
  end.

Fixpoint pieces_of (assigned : list (RecognizerResult * text))
    (i : nat) (t : text) : list piece :=
  match t with
  | [] => []
  | c :: t' => piece_at assigned i c :: pieces_of assigned (S i) t'
  end.

(** The original value of a span. *)
Definition span_value (t : text) (a : RecognizerResult * text) : text :=
  slice t (start (fst a)) (end_ (fst a)).

(** The mapping entry of a span. *)
Definition span_entry (t : text) (a : RecognizerResult * text) : text * text :=
  (snd a, span_value t a).


(** ** Clean runs

    The conditions under which a run can be undone.  For the primary path:
    spans in bounds, pairwise non-overlapping, labels free of brackets.
    For the fallback: every match is reported where it is (offsets in
    bounds and ascending, [group()] equal to the slice), holds no ['[']
    and does not lie inside a token placed by an earlier pattern. *)

(** Whether a scan of [pre] from the left ends after a ['['] that no
    [']'] has closed ([opened] is the state before [pre]). *)
Fixpoint unclosed (opened : bool) (pre : text) : bool :=
  match pre with
  | [] => opened
  | c :: pre' =>
      if is_open_bracket c then unclosed true pre'
      else if is_close_bracket c then unclosed false pre'
      else unclosed opened pre'
  end.

Definition match_clean (cur : text) (m : Match) : bool :=
  match_in_bounds cur m
  && text_eqb (m_group m) (slice cur (m_start m) (m_end m))
  && no_open_bracket (m_group m)
  && negb (unclosed false (slice_to cur (m_start m))).

(** Matches in the order of the scan, none reaching into the next. *)
Fixpoint ascending (ms : list Match) : bool :=
  match ms with
  | [] => true
  | m :: ms' =>
      forallb (fun m' => (m_end m <=? m_start m')%Z) ms' && ascending ms'
  end.

Definition pass_clean (cur : text) (ms : list Match) : bool :=
  forallb (match_clean cur) ms && ascending ms.

(** Every pass of [_tokenize_with_regex], checked on the text it scans. *)
Fixpoint regex_run_clean (finditer : string -> text -> list Match)
    (ps : list (string * text)) (acc : text * Fields) : bool :=
  match ps with
  | [] => true
  | p :: ps' =>
      pass_clean (fst acc) (finditer (fst p) (fst acc))
      && regex_run_clean finditer ps' (regex_apply_pattern finditer acc p)
  end.

Definition spans_clean (t : text) (results : list RecognizerResult) : bool :=
  forallb (result_in_bounds t) results
  && pairwise_disjoint results
  && forallb (fun r => bracket_free (entity_type r)) results.

Definition clean_run (analyze : text -> option (list RecognizerResult))
    (finditer : string -> text -> list Match)
    (self : PIIHandler) (t : text) : bool :=
  let cleared := {| token_mapping := []; token_counters := []; trace := [] |} in
  if use_presidio self then
    match analyze t with
    | Some results => spans_clean t results
    | None =>
        regex_run_clean finditer patterns (t, log_event (AnalyzerCall t) cleared)
    end
  else regex_run_clean finditer patterns (t, cleared).

(** The text between the tokens of a tokenized text: every bracketed
    token is cut down to its opening ['[']; [inside] tells whether the
    scan is inside a token. *)
Fixpoint cut_tokens (inside : bool) (s : text) : text :=
  match s with
  | [] => []
  | c :: s' =>
      if inside
      then (if is_close_bracket c then cut_tokens false s'
            else cut_tokens true s')
      else if is_open_bracket c then c :: cut_tokens true s'
      else c :: cut_tokens false s'
  end.


(** A tokenized document in alternating form: prose, then tokens each
    followed by prose. *)
Definition doc_body (l : list (text * text)) : text :=
  flat_map (fun p => fst p ++ snd p) l.

Definition doc_ok (s0 : text) (l : list (text * text)) : bool :=
  no_open_bracket s0
  && forallb (fun p => bracketed (fst p) && no_open_bracket (snd p)) l.

Definition doc_pieces (s0 : text) (l : list (text * text)) : list piece :=
  Plain s0 :: flat_map (fun p => [Tok (fst p); Plain (snd p)]) l.

(** The value a mapping holds for a token, the token itself if none. *)
Definition value_of (mapping : Dict text) (token : text) : text :=
  match dict_get mapping token with Some v => v | None => token end.

Definition doc_restored (mapping : Dict text) (l : list (text * text)) : text :=
  flat_map (fun p => value_of mapping (fst p) ++ snd p) l.

(** The invariant of a clean run on the text [t]: the running text is a
    document in alternating form whose tokens are the keys of the mapping,
    and putting the stored values back for the tokens gives [t]. *)
Definition run_inv (t : text) (acc : text * Fields) : Prop :=
  let mapping := token_mapping (snd acc) in
  session_inv (snd acc) /\
  forallb bracketed (keys mapping) = true /\
  forallb no_open_bracket (values mapping) = true /\
  exists s0 l,
    s0 ++ doc_body l = fst acc /\
    doc_ok s0 l = true /\
    (forall k, In k (map fst l) -> In k (keys mapping)) /\
    s0 ++ doc_restored mapping l = t /\
    (forall k, In k (keys mapping) -> In k (map fst l)).

(** ** Further notions on runs *)

(** How many tokens of a category a trace has generated. *)
Fixpoint count_category (ty : text) (tr : list Event) : nat :=
  match tr with
  | [] => 0
  | GeneratedToken _ ty' :: tr' =>
      (if text_eqb ty' ty then 1 else 0) + count_category ty tr'
  | _ :: tr' => count_category ty tr'
  end.

(** The counters agree with the trace, and every generated token carries
    the number of its occurrence within its category. *)
Definition numbering_inv (self : Fields) : Prop :=
  (forall ty, counter_of (token_counters self) ty
              = count_category ty (trace self)) /\
  (forall pre token ty post,
      trace self = pre ++ GeneratedToken token ty :: post ->
      token = token_text ty (S (count_category ty pre))).

(** Two states of the handler that differ at most in their trace. *)
Definition same_fields (a b : Fields) : Prop :=
  token_mapping a = token_mapping b /\ token_counters a = token_counters b.

(** The labels of the fallback patterns. *)
Definition fallback_labels : list text := map snd patterns.

(** ** [contract_fipo/parser.py]: [DocumentParser]

    Characters are code points below 256.  [is_space] is Python's
    whitespace on that range ([\s] in a [str] pattern and [str.isspace]
    agree there); [is_control] is the class
    [[\x00-\x08\x0b\x0c\x0e-\x1f\x7f-\x9f]]. *)
Module Parser.

Definition is_space (c : ascii) : bool :=
  let n := nat_of_ascii c in
  ((9 <=? n) && (n <=? 13)) || ((28 <=? n) && (n <=? 32))
  || (n =? 133) || (n =? 160).

Definition is_control (c : ascii) : bool :=
  let n := nat_of_ascii c in
  (n <=? 8) || (n =? 11) || (n =? 12) || ((14 <=? n) && (n <=? 31))
  || ((127 <=? n) && (n <=? 159)).

Definition newline : ascii := ascii_of_nat 10.
Definition space : ascii := " "%char.

(** The loop of a greedy repetition, as in [Re.matches], with the match
    of the repeated item passed in. *)
Fixpoint rep_loop
    (item : option ascii -> text -> (option ascii -> text -> option text)
            -> option text)
    (k : option ascii -> text -> option text)
    (lo : nat) (hi : option nat)
    (fuel n : nat) (prev : option ascii) (s : text) : option text :=
  let stop := if lo <=? n then k prev s else None in
  match fuel with
  | O => stop
  | S fuel' =>
      let may_repeat := match hi with Some h => n <? h | None => true end in
      let more :=
        if may_repeat
        then item prev s
               (fun p s' =>
                  if length s' <? length s
                  then rep_loop item k lo hi fuel' (S n) p s' else None)
        else None in
      match more with
      | Some rest => Some rest
      | None => stop
      end
  end.

(** [re.sub(pattern, repl, s)] for a pattern that matches at least one
    character wherever it matches (all three patterns of [_clean_text]
    do): scan from the left, write [repl] for each match and resume after
    it, copy every other character. *)
Fixpoint sub_scan (r : Re.regex) (repl : text) (prev : option ascii)
    (skip : nat) (s : text) : text :=
  match s with
  | [] => []
  | c :: s' =>
      match skip with
      | S j => sub_scan r repl (Some c) j s'
      | O =>
          match Re.matches r prev s (fun _ rest => Some rest) with
          | Some rest =>
              match length s - length rest with
              | S j => repl ++ sub_scan r repl (Some c) j s'
              | O => c :: sub_scan r repl (Some c) 0 s'
              end
          | None => c :: sub_scan r repl (Some c) 0 s'
          end
      end
  end.

Definition sub (r : Re.regex) (repl s : text) : text :=
  sub_scan r repl None 0 s.

(** [\s+] *)
Definition whitespace_run : Re.regex := Re.Rep 1 None (Re.Class is_space).

(** [\n\s*\n] *)
Definition blank_line : Re.regex :=
  Re.Cat (Re.Chr newline)
         (Re.Cat (Re.Rep 0 None (Re.Class is_space)) (Re.Chr newline)).

(** [[\x00-\x08\x0b\x0c\x0e-\x1f\x7f-\x9f]] *)
Definition control_char : Re.regex := Re.Class is_control.

Fixpoint lstrip (s : text) : text :=
  match s with
  | c :: s' => if is_space c then lstrip s' else s
  | [] => []
  end.

Definition rstrip (s : text) : text := rev (lstrip (rev s)).

(** [s.strip()] *)
Definition strip (s : text) : text := rstrip (lstrip s).

(** [DocumentParser._clean_text] *)
Definition _clean_text (t : text) : text :=
  match t with
  | [] => []
  | _ :: _ =>
      let t := sub whitespace_run [space] t in
      let t := strip t in
      let t := sub blank_line [newline; newline] t in
      sub control_char [] t
  end.

(** [DocumentParser.parse_text] *)
Definition parse_text (t : text) : text := _clean_text t.

(** [sep.join(parts)] *)
Fixpoint str_join (sep : text) (parts : list text) : text :=
  match parts with
  | [] => []
  | [p] => p
  | p :: parts' => p ++ sep ++ str_join sep parts'
  end.

(** The pages that [_parse_pdf] keeps: [page.extract_text()] answers a
    string or [None]; [if page_text:] drops [None] and the empty string. *)
Fixpoint text_content (pages : list (option text)) : list text :=
  match pages with
  | [] => []
  | Some (c :: p) :: pages' => (c :: p) :: text_content pages'
  | _ :: pages' => text_content pages'
  end.

(** [DocumentParser._parse_pdf], given what [extract_text] answers for the
    pages of the opened file. *)
Definition _parse_pdf (pages : list (option text)) : text :=
  let full_text := str_join [newline; newline] (text_content pages) in
  _clean_text full_text.

(** The notions the properties of [_clean_text] are stated with. *)

(** A character that is neither whitespace nor in the removed class. *)
Definition visible (c : ascii) : bool :=
  negb (is_space c) && negb (is_control c).

(** A character of the removed class that the whitespace step does not
    already turn into a space. *)
Definition stray_control (c : ascii) : bool :=
  is_control c && negb (is_space c).

(** Words separated by single spaces: no whitespace but [' '], none at
    either end, no two in a row ([after_space] tells whether the previous
    character was a space; the start counts as one). *)
Fixpoint spaced (after_space : bool) (s : text) : bool :=
  match s with
  | [] => negb after_space
  | c :: s' =>
      if is_space c
      then ascii_eqb c space && negb after_space && spaced true s'
      else spaced false s'
  end.

Definition single_spaced (s : text) : bool :=
  match s with
  | [] => true
  | _ :: _ => spaced true s
  end.

(** Each run of whitespace replaced by one space ([in_run] tells whether
    the previous character was whitespace). *)
Fixpoint collapse (in_run : bool) (s : text) : text :=
  match s with
  | [] => []
  | c :: s' =>
      if is_space c
      then (if in_run then [] else [space]) ++ collapse true s'
      else c :: collapse false s'
  end.

End Parser.

(** Length of the whitespace run at the head of a string. *)
Definition run_length (s : text) : nat :=
  length s - length (Parser.lstrip s).

(** As [Parser.spaced], without the condition on the end of the string. *)
Fixpoint loose (after_space : bool) (s : text) : bool :=
  match s with
  | [] => true
  | c :: s' =>
      if Parser.is_space c
      then ascii_eqb c Parser.space && negb after_space && loose true s'
      else loose false s'
  end.

(** What the removed class leaves of a character list. *)
Definition no_control (s : text) : bool :=
  forallb (fun c => negb (Parser.is_control c)) s.

(** The visible characters of the pages of a document, in page order. *)
Definition visible_of_pages (pages : list (option text)) : text :=
  flat_map (fun p => match p with
                     | Some t => filter Parser.visible t
                     | None => []
                     end) pages.

(** ** [contract_fipo/main.py]: [ContractAnalyzer.analyze_text] *)

Section Analyzer.

Variable analyze : text -> option (list RecognizerResult).
Variable finditer : string -> text -> list Match.

Variable JSON : Type.
Variable json_dumps : JSON -> Outcome text.
Variable json_loads : text -> Loads JSON.

(** [GrokClient.analyze_contract] and
    [DatabaseHandler.save_parsed_contract] (arguments in the order
    [original_file], [tokenized_text], [ai_response],
    [detokenized_response], [token_mapping]). *)
Variable analyze_contract : text -> Outcome JSON.
Variable save_parsed_contract :
  text -> text -> JSON -> JSON -> Dict text -> Outcome Z.

(** The calls that leave the process, in the order they are made. *)
Inductive External :=
| SentToGrok (tokenized_text : text)
| Saved (original_file tokenized_text : text)
        (ai_response detokenized_response : JSON)
        (token_mapping : Dict text).

(** The texts handed to the AI client by a list of calls. *)
Definition sent_to_grok (calls : list External) : list text :=
  flat_map (fun c => match c with
                     | SentToGrok t => [t]
                     | Saved _ _ _ _ _ => []
                     end) calls.

(** The dictionary [analyze_text] returns. *)
Inductive Answer :=
| Success (contract_id : Z) (analysis : JSON) (pii_entities_found : nat)
| Failure (error : text).

Record Analysis := mkAnalysis {
  answer : Answer;
  external : list External;
  detector_events : list Event;
  pii_handler_after : PIIHandler;
  analysis_heap : Heap
}.

(** [ContractAnalyzer.analyze_text]; [self] is [self.pii_handler].  The
    [try] turns every exception into a failure answer. *)
Definition analyze_text (self : PIIHandler) (heap : Heap)
    (t source_identifier : text) : Analysis :=
  let cleaned_text := Parser.parse_text t in
  match Parser.strip cleaned_text with
  | [] =>
      {| answer := Failure (str "No text content provided");
         external := [];
         detector_events := [];
         pii_handler_after := self;
         analysis_heap := heap |}
  | _ :: _ =>
      let r := tokenize_text analyze finditer self cleaned_text heap in
      let tokenized := tokenized_text r in
      let token_mapping := returned_mapping r in
      match analyze_contract tokenized with
      | Raised e =>
          {| answer := Failure e;
             external := [SentToGrok tokenized];
             detector_events := events r;
             pii_handler_after := handler_after r;
             analysis_heap := heap_after r |}
      | Returned ai_response =>
          match _detokenize_response JSON json_dumps json_loads
                                     ai_response token_mapping with
          | Raised e =>
              {| answer := Failure e;
                 external := [SentToGrok tokenized];
                 detector_events := events r;
                 pii_handler_after := handler_after r;
                 analysis_heap := heap_after r |}
          | Returned detokenized_response =>
              let saved :=
                Saved source_identifier tokenized ai_response
                      detokenized_response token_mapping in
              match save_parsed_contract source_identifier tokenized
                      ai_response detokenized_response token_mapping with
              | Raised e =>
                  {| answer := Failure e;
                     external := [SentToGrok tokenized; saved];
                     detector_events := events r;
                     pii_handler_after := handler_after r;
                     analysis_heap := heap_after r |}
              | Returned contract_id =>
                  {| answer := Success contract_id detokenized_response
                                       (length token_mapping);
                     external := [SentToGrok tokenized; saved];
                     detector_events := events r;
                     pii_handler_after := handler_after r;
                     analysis_heap := heap_after r |}
              end
          end
      end
  end.

End Analyzer.

Arguments SentToGrok {JSON} tokenized_text.
Arguments Failure {JSON} error.
Arguments sent_to_grok {JSON} calls.
Arguments answer {JSON} _.
Arguments external {JSON} _.
Arguments detector_events {JSON} _.
Arguments pii_handler_after {JSON} _.
Arguments analysis_heap {JSON} _.

(** * Properties *)

(** ** Strings *)

Lemma ascii_eqb_eq (a b : ascii) : ascii_eqb a b = true <-> a = b.
Proof. apply Ascii.eqb_eq. Qed.

Lemma ascii_eqb_refl (a : ascii) : ascii_eqb a a = true.
Proof. apply ascii_eqb_eq; reflexivity. Qed.

Lemma ascii_eqb_neq (a b : ascii) : ascii_eqb a b = false <-> a <> b.
Proof.
  unfold ascii_eqb. destruct (Ascii.eqb_spec a b); split; congruence.
Qed.

Lemma text_eqb_eq (a b : text) : text_eqb a b = true <-> a = b.
Proof.
  revert b; induction a as [|x a IH]; intros [|y b]; cbn [text_eqb];
    try (split; congruence).
  rewrite andb_true_iff, ascii_eqb_eq, IH. split.
  - intros [-> ->]; reflexivity.
  - intros H; injection H; auto.
Qed.

Lemma text_eqb_refl (a : text) : text_eqb a a = true.
Proof. apply text_eqb_eq; reflexivity. Qed.

Lemma text_eqb_neq (a b : text) : text_eqb a b = false <-> a <> b.
Proof.
  destruct (text_eqb a b) eqn:E.
  - apply text_eqb_eq in E. split; congruence.
  - split; auto. intros _ H. apply text_eqb_eq in H. congruence.
Qed.

Lemma startswith_iff (s p : text) :
  startswith s p = true <-> exists r, s = p ++ r.
Proof.
  revert s; induction p as [|x p IH]; intros s; cbn [startswith app].
  - destruct s; (split; [intros _; eexists; reflexivity | reflexivity]).
  - destruct s as [|y s].
    + split; [discriminate | intros [r H]; discriminate].
    + cbn [startswith]. rewrite andb_true_iff, ascii_eqb_eq, IH. split.
      * intros [-> [r ->]]. exists r; reflexivity.
      * intros [r H]. injection H as -> ->. eauto.
Qed.

Lemma startswith_app (p r : text) : startswith (p ++ r) p = true.
Proof. apply startswith_iff; eauto. Qed.

Lemma startswith_head_neq (s p : text) (c d : ascii) :
  c <> d -> startswith (d :: s) (c :: p) = false.
Proof.
  intros H; cbn [startswith].
  apply ascii_eqb_neq in H. now rewrite H.
Qed.

Lemma replace_scan_skip (old new a rest : text) :
  replace_scan old new (length a) (a ++ rest) = replace_scan old new 0 rest.
Proof.
  induction a as [|c a IH]; simpl; auto.
Qed.

(** An occurrence at the head is replaced and the scan resumes after it. *)
Lemma str_replace_hit (old new rest : text) :
  old <> [] ->
  str_replace (old ++ rest) old new = new ++ str_replace rest old new.
Proof.
  destruct old as [|c old]; [congruence|]; intros _.
  unfold str_replace.
  change ((c :: old) ++ rest) with (c :: (old ++ rest)).
  cbn [replace_scan].
  change (c :: old ++ rest) with ((c :: old) ++ rest).
  rewrite startswith_app. f_equal.
  cbn [length]. rewrite Nat.sub_succ, Nat.sub_0_r.
  apply replace_scan_skip.
Qed.

(** Where [old] does not start, one character is copied. *)
Lemma str_replace_miss (old new s : text) (c : ascii) :
  old <> [] -> startswith (c :: s) old = false ->
  str_replace (c :: s) old new = c :: str_replace s old new.
Proof.
  destruct old as [|x old]; [congruence|]; intros _ H.
  unfold str_replace. cbn [replace_scan]. now rewrite H.
Qed.

Lemma str_replace_nil (old new : text) :
  old <> [] -> str_replace [] old new = [].
Proof. destruct old; [congruence | reflexivity]. Qed.

(** ** Decimal numerals *)

Lemma string_of_uint_digits (d : Decimal.uint) :
  forallb is_decimal_digit (str (NilEmpty.string_of_uint d)) = true.
Proof. induction d; simpl; auto. Qed.

Lemma decimal_digits (n : nat) : forallb is_decimal_digit (decimal n) = true.
Proof. apply string_of_uint_digits. Qed.

Lemma decimal_inj (n m : nat) : decimal n = decimal m -> n = m.
Proof.
  unfold decimal, str. intros H.
  apply (f_equal string_of_list_ascii) in H.
  rewrite !string_of_list_ascii_of_string in H.
  apply (f_equal NilEmpty.uint_of_string) in H.
  rewrite !NilEmpty.usu in H. injection H as H.
  apply (f_equal Nat.of_uint) in H.
  now rewrite !Unsigned.of_to in H.
Qed.

Lemma digits_exclude (c : ascii) (d : text) :
  is_decimal_digit c = false -> forallb is_decimal_digit d = true -> ~ In c d.
Proof.
  intros Hc Hd Hin. rewrite forallb_forall in Hd.
  apply Hd in Hin. congruence.
Qed.

(** Two texts cut at the first occurrence of a separator agree piecewise. *)
Lemma split_at_first (c : ascii) (x y a b : text) :
  ~ In c x -> ~ In c y -> x ++ c :: a = y ++ c :: b -> x = y /\ a = b.
Proof.
  revert y; induction x as [|u x IH]; intros [|v y] Hx Hy H; simpl in *.
  - injection H as H. auto.
  - injection H as E _. subst. tauto.
  - injection H as E _. subst. tauto.
  - injection H as E H. subst. apply IH in H; [|tauto|tauto].
    destruct H; subst; auto.
Qed.

Lemma split_at_last (c : ascii) (x y a b : text) :
  ~ In c x -> ~ In c y -> a ++ c :: x = b ++ c :: y -> a = b /\ x = y.
Proof.
  intros Hx Hy H. apply (f_equal (@rev ascii)) in H.
  rewrite !rev_app_distr in H. simpl in H. rewrite <- !app_assoc in H.
  simpl in H. apply split_at_first in H;
    [| rewrite <- in_rev; auto | rewrite <- in_rev; auto].
  destruct H as [H1 H2].
  apply (f_equal (@rev ascii)) in H1, H2.
  rewrite !rev_involutive in H1, H2. auto.
Qed.

(** ** Tokens *)

(** A token determines its category and its counter. *)
Lemma token_text_inj (ty ty' : text) (n n' : nat) :
  token_text ty n = token_text ty' n' -> ty = ty' /\ n = n'.
Proof.
  unfold token_text. intros H. apply app_inv_head in H.
  change (str "_") with ["_"%char] in H. simpl in H.
  apply split_at_last in H.
  - destruct H as [-> H]. split; auto.
    apply app_inv_tail in H. now apply decimal_inj.
  - intros Hin. apply in_app_or in Hin. destruct Hin as [Hin|Hin].
    + revert Hin. apply digits_exclude; [reflexivity | apply decimal_digits].
    + simpl in Hin. destruct Hin as [Hin|[]]. discriminate.
  - intros Hin. apply in_app_or in Hin. destruct Hin as [Hin|Hin].
    + revert Hin. apply digits_exclude; [reflexivity | apply decimal_digits].
    + simpl in Hin. destruct Hin as [Hin|[]]. discriminate.
Qed.

(** ** Dicts *)

Lemma dict_get_set_same {V} (d : Dict V) (k : text) (v : V) :
  dict_get (dict_set d k v) k = Some v.
Proof.
  induction d as [|[k' v'] d IH]; simpl.
  - now rewrite text_eqb_refl.
  - destruct (text_eqb k' k) eqn:E; simpl; rewrite E; auto.
Qed.

Lemma dict_get_set_other {V} (d : Dict V) (k k' : text) (v : V) :
  k <> k' -> dict_get (dict_set d k v) k' = dict_get d k'.
Proof.
  intros Hne. induction d as [|[k0 v0] d IH]; simpl.
  - apply text_eqb_neq in Hne. now rewrite Hne.
  - destruct (text_eqb k0 k) eqn:E; simpl.
    + apply text_eqb_eq in E; subst k0.
      apply text_eqb_neq in Hne. now rewrite Hne.
    + now rewrite IH.
Qed.

Lemma dict_get_none {V} (d : Dict V) (k : text) :
  dict_get d k = None <-> ~ In k (keys d).
Proof.
  induction d as [|[k0 v0] d IH]; simpl.
  - tauto.
  - destruct (text_eqb k0 k) eqn:E.
    + apply text_eqb_eq in E. split; [discriminate | tauto].
    + apply text_eqb_neq in E. rewrite IH. tauto.
Qed.

(** Assigning to a key that is not in the dict appends an entry. *)
Lemma dict_set_fresh {V} (d : Dict V) (k : text) (v : V) :
  ~ In k (keys d) -> dict_set d k v = d ++ [(k, v)].
Proof.
  induction d as [|[k0 v0] d IH]; simpl; intros H; auto.
  destruct (text_eqb k0 k) eqn:E.
  - apply text_eqb_eq in E. tauto.
  - rewrite IH; tauto.
Qed.

(** ** The token allocator *)

Lemma counters_key_present (counters : Dict nat) (ty : text) :
  dict_mem (if dict_mem counters ty then counters else dict_set counters ty 0)
           ty = true.
Proof.
  destruct (dict_mem counters ty) eqn:E; auto.
  unfold dict_mem. now rewrite dict_get_set_same.
Qed.

Lemma generate_token_fst (ty v : text) (self : Fields) :
  fst (_generate_token ty v self)
  = token_text ty (counter_of (token_counters self) ty + 1).
Proof.
  unfold _generate_token; simpl. f_equal.
  unfold counter_of at 1. rewrite dict_get_set_same.
  unfold dict_mem, counter_of.
  destruct (dict_get (token_counters self) ty) eqn:E; [now rewrite E|].
  now rewrite dict_get_set_same.
Qed.

Lemma generate_token_counter (ty v ty' : text) (self : Fields) :
  counter_of (token_counters (snd (_generate_token ty v self))) ty'
  = if text_eqb ty ty' then counter_of (token_counters self) ty + 1
    else counter_of (token_counters self) ty'.
Proof.
  unfold _generate_token; simpl.
  destruct (text_eqb ty ty') eqn:E.
  - apply text_eqb_eq in E; subst ty'.
    unfold counter_of at 1. rewrite dict_get_set_same.
    unfold dict_mem, counter_of.
    destruct (dict_get (token_counters self) ty) eqn:E; [now rewrite E|].
    now rewrite dict_get_set_same.
  - apply text_eqb_neq in E.
    unfold counter_of at 1. rewrite dict_get_set_other by exact E.
    unfold dict_mem.
    destruct (dict_get (token_counters self) ty) eqn:E'; auto.
    rewrite dict_get_set_other by exact E. reflexivity.
Qed.

Lemma generate_token_mapping (ty v : text) (self : Fields) :
  token_mapping (snd (_generate_token ty v self))
  = dict_set (token_mapping self) (fst (_generate_token ty v self)) v.
Proof. reflexivity. Qed.

Lemma generate_token_trace (ty v : text) (self : Fields) :
  trace (snd (_generate_token ty v self))
  = trace self ++ [GeneratedToken (fst (_generate_token ty v self)) ty].
Proof. reflexivity. Qed.

Lemma allocated_app (tr1 tr2 : list Event) :
  allocated (tr1 ++ tr2) = allocated tr1 ++ allocated tr2.
Proof. apply flat_map_app. Qed.

Lemma session_inv_cleared :
  session_inv {| token_mapping := []; token_counters := []; trace := [] |}.
Proof.
  repeat split; simpl; [constructor | intros k []].
Qed.

Lemma generate_token_fresh (ty v : text) (self : Fields) :
  session_inv self ->
  ~ In (fst (_generate_token ty v self)) (keys (token_mapping self)).
Proof.
  intros (_ & _ & Hk) Hin. apply Hk in Hin.
  destruct Hin as (ty' & n & E & Hle).
  rewrite generate_token_fst in E. apply token_text_inj in E.
  destruct E as [<- <-]. lia.
Qed.

Lemma session_inv_generate (ty v : text) (self : Fields) :
  session_inv self -> session_inv (snd (_generate_token ty v self)).
Proof.
  intros Hinv. pose proof (generate_token_fresh ty v self Hinv) as Hfresh.
  destruct Hinv as (Hkeys & Hnd & Hk).
  unfold session_inv.
  rewrite generate_token_mapping, generate_token_trace, allocated_app.
  rewrite dict_set_fresh by exact Hfresh.
  unfold keys in *. rewrite map_app. cbn [map fst].
  repeat split.
  - now rewrite Hkeys.
  - apply NoDup_app; auto.
    + constructor; [intros [] | constructor].
    + intros a Ha [<-|[]]. auto.
  - intros k Hin. apply in_app_or in Hin. destruct Hin as [Hin|[<-|[]]].
    + destruct (Hk k Hin) as (ty' & n & -> & Hle).
      exists ty', n. split; auto.
      rewrite generate_token_counter.
      destruct (text_eqb ty ty') eqn:E; auto.
      apply text_eqb_eq in E; subst. lia.
    + exists ty, (counter_of (token_counters self) ty + 1).
      split; [apply generate_token_fst|].
      rewrite generate_token_counter, text_eqb_refl. lia.
Qed.

Lemma session_inv_log (e : Event) (self : Fields) :
  (match e with GeneratedToken _ _ => False | _ => True end) ->
  session_inv self -> session_inv (log_event e self).
Proof.
  intros He (Hkeys & Hnd & Hk). unfold session_inv, log_event; simpl.
  rewrite allocated_app. repeat split; auto.
  destruct e; simpl; try contradiction; now rewrite app_nil_r.
Qed.

(** ** The store *)

Lemma heap_set_length (heap : Heap) (l : loc) (d : Dict text) :
  length (heap_set heap l d) = length heap.
Proof.
  revert l; induction heap as [|x heap IH]; intros [|l]; simpl; auto.
Qed.

Lemma heap_get_set_other (heap : Heap) (l l' : loc) (d : Dict text) :
  l <> l' -> heap_get (heap_set heap l d) l' = heap_get heap l'.
Proof.
  unfold heap_get. revert l l'.
  induction heap as [|x heap IH]; intros [|l] [|l'] H; simpl; auto;
    congruence.
Qed.

Lemma heap_get_alloc_new (heap : Heap) (d : Dict text) :
  heap_get (snd (heap_alloc heap d)) (fst (heap_alloc heap d)) = Some d.
Proof.
  unfold heap_get, heap_alloc; simpl.
  rewrite nth_error_app2 by lia. now rewrite Nat.sub_diag.
Qed.

Lemma heap_get_alloc_old (heap : Heap) (d : Dict text) (l : loc) :
  l < length heap -> heap_get (snd (heap_alloc heap d)) l = heap_get heap l.
Proof.
  intros H. unfold heap_get, heap_alloc; simpl. now apply nth_error_app1.
Qed.

(** ** The tokenization loops keep the session invariant *)

Lemma fold_left_preserves {A B} (P : A -> Prop) (f : A -> B -> A)
    (l : list B) (a : A) :
  (forall a b, P a -> P (f a b)) -> P a -> P (fold_left f l a).
Proof.
  intros Hf. revert a. induction l as [|b l IH]; simpl; auto.
Qed.

Section Sessions.

Variable analyze : text -> option (list RecognizerResult).
Variable finditer : string -> text -> list Match.

Lemma regex_session_inv (t : text) (self : Fields) :
  session_inv self ->
  session_inv (snd (_tokenize_with_regex finditer t self)).
Proof.
  intros H. unfold _tokenize_with_regex.
  apply (fold_left_preserves (fun acc => session_inv (snd acc))); auto.
  intros [cur st] [pattern ty] Hst. unfold regex_apply_pattern.
  apply (fold_left_preserves (fun acc => session_inv (snd acc))).
  - intros [cur' st'] m Hst'. unfold regex_replace_match.
    destruct (_generate_token ty (m_group m) st') as [token st''] eqn:E.
    simpl. change st'' with (snd (token, st'')). rewrite <- E.
    now apply session_inv_generate.
  - simpl. apply session_inv_log; simpl; auto.
Qed.

Lemma presidio_session_inv (t : text) (self : Fields) :
  session_inv self ->
  session_inv (snd (_tokenize_with_presidio analyze finditer t self)).
Proof.
  intros H. unfold _tokenize_with_presidio.
  assert (H' : session_inv (log_event (AnalyzerCall t) self))
    by (apply session_inv_log; simpl; auto).
  destruct (analyze t) as [results|].
  - apply (fold_left_preserves (fun acc => session_inv (snd acc))); auto.
    intros [cur st] result Hst. unfold presidio_replace_result.
    destruct (_generate_token (entity_type result)
                (slice t (start result) (end_ result)) st)
      as [token st'] eqn:E.
    simpl. change st' with (snd (token, st')). rewrite <- E.
    now apply session_inv_generate.
  - now apply regex_session_inv.
Qed.

(** What [tokenize_text] returns, field by field. *)
Lemma tokenize_text_fields (self : PIIHandler) (t : text) (heap : Heap) :
  let cleared := {| token_mapping := []; token_counters := []; trace := [] |} in
  let run := if use_presidio self
             then _tokenize_with_presidio analyze finditer t cleared
             else _tokenize_with_regex finditer t cleared in
  let r := tokenize_text analyze finditer self t heap in
  tokenized_text r = fst run /\
  events r = trace (snd run) /\
  mapping_ref r = length heap /\
  token_mapping_ref (handler_after r) = token_mapping_ref self /\
  use_presidio (handler_after r) = use_presidio self /\
  heap_after r
  = heap_set heap (token_mapping_ref self) (token_mapping (snd run))
    ++ [token_mapping (snd run)] /\
  returned_mapping r = token_mapping (snd run).
Proof.
  intros cleared run r. subst r. unfold tokenize_text.
  fold cleared. fold run. destruct run as [tokenized fields] eqn:E.
  unfold returned_mapping, heap_alloc, heap_get. simpl.
  rewrite heap_set_length. repeat split; auto.
  rewrite nth_error_app2 by (rewrite heap_set_length; lia).
  rewrite heap_set_length, Nat.sub_diag. reflexivity.
Qed.



End Sessions.

(** ** Aliasing: the returned mapping and the handler's own dict *)

Section Aliasing.

Variable analyze : text -> option (list RecognizerResult).
Variable finditer : string -> text -> list Match.

(** A call writes the handler's own dict object and a newly allocated one,
    nothing else. *)
Lemma tokenize_text_frame (self : PIIHandler) (t : text) (heap : Heap)
    (l : loc) :
  l < length heap -> l <> token_mapping_ref self ->
  heap_get (heap_after (tokenize_text analyze finditer self t heap)) l
  = heap_get heap l.
Proof.
  intros Hl Hne.
  destruct (tokenize_text_fields analyze finditer self t heap)
    as (_ & _ & _ & _ & _ & -> & _).
  unfold heap_get. rewrite nth_error_app1 by (rewrite heap_set_length; lia).
  apply heap_get_set_other. auto.
Qed.

Lemma tokenize_text_heap_grows (self : PIIHandler) (t : text) (heap : Heap) :
  length (heap_after (tokenize_text analyze finditer self t heap))
  = S (length heap).
Proof.
  destruct (tokenize_text_fields analyze finditer self t heap)
    as (_ & _ & _ & _ & _ & -> & _).
  rewrite length_app, heap_set_length. simpl. lia.
Qed.

Lemma tokenize_many_frame (texts : list text) (self : PIIHandler)
    (heap : Heap) (l : loc) :
  token_mapping_ref self < length heap ->
  l < length heap -> l <> token_mapping_ref self ->
  heap_get (tokenize_many analyze finditer self texts heap) l
  = heap_get heap l.
Proof.
  revert self heap. induction texts as [|t texts IH]; intros self heap Hs Hl Hne.
  - reflexivity.
  - cbn [tokenize_many].
    pose proof (tokenize_text_fields analyze finditer self t heap)
      as (_ & _ & _ & Href & _).
    cbv zeta in Href.
    rewrite IH.
    + now apply tokenize_text_frame.
    + rewrite Href, tokenize_text_heap_grows. lia.
    + rewrite tokenize_text_heap_grows. lia.
    + now rewrite Href.
Qed.

(** C10.  The mapping returned by [tokenize_text] is a detached copy: its
    reference differs from the one the handler keeps, and whatever
    [tokenize_text] calls follow on the same handler instance, the dict
    read through the returned reference stays what it was on return. *)
Theorem returned_mapping_detached (self : PIIHandler) (t : text)
    (later : list text) (heap : Heap) :
  token_mapping_ref self < length heap ->
  let r := tokenize_text analyze finditer self t heap in
  let final :=
    tokenize_many analyze finditer (handler_after r) later (heap_after r) in
  mapping_ref r <> token_mapping_ref self /\
  heap_get final (mapping_ref r) = Some (returned_mapping r).
Proof.
  intros Hs r final.
  pose proof (tokenize_text_fields analyze finditer self t heap)
    as (_ & _ & Hm & Href & _ & Hh & Hret).
  cbv zeta in Hm, Href, Hh, Hret. fold r in Hm, Href, Hh, Hret.
  assert (Hlen : length (heap_after r) = S (length heap))
    by apply tokenize_text_heap_grows.
  split; [lia|].
  subst final. rewrite tokenize_many_frame; try lia.
  rewrite Hm, Hh, Hret. unfold heap_get.
  rewrite nth_error_app2 by (rewrite heap_set_length; lia).
  now rewrite heap_set_length, Nat.sub_diag.
Qed.

End Aliasing.

(** The statement of C10 on a handler made by [__init__], with the fallback
    detector and two later calls. *)
Lemma returned_mapping_detached_witness :
  let hh := PIIHandler_init false [] in
  let r := tokenize_text (fun _ => None) Re.finditer (fst hh)
             (str "Name: John Smith") (snd hh) in
  token_mapping_ref (fst hh) < length (snd hh) /\
  returned_mapping r = [(str "[PII_PERSON_1]", str "John Smith")] /\
  heap_get
    (tokenize_many (fun _ => None) Re.finditer (handler_after r)
       [str "IP: 192.168.1.1"; str ""] (heap_after r))
    (mapping_ref r)
  = Some (returned_mapping r).
Proof.
  split; [simpl; lia|]. split; [reflexivity|].
  apply (returned_mapping_detached (fun _ => None) Re.finditer
           (fst (PIIHandler_init false [])) (str "Name: John Smith")
           [str "IP: 192.168.1.1"; str ""] (snd (PIIHandler_init false []))).
  simpl; lia.
Defined.

(** ** The empty text *)

Section EmptyText.

Variable analyze : text -> option (list RecognizerResult).
Variable finditer : string -> text -> list Match.

Lemma in_bounds_nil (a b : Z) : in_bounds [] a b = false.
Proof.
  unfold in_bounds; simpl.
  destruct (Z.leb_spec 0 a), (Z.ltb_spec a b), (Z.leb_spec b 0);
    simpl; auto; lia.
Qed.

Lemma forallb_false_nil {A} (p : A -> bool) (l : list A) :
  (forall x, p x = false) -> forallb p l = true -> l = [].
Proof.
  intros Hp. destruct l as [|x l]; simpl; auto. rewrite (Hp x). discriminate.
Qed.

Lemma regex_pattern_on_empty (self : Fields) (p : string * text) :
  finditer (fst p) [] = [] ->
  regex_apply_pattern finditer ([], self) p
  = ([], log_event (FinditerCall (fst p) []) self).
Proof.
  destruct p as [pattern ty]; simpl. intros ->. reflexivity.
Qed.

Lemma regex_patterns_on_empty (ps : list (string * text)) (self : Fields) :
  (forall pattern, finditer pattern [] = []) ->
  fold_left (regex_apply_pattern finditer) ps ([], self)
  = ([], {| token_mapping := token_mapping self;
            token_counters := token_counters self;
            trace := trace self
                     ++ map (fun p => FinditerCall (fst p) []) ps |}).
Proof.
  intros Hnone. revert self. induction ps as [|p ps IH]; intros self.
  - simpl. rewrite app_nil_r. now destruct self.
  - cbn [fold_left]. rewrite regex_pattern_on_empty by apply Hnone.
    rewrite IH. unfold log_event; simpl. now rewrite <- app_assoc.
Qed.

Lemma regex_on_empty (self : Fields) :
  (forall pattern, forallb (match_in_bounds []) (finditer pattern []) = true) ->
  fst (_tokenize_with_regex finditer [] self) = [] /\
  token_mapping (snd (_tokenize_with_regex finditer [] self))
  = token_mapping self /\
  exists calls, calls <> [] /\
    trace (snd (_tokenize_with_regex finditer [] self)) = trace self ++ calls /\
    detector_calls calls = calls.
Proof.
  intros Hm.
  assert (Hnone : forall pattern, finditer pattern [] = []).
  { intros p. apply (forallb_false_nil (match_in_bounds [])); auto.
    intros m. apply in_bounds_nil. }
  unfold _tokenize_with_regex. rewrite regex_patterns_on_empty by exact Hnone.
  cbn [fst snd token_mapping trace]. repeat split.
  eexists. split; [|split; [reflexivity|]].
  - unfold patterns. cbn [map]. discriminate.
  - reflexivity.
Qed.

(** C8, as the code has it.  On the empty string [tokenize_text] returns the
    empty string and an empty mapping provided the detectors report no span
    outside the Span invariant [0 <= start < end <= len] (so none at all);
    the active detector is invoked all the same. *)
Theorem tokenize_empty_text (self : PIIHandler) (heap : Heap) :
  (forall results, analyze [] = Some results ->
                   forallb (result_in_bounds []) results = true) ->
  (forall pattern, forallb (match_in_bounds []) (finditer pattern []) = true) ->
  let r := tokenize_text analyze finditer self [] heap in
  tokenized_text r = [] /\
  returned_mapping r = [] /\
  detector_calls (events r) <> [].
Proof.
  intros Ha Hm r.
  pose proof (tokenize_text_fields analyze finditer self [] heap)
    as (Ht & He & _ & _ & _ & _ & Hret).
  cbv zeta in Ht, He, Hret. fold r in Ht, He, Hret.
  rewrite Ht, He, Hret. clear Ht He Hret r.
  set (cleared := {| token_mapping := []; token_counters := []; trace := [] |}).
  destruct (use_presidio self).
  - unfold _tokenize_with_presidio.
    destruct (analyze []) as [results|] eqn:E.
    + assert (results = []) as ->.
      { apply (forallb_false_nil (result_in_bounds [])); auto.
        intros x. apply in_bounds_nil. }
      simpl. repeat split; auto. discriminate.
    + destruct (regex_on_empty (log_event (AnalyzerCall []) cleared) Hm)
        as (H1 & H2 & calls & _ & H3 & _).
      rewrite H1, H2, H3. simpl. repeat split; auto. discriminate.
  - destruct (regex_on_empty cleared Hm) as (H1 & H2 & calls & Hne & H3 & H4).
    rewrite H1, H2, H3. simpl. repeat split; auto. now rewrite H4.
Qed.

End EmptyText.

(** ** The category inside a token *)

(** C3, as the code has it.  The token is built from the label exactly as
    it was passed: the category read back from the token is the label
    itself, neither uppercased nor stripped, so it matches [[A-Z0-9_]+]
    exactly when the label does. *)
Theorem generate_token_category (label value : text) (self : Fields) :
  let token := fst (_generate_token label value self) in
  token = str "[PII_" ++ label ++ str "_"
          ++ decimal (counter_of (token_counters self) label + 1) ++ str "]" /\
  forall category n,
    token = token_text category n ->
    category = label /\ category_grammar category = category_grammar label.
Proof.
  intros token. subst token. rewrite generate_token_fst. split.
  - reflexivity.
  - intros category n H. apply token_text_inj in H. destruct H as [<- _]. auto.
Qed.

Lemma generate_token_category_witness :
  let token :=
    fst (_generate_token (str "email address") (str "a@b.com")
           {| token_mapping := []; token_counters := []; trace := [] |}) in
  token = token_text (str "email address") 1 /\
  str "email address" = str "email address" /\
  category_grammar (str "email address") = false.
Proof.
  split; [reflexivity|].
  destruct (generate_token_category (str "email address") (str "a@b.com")
              {| token_mapping := []; token_counters := []; trace := [] |})
    as [_ H].
  destruct (H (str "email address") 1 eq_refl) as [H1 H2].
  split; [exact H1 | reflexivity].
Defined.

(** A lower-case label goes into the token as it is: no category matching
    [[A-Z0-9_]+] can be read from the generated token. *)
Lemma generate_token_not_normalized :
  let token :=
    fst (_generate_token (str "person") (str "Ann")
           {| token_mapping := []; token_counters := []; trace := [] |}) in
  token = str "[PII_person_1]" /\
  ~ exists category n,
      token = token_text category n /\ category_grammar category = true.
Proof.
  split; [reflexivity|].
  intros (category & n & H & Hg).
  change (token_text (str "person") 1 = token_text category n) in H.
  apply token_text_inj in H. destruct H as [<- _]. discriminate.
Qed.

(** ** The response of the analysis *)

Section ResponseFacts.

Variable JSON : Type.
Variable json_dumps : JSON -> Outcome text.
Variable json_loads : text -> Loads JSON.

(** What [_detokenize_response] does in each case: the parsed document
    when the substituted text parses, the response it was given when the
    parser raises [json.JSONDecodeError], and the parser's exception when
    it raises any other. *)
Lemma detokenize_response_cases (response : JSON) (mapping : Dict text)
    (serialized : text) :
  json_dumps response = Returned serialized ->
  let substituted := detokenize_text serialized mapping in
  (json_loads substituted = JSONDecodeError ->
   _detokenize_response JSON json_dumps json_loads response mapping
   = Returned response) /\
  (forall parsed, json_loads substituted = Loaded parsed ->
   _detokenize_response JSON json_dumps json_loads response mapping
   = Returned parsed) /\
  (forall e, json_loads substituted = LoadRaised e ->
   _detokenize_response JSON json_dumps json_loads response mapping
   = Raised e).
Proof.
  intros Hd substituted. unfold _detokenize_response. rewrite Hd.
  fold substituted. repeat split.
  - intros ->. reflexivity.
  - intros parsed ->. reflexivity.
  - intros e ->. reflexivity.
Qed.

End ResponseFacts.

(** A restored name with a double quote in it breaks the document, which
    then comes back tokenized; a harmless name is restored. *)
Lemma detokenize_response_examples :
  let response :=
    Json.JObject [(str "party", Json.JString (str "[PII_PERSON_1]"))] in
  let broken := [(str "[PII_PERSON_1]", str "Ann " ++ [Json.quote] ++ str "Lee")] in
  let fine := [(str "[PII_PERSON_1]", str "Ann Lee")] in
  Json.loads (detokenize_text (Json.dumps response) broken) = JSONDecodeError /\
  _detokenize_response Json.value Json.dumps_outcome Json.loads response broken
  = Returned response /\
  _detokenize_response Json.value Json.dumps_outcome Json.loads response fine
  = Returned (Json.JObject [(str "party", Json.JString (str "Ann Lee"))]).
Proof.
  intros response broken fine.
  split; [reflexivity|]. split.
  - apply (proj1 (detokenize_response_cases Json.value Json.dumps_outcome
                    Json.loads response broken (Json.dumps response)
                    eq_refl)). reflexivity.
  - apply (proj1 (proj2 (detokenize_response_cases Json.value
                           Json.dumps_outcome Json.loads response fine
                           (Json.dumps response) eq_refl))). reflexivity.
Qed.

(** C7.  Not every failure to parse the substituted text falls back to
    the response given: the [except] clause names [json.JSONDecodeError]
    only.  The fallback run on a text with the address below stores it as
    the value of [[PII_URL_1]]; substituted into the serialized response
    it closes the string and leaves an integer of 4301 digits, on which
    [json.loads] raises [ValueError], and [_detokenize_response] raises
    with it instead of returning the response it was given. *)
Theorem detokenize_response_raises :
  let q := [Json.quote] in
  let address :=
    str "http://x" ++ q ++ str "," ++ q ++ str "n" ++ q ++ str ":"
    ++ repeat "1"%char 4301 ++ str "," ++ q ++ str "z" ++ q ++ str ":" ++ q in
  let hh := PIIHandler_init false [] in
  let r := tokenize_text (fun _ => None) Re.finditer (fst hh)
             (str "see " ++ address ++ str " now") (snd hh) in
  let response :=
    Json.JObject [(str "party", Json.JString (str "[PII_URL_1]"))] in
  tokenized_text r = str "see [PII_URL_1] now" /\
  returned_mapping r = [(str "[PII_URL_1]", address)] /\
  _detokenize_response Json.value Json.dumps_outcome Json.loads
                       response (returned_mapping r)
  = Raised (Json.int_limit_message 4301).
Proof.
  intros q address hh r response.
  assert (Hr : tokenized_text r = str "see [PII_URL_1] now"
               /\ returned_mapping r = [(str "[PII_URL_1]", address)])
    by (vm_compute; split; reflexivity).
  destruct Hr as [Ht Hm]. split; [exact Ht|]. split; [exact Hm|].
  rewrite Hm. vm_compute. reflexivity.
Qed.

(** ** The empty text, on concrete detectors *)

Lemma tokenize_empty_text_witness :
  let hh := PIIHandler_init true [] in
  let r := tokenize_text (fun _ => Some []) Re.finditer (fst hh) [] (snd hh) in
  tokenized_text r = [] /\ returned_mapping r = [] /\
  detector_calls (events r) <> [].
Proof.
  apply (tokenize_empty_text (fun _ => Some []) Re.finditer).
  - intros results H. injection H as <-. reflexivity.
  - intros pattern. unfold Re.finditer.
    destruct (Re.lookup pattern (combine patterns Re.compiled)); reflexivity.
Defined.

(** On the empty string the handler does call its detector: the analyzer
    when Presidio is in use, every pattern of the fallback otherwise. *)
Lemma tokenize_empty_calls_detector :
  let primary := PIIHandler_init true [] in
  let fallback := PIIHandler_init false [] in
  detector_calls
    (events (tokenize_text (fun _ => Some []) Re.finditer
               (fst primary) [] (snd primary)))
  = [AnalyzerCall []] /\
  detector_calls
    (events (tokenize_text (fun _ => Some []) Re.finditer
               (fst fallback) [] (snd fallback)))
  = map (fun p => FinditerCall (fst p) []) patterns.
Proof. split; reflexivity. Qed.

(** ** Bracketed tokens and literal replacement *)

Lemma no_open_bracket_app (a b : text) :
  no_open_bracket (a ++ b) = no_open_bracket a && no_open_bracket b.
Proof. apply forallb_app. Qed.

Lemma bracket_free_app (a b : text) :
  bracket_free (a ++ b) = bracket_free a && bracket_free b.
Proof. apply forallb_app. Qed.

Lemma bracket_free_rev (a : text) : bracket_free (rev a) = bracket_free a.
Proof.
  induction a as [|c a IH]; simpl; auto.
  rewrite bracket_free_app, IH. simpl. rewrite andb_true_r. apply andb_comm.
Qed.

Lemma bracket_free_no_open (a : text) :
  bracket_free a = true -> no_open_bracket a = true.
Proof.
  unfold bracket_free, no_open_bracket. rewrite !forallb_forall.
  intros H c Hc. specialize (H c Hc).
  destruct (is_open_bracket c); simpl in *; congruence.
Qed.

Lemma bracket_free_not_in_close (a : text) :
  bracket_free a = true -> ~ In "]"%char a.
Proof.
  unfold bracket_free. rewrite forallb_forall. intros H Hin.
  specialize (H _ Hin). rewrite orb_true_r in H. discriminate.
Qed.

Lemma no_open_bracket_not_in (a : text) :
  no_open_bracket a = true -> ~ In "["%char a.
Proof.
  unfold no_open_bracket. rewrite forallb_forall. intros H Hin.
  specialize (H _ Hin). discriminate.
Qed.

(** The shape of a bracketed token, spelled out. *)
Lemma bracketed_inv (t : text) :
  bracketed t = true ->
  exists body, t = "["%char :: body ++ ["]"%char] /\ bracket_free body = true.
Proof.
  destruct t as [|c rest]; [discriminate|]. unfold bracketed.
  destruct (rev rest) as [|d body] eqn:E; rewrite andb_true_iff;
    [intros [_ H]; discriminate|].
  intros [Hc H]. apply andb_true_iff in H. destruct H as [Hd Hb].
  apply ascii_eqb_eq in Hc, Hd. subst c d.
  exists (rev body). split.
  - f_equal. apply (f_equal (@rev ascii)) in E.
    rewrite rev_involutive in E. rewrite E. reflexivity.
  - now rewrite bracket_free_rev.
Qed.

Lemma bracketed_intro (body : text) :
  bracket_free body = true -> bracketed ("["%char :: body ++ ["]"%char]) = true.
Proof.
  intros H. unfold bracketed. rewrite rev_app_distr. simpl.
  now rewrite bracket_free_rev.
Qed.

Lemma bracketed_nonempty (t : text) : bracketed t = true -> t <> [].
Proof. destruct t; [discriminate | discriminate]. Qed.

(** Two bracketed tokens that start at the same place are the same. *)
Lemma bracketed_prefix_eq (k t rest : text) :
  bracketed k = true -> bracketed t = true ->
  startswith (t ++ rest) k = true -> k = t.
Proof.
  intros Hk Ht H.
  apply bracketed_inv in Hk, Ht.
  destruct Hk as (bk & -> & Hbk), Ht as (bt & -> & Hbt).
  apply startswith_iff in H. destruct H as [r H].
  simpl in H. injection H as H. rewrite <- !app_assoc in H. simpl in H.
  apply split_at_first in H; try now apply bracket_free_not_in_close.
  destruct H as [-> _]. reflexivity.
Qed.

(** No bracketed token starts inside prose without ['[']. *)
Lemma str_replace_plain (s rest k v : text) :
  bracketed k = true -> no_open_bracket s = true ->
  str_replace (s ++ rest) k v = s ++ str_replace rest k v.
Proof.
  intros Hk. pose proof (bracketed_nonempty k Hk) as Hne.
  apply bracketed_inv in Hk. destruct Hk as (bk & -> & _).
  induction s as [|c s IH]; intros Hs; [reflexivity|].
  simpl in Hs. apply andb_true_iff in Hs. destruct Hs as [Hc Hs].
  cbn [app]. rewrite str_replace_miss; auto.
  - now rewrite IH.
  - apply startswith_head_neq. intros <-. discriminate.
Qed.

(** A bracketed token other than [k] is passed over unchanged. *)
Lemma str_replace_other_token (t rest k v : text) :
  bracketed k = true -> bracketed t = true -> k <> t ->
  str_replace (t ++ rest) k v = t ++ str_replace rest k v.
Proof.
  intros Hk Ht Hne.
  assert (Hmiss : startswith (t ++ rest) k = false).
  { destruct (startswith (t ++ rest) k) eqn:E; auto.
    apply bracketed_prefix_eq in E; auto. contradiction. }
  pose proof (bracketed_nonempty k Hk) as Hk0.
  apply bracketed_inv in Ht. destruct Ht as (bt & -> & Hbt).
  cbn [app] in *. rewrite str_replace_miss by auto. f_equal.
  apply str_replace_plain; auto.
  rewrite no_open_bracket_app. rewrite bracket_free_no_open by auto.
  reflexivity.
Qed.

(** An occurrence of a bracketed token that starts before another
    bracketed token ends before it. *)
Lemma bracketed_prefix_confined (k t pre post : text) :
  bracketed k = true -> bracketed t = true -> pre <> [] ->
  startswith (pre ++ t ++ post) k = true ->
  exists pre', pre = k ++ pre'.
Proof.
  intros Hk Ht Hpre H.
  apply startswith_iff in H. destruct H as [r H].
  apply app_eq_app in H. destruct H as [l [[H1 H2]|[H1 H2]]]; eauto.
  destruct l as [|x l].
  - exists []. rewrite app_nil_r in *. auto.
  - exfalso. apply bracketed_inv in Hk, Ht.
    destruct Hk as (bk & Ek & Hbk), Ht as (bt & -> & _).
    simpl in H2. injection H2 as <- _.
    destruct pre as [|c pre]; [congruence|].
    rewrite Ek in H1. simpl in H1. injection H1 as _ H1.
    assert (Hin : In "["%char (bk ++ ["]"%char]))
      by (rewrite H1; apply in_or_app; right; left; reflexivity).
    apply in_app_or in Hin. destruct Hin as [Hin|[Hin|[]]].
    + revert Hin. apply no_open_bracket_not_in.
      now apply bracket_free_no_open.
    + discriminate.
Qed.

Lemma startswith_app_l (s rest k : text) :
  startswith s k = true -> startswith (s ++ rest) k = true.
Proof.
  rewrite !startswith_iff. intros [r ->]. exists (r ++ rest).
  now rewrite app_assoc.
Qed.

(** Replacing [k] never reaches across or into another bracketed token. *)
Lemma str_replace_around_token (pre t post k v : text) :
  bracketed k = true -> bracketed t = true -> k <> t ->
  str_replace (pre ++ t ++ post) k v
  = str_replace pre k v ++ t ++ str_replace post k v.
Proof.
  intros Hk Ht Hne.
  pose proof (bracketed_nonempty k Hk) as Hk0.
  remember (length pre) as n eqn:Hn. revert pre Hn.
  induction n as [n IH] using lt_wf_ind. intros pre Hn.
  destruct pre as [|c pre].
  - cbn [app]. rewrite str_replace_nil by auto.
    now apply str_replace_other_token.
  - destruct (startswith ((c :: pre) ++ t ++ post) k) eqn:E.
    + apply bracketed_prefix_confined in E; auto; [|discriminate].
      destruct E as [pre' E]. rewrite E, <- app_assoc.
      rewrite !str_replace_hit by auto. rewrite <- app_assoc. f_equal.
      apply (IH (length pre')); auto.
      subst n. rewrite E, length_app.
      destruct k; [congruence | simpl; lia].
    + assert (E' : startswith (c :: pre) k = false).
      { destruct (startswith (c :: pre) k) eqn:E'; auto.
        apply (startswith_app_l _ (t ++ post)) in E'. congruence. }
      cbn [app] in *. rewrite !str_replace_miss by auto. cbn [app]. f_equal.
      apply (IH (length pre)); auto. subst n. simpl. lia.
Qed.

Lemma detokenize_around_token (M : Dict text) (pre t post : text) :
  bracketed t = true -> forallb bracketed (keys M) = true ->
  ~ In t (keys M) ->
  detokenize_text (pre ++ t ++ post) M
  = detokenize_text pre M ++ t ++ detokenize_text post M.
Proof.
  intros Ht. revert pre post.
  induction M as [|[k v] M IH]; intros pre post HM Hin; [reflexivity|].
  simpl in HM. apply andb_true_iff in HM. destruct HM as [Hk HM].
  unfold detokenize_text in *. cbn [fold_left fst snd].
  rewrite str_replace_around_token; auto.
  - apply IH; auto. intros H. apply Hin. right. exact H.
  - intros ->. apply Hin. left. reflexivity.
Qed.

(** C6.  A token that occurs in the text and is no key of the mapping is
    left where it is, whatever the other keys (tokens themselves) and
    values are: the text before and after it is detokenized around it.
    [detokenize_text] is a total function, so it returns in every case; on
    the documented example it returns ["Ann and [PII_EMAIL_1]"]. *)
Theorem detokenize_partial_mapping :
  (forall (pre token post : text) (mapping : Dict text),
     bracketed token = true ->
     forallb bracketed (keys mapping) = true ->
     dict_mem mapping token = false ->
     detokenize_text (pre ++ token ++ post) mapping
     = detokenize_text pre mapping ++ token ++ detokenize_text post mapping) /\
  detokenize_text (str "[PII_PERSON_1] and [PII_EMAIL_1]")
                  [(str "[PII_PERSON_1]", str "Ann")]
  = str "Ann and [PII_EMAIL_1]".
Proof.
  split; [|reflexivity].
  intros pre token post mapping Ht HM Hmem.
  apply detokenize_around_token; auto.
  apply dict_get_none. unfold dict_mem in Hmem.
  destruct (dict_get mapping token); [discriminate | reflexivity].
Qed.

Lemma detokenize_partial_mapping_witness :
  let mapping := [(str "[PII_PERSON_1]", str "John Doe");
                  (str "[PII_EMAIL_1]", str "john@example.com")] in
  bracketed (str "[PII_PHONE_1]") = true /\
  forallb bracketed (keys mapping) = true /\
  dict_mem mapping (str "[PII_PHONE_1]") = false /\
  detokenize_text
    (str "Contact [PII_PERSON_1] at [PII_EMAIL_1] or "
     ++ str "[PII_PHONE_1]" ++ str " today") mapping
  = detokenize_text (str "Contact [PII_PERSON_1] at [PII_EMAIL_1] or ") mapping
    ++ str "[PII_PHONE_1]" ++ detokenize_text (str " today") mapping.
Proof.
  intros mapping.
  split; [reflexivity|]. split; [reflexivity|]. split; [reflexivity|].
  apply (proj1 detokenize_partial_mapping); reflexivity.
Defined.

(** ** Sorting the detector results *)

Lemma in_bounds_iff (t : text) (a b : Z) :
  in_bounds t a b = true <-> (0 <= a < b /\ b <= Z.of_nat (length t))%Z.
Proof.
  unfold in_bounds. rewrite !andb_true_iff, !Z.leb_le, Z.ltb_lt. lia.
Qed.

Lemma disjoint_iff (a b : RecognizerResult) :
  disjoint a b = true <-> (end_ a <= start b \/ end_ b <= start a)%Z.
Proof. unfold disjoint. rewrite orb_true_iff, !Z.leb_le. tauto. Qed.

Lemma insert_desc_in (x y : RecognizerResult) (l : list RecognizerResult) :
  In y (insert_desc x l) <-> y = x \/ In y l.
Proof.
  induction l as [|z l IH]; simpl.
  - intuition.
  - destruct (start z <=? start x)%Z; simpl; rewrite ?IH; intuition.
Qed.

Lemma insert_desc_perm (x : RecognizerResult) (l : list RecognizerResult) :
  Permutation (x :: l) (insert_desc x l).
Proof.
  induction l as [|z l IH]; simpl; auto.
  destruct (start z <=? start x)%Z; auto.
  eapply perm_trans; [apply perm_swap|]. now constructor.
Qed.

Lemma sort_desc_perm (l : list RecognizerResult) :
  Permutation l (sort_desc l).
Proof.
  induction l as [|x l IH]; simpl; auto.
  eapply perm_trans; [|apply insert_desc_perm]. now constructor.
Qed.

Lemma insert_desc_descending (x : RecognizerResult)
    (l : list RecognizerResult) :
  descending l -> descending (insert_desc x l).
Proof.
  unfold descending. induction l as [|z l IH]; intros Hl; simpl.
  - repeat constructor.
  - apply StronglySorted_inv in Hl. destruct Hl as [Hl Hz].
    destruct (Z.leb_spec (start z) (start x)).
    + constructor; [now constructor|].
      constructor; auto. rewrite Forall_forall in *.
      intros b Hb. specialize (Hz b Hb). lia.
    + constructor; auto. rewrite Forall_forall in *.
      intros b Hb. apply insert_desc_in in Hb. destruct Hb as [->|Hb].
      * lia.
      * auto.
Qed.

Lemma sort_desc_descending (l : list RecognizerResult) :
  descending (sort_desc l).
Proof.
  induction l as [|x l IH]; simpl.
  - constructor.
  - now apply insert_desc_descending.
Qed.

Lemma insert_desc_chain (t : text) (x : RecognizerResult)
    (l : list RecognizerResult) :
  result_in_bounds t x = true ->
  forallb (result_in_bounds t) l = true ->
  forallb (disjoint x) l = true ->
  chain l -> chain (insert_desc x l).
Proof.
  unfold chain, result_in_bounds. intros Hx.
  apply in_bounds_iff in Hx.
  induction l as [|z l IH]; intros Hb Hd Hl; simpl.
  - repeat constructor.
  - simpl in Hb, Hd. apply andb_true_iff in Hb, Hd.
    destruct Hb as [Hz Hb], Hd as [Hxz Hd].
    apply in_bounds_iff in Hz. apply disjoint_iff in Hxz.
    apply StronglySorted_inv in Hl. destruct Hl as [Hl Hzl].
    destruct (Z.leb_spec (start z) (start x)).
    + constructor; [now constructor|].
      constructor; [lia|]. rewrite Forall_forall in *.
      intros b Hin. specialize (Hzl b Hin). lia.
    + constructor; auto. rewrite Forall_forall in *.
      intros b Hin. apply insert_desc_in in Hin. destruct Hin as [->|Hin].
      * lia.
      * auto.
Qed.

Lemma forallb_insert_desc (p : RecognizerResult -> bool)
    (x : RecognizerResult) (l : list RecognizerResult) :
  forallb p (insert_desc x l) = p x && forallb p l.
Proof.
  induction l as [|z l IH]; simpl; auto.
  destruct (start z <=? start x)%Z; simpl; auto.
  rewrite IH. destruct (p x), (p z); reflexivity.
Qed.

Lemma forallb_sort_desc (p : RecognizerResult -> bool)
    (l : list RecognizerResult) :
  forallb p (sort_desc l) = forallb p l.
Proof.
  induction l as [|x l IH]; simpl; auto.
  now rewrite forallb_insert_desc, IH.
Qed.

Lemma sort_desc_chain (t : text) (l : list RecognizerResult) :
  forallb (result_in_bounds t) l = true ->
  pairwise_disjoint l = true ->
  chain (sort_desc l).
Proof.
  induction l as [|x l IH]; simpl; intros Hb Hd.
  - constructor.
  - apply andb_true_iff in Hb, Hd. destruct Hb as [Hx Hb], Hd as [Hxl Hd].
    apply (insert_desc_chain t); auto.
    + now rewrite forallb_sort_desc.
    + now rewrite forallb_sort_desc.
Qed.

(** ** Reading a text against a list of spans *)

Section RewriteSpans.

Variable payload : RecognizerResult * text -> text.

Lemma rewrite_spans_app (A : list (RecognizerResult * text)) (i : nat)
    (x y : text) :
  rewrite_spans payload A i (x ++ y)
  = rewrite_spans payload A i x ++ rewrite_spans payload A (i + length x) y.
Proof.
  revert i. induction x as [|c x IH]; intros i; simpl.
  - now rewrite Nat.add_0_r.
  - rewrite IH, <- app_assoc.
    replace (S i + length x) with (i + S (length x)) by lia. reflexivity.
Qed.

Lemma rewrite_spans_ext (q : RecognizerResult * text -> text)
    (A B : list (RecognizerResult * text)) (i : nat) (x : text) :
  (forall j c, i <= j < i + length x ->
               rewrite_at payload A j c = rewrite_at q B j c) ->
  rewrite_spans payload A i x = rewrite_spans q B i x.
Proof.
  revert i. induction x as [|c x IH]; intros i H; simpl; auto.
  rewrite H by (simpl; lia). f_equal. apply IH.
  intros j d Hj. apply H. simpl. lia.
Qed.

Lemma rewrite_spans_copy (A : list (RecognizerResult * text)) (i : nat)
    (x : text) :
  (forall j c, i <= j < i + length x -> rewrite_at payload A j c = [c]) ->
  rewrite_spans payload A i x = x.
Proof.
  revert i. induction x as [|c x IH]; intros i H; simpl; auto.
  rewrite H by (simpl; lia). simpl. f_equal. apply IH.
  intros j d Hj. apply H. simpl. lia.
Qed.

Lemma rewrite_spans_drop (A : list (RecognizerResult * text)) (i : nat)
    (x : text) :
  (forall j c, i <= j < i + length x -> rewrite_at payload A j c = []) ->
  rewrite_spans payload A i x = [].
Proof.
  revert i. induction x as [|c x IH]; intros i H; simpl; auto.
  rewrite H by (simpl; lia). simpl. apply IH.
  intros j d Hj. apply H. simpl. lia.
Qed.

(** Spans that end at or before [s] say nothing about positions from [s]. *)
Lemma find_starts_none (A : list (RecognizerResult * text)) (s j : nat) :
  Forall (fun a => (start (fst a) < end_ (fst a) <= Z.of_nat s)%Z) A ->
  s <= j -> find (starts_at j) A = None.
Proof.
  intros HA Hj. induction HA as [|a A Ha HA IH]; simpl; auto.
  unfold starts_at at 1. destruct (Z.eqb_spec (start (fst a)) (Z.of_nat j)); auto.
  lia.
Qed.

Lemma existsb_covers_none (A : list (RecognizerResult * text)) (s j : nat) :
  Forall (fun a => (start (fst a) < end_ (fst a) <= Z.of_nat s)%Z) A ->
  s <= j -> existsb (covers j) A = false.
Proof.
  intros HA Hj. induction HA as [|a A Ha HA IH]; simpl; auto.
  rewrite IH, orb_false_r. unfold covers.
  destruct (Z.ltb_spec (Z.of_nat j) (end_ (fst a))); [lia|].
  apply andb_false_r.
Qed.

(** Adding the span [[s, e)] above all the spans of [A]: below [s] nothing
    changes, the span itself becomes its payload, the rest is copied. *)
Lemma rewrite_spans_cons (A : list (RecognizerResult * text))
    (a : RecognizerResult * text) (t : text) (s e bound : nat) :
  start (fst a) = Z.of_nat s -> end_ (fst a) = Z.of_nat e ->
  s < e -> e <= bound -> bound <= length t ->
  Forall (fun b => (start (fst b) < end_ (fst b) <= Z.of_nat s)%Z) A ->
  rewrite_spans payload (a :: A) 0 (firstn bound t)
  = rewrite_spans payload A 0 (firstn s t)
    ++ payload a ++ firstn (bound - e) (skipn e t).
Proof.
  intros Hs He Hse Heb Hbt HA.
  assert (Hsplit : firstn bound t
                   = firstn s t ++ firstn (e - s) (skipn s t)
                     ++ firstn (bound - e) (skipn e t)).
  { rewrite <- (firstn_skipn s (firstn bound t)) at 1.
    rewrite firstn_firstn, Nat.min_l by lia. f_equal.
    rewrite skipn_firstn_comm.
    rewrite <- (firstn_skipn (e - s) (firstn (bound - s) (skipn s t))) at 1.
    rewrite firstn_firstn, Nat.min_l by lia. f_equal.
    rewrite skipn_firstn_comm, skipn_skipn.
    replace (e - s + s) with e by lia.
    replace (bound - s - (e - s)) with (bound - e) by lia. reflexivity. }
  assert (Hlen : length (firstn (e - s) (skipn s t)) = e - s).
  { rewrite length_firstn, length_skipn. lia. }
  rewrite Hsplit, !rewrite_spans_app. rewrite Hlen.
  rewrite length_firstn, Nat.min_l by lia. simpl.
  f_equal; [|f_equal].
  - (* below the span *)
    apply rewrite_spans_ext. intros j c Hj.
    rewrite length_firstn, Nat.min_l in Hj by lia.
    unfold rewrite_at. simpl.
    unfold starts_at at 1. destruct (Z.eqb_spec (start (fst a)) (Z.of_nat j));
      [lia|].
    unfold covers at 1.
    destruct (Z.leb_spec (start (fst a)) (Z.of_nat j)); [lia|]. reflexivity.
  - (* the span *)
    destruct (firstn (e - s) (skipn s t)) as [|c x] eqn:E;
      [simpl in Hlen; lia|].
    simpl. unfold rewrite_at at 1. simpl.
    unfold starts_at at 1. rewrite Hs, Z.eqb_refl.
    rewrite <- (app_nil_r (payload a)) at 2. f_equal.
    apply rewrite_spans_drop. intros j d Hj. simpl in Hlen.
    unfold rewrite_at. simpl.
    unfold starts_at at 1. destruct (Z.eqb_spec (start (fst a)) (Z.of_nat j));
      [lia|].
    rewrite (find_starts_none A s j) by (auto; lia).
    unfold covers at 1.
    destruct (Z.leb_spec (start (fst a)) (Z.of_nat j)); [|lia].
    destruct (Z.ltb_spec (Z.of_nat j) (end_ (fst a))); [|lia].
    reflexivity.
  - (* above the span *)
    apply rewrite_spans_copy. intros j c Hj.
    unfold rewrite_at. simpl.
    unfold starts_at at 1. destruct (Z.eqb_spec (start (fst a)) (Z.of_nat j));
      [lia|].
    rewrite (find_starts_none A s j) by (auto; lia).
    unfold covers at 1.
    destruct (Z.ltb_spec (Z.of_nat j) (end_ (fst a))); [lia|].
    rewrite andb_false_r. simpl.
    rewrite (existsb_covers_none A s j) by (auto; lia). reflexivity.
Qed.

End RewriteSpans.

(** ** The sequential rewrite of [_tokenize_with_presidio] *)

Lemma slice_index_in_range (len n : nat) :
  n <= len -> slice_index len (Z.of_nat n) = n.
Proof.
  intros H. unfold slice_index.
  destruct (Z.ltb_spec (Z.of_nat n) 0); [lia|].
  rewrite Nat2Z.id. now apply Nat.min_l.
Qed.

Lemma splice_in_range (cur token : text) (s e : nat) :
  s <= length cur -> e <= length cur ->
  splice cur (Z.of_nat s) (Z.of_nat e) token
  = firstn s cur ++ token ++ skipn e cur.
Proof.
  intros Hs He. unfold splice, slice_to, slice_from.
  now rewrite !slice_index_in_range.
Qed.

Lemma slice_in_range (t : text) (s e : nat) :
  s <= length t -> e <= length t ->
  slice t (Z.of_nat s) (Z.of_nat e) = firstn (e - s) (skipn s t).
Proof.
  intros Hs He. unfold slice. now rewrite !slice_index_in_range.
Qed.

Lemma allocate_forall (Q : RecognizerResult -> Prop)
    (L : list RecognizerResult) (t : text) (self : Fields) :
  Forall Q L -> Forall (fun a => Q (fst a)) (allocate L t self).
Proof.
  intros H. revert self. induction H as [|r L Hr HL IH]; intros self; simpl.
  - constructor.
  - destruct (_generate_token (entity_type r)
                (slice t (start r) (end_ r)) self) as [token self'].
    constructor; auto.
Qed.

Lemma allocate_fst (L : list RecognizerResult) (t : text) (self : Fields) :
  map fst (allocate L t self) = L.
Proof.
  revert self. induction L as [|r L IH]; intros self; simpl; auto.
  destruct (_generate_token (entity_type r)
              (slice t (start r) (end_ r)) self) as [token self']. simpl.
  now rewrite IH.
Qed.

(** The loop invariant: below [bound] the text is still the original and
    every remaining span ends there or before; the final text is then the
    simultaneous rewrite below [bound], followed by what the loop has
    already produced above it. *)
Lemma presidio_loop_text (t : text) (L : list RecognizerResult) :
  forall (cur : text) (self : Fields) (bound : nat),
    chain L ->
    Forall (fun r => (0 <= start r < end_ r /\ end_ r <= Z.of_nat bound)%Z) L ->
    bound <= length t -> bound <= length cur ->
    firstn bound cur = firstn bound t ->
    fst (fold_left (presidio_replace_result t) L (cur, self))
    = rewrite_spans snd (allocate L t self) 0 (firstn bound t)
      ++ skipn bound cur.
Proof.
  induction L as [|a L IH]; intros cur self bound Hc Hb Hbt Hbc Hcur.
  - simpl. rewrite rewrite_spans_copy by reflexivity.
    rewrite <- Hcur. apply eq_sym, firstn_skipn.
  - apply StronglySorted_inv in Hc. destruct Hc as [Hc Ha].
    apply Forall_cons_iff in Hb. destruct Hb as [Hab Hb].
    cbn [fold_left allocate]. unfold presidio_replace_result at 2.
    destruct (_generate_token (entity_type a)
                (slice t (start a) (end_ a)) self) as [token self'] eqn:E.
    set (s := Z.to_nat (start a)). set (e := Z.to_nat (end_ a)).
    assert (Hs : start a = Z.of_nat s) by (subst s; lia).
    assert (He : end_ a = Z.of_nat e) by (subst e; lia).
    assert (Hse : s < e <= bound) by lia.
    rewrite Hs, He, splice_in_range by lia.
    assert (HL : Forall (fun r => (0 <= start r < end_ r
                                   /\ end_ r <= Z.of_nat s)%Z) L).
    { rewrite Forall_forall in *. intros r Hr.
      specialize (Hb r Hr). specialize (Ha r Hr). lia. }
    rewrite (IH _ self' s); auto; try lia.
    + rewrite (rewrite_spans_cons snd _ (a, token) t s e bound);
        auto; try lia.
      * rewrite <- !app_assoc. f_equal.
        rewrite skipn_app, length_firstn, Nat.min_l by lia.
        rewrite Nat.sub_diag. cbn [skipn].
        rewrite skipn_all2 by (rewrite length_firstn; lia).
        cbn [app snd]. f_equal.
        rewrite <- (firstn_skipn bound cur) at 1.
        rewrite skipn_app, Hcur, skipn_firstn_comm.
        rewrite length_firstn, Nat.min_l by lia.
        replace (e - bound) with 0 by lia. reflexivity.
      * apply (allocate_forall
                 (fun r => (start r < end_ r <= Z.of_nat s)%Z)).
        rewrite Forall_forall in *. intros r Hr. specialize (HL r Hr). lia.
    + rewrite length_app, length_firstn. lia.
    + rewrite firstn_app, length_firstn, Nat.min_l by lia.
      rewrite Nat.sub_diag. cbn [firstn]. rewrite app_nil_r.
      rewrite firstn_firstn, Nat.min_id.
      rewrite <- (Nat.min_l s bound) by lia.
      rewrite <- !firstn_firstn, Hcur. reflexivity.
Qed.

Lemma sorted_results_in_bounds (t : text) (results : list RecognizerResult) :
  forallb (result_in_bounds t) results = true ->
  Forall (fun r => (0 <= start r < end_ r
                    /\ end_ r <= Z.of_nat (length t))%Z) (sort_desc results).
Proof.
  intros H. rewrite <- (forallb_sort_desc (result_in_bounds t)) in H.
  rewrite forallb_forall in H. apply Forall_forall. intros r Hr.
  specialize (H r Hr). apply in_bounds_iff in H. lia.
Qed.

Lemma presidio_loop_simultaneous (t : text) (results : list RecognizerResult)
    (self : Fields) :
  forallb (result_in_bounds t) results = true ->
  pairwise_disjoint results = true ->
  fst (fold_left (presidio_replace_result t) (sort_desc results) (t, self))
  = replace_simultaneously (allocate (sort_desc results) t self) t.
Proof.
  intros Hb Hd.
  rewrite (presidio_loop_text t _ t self (length t)); auto.
  - rewrite firstn_all, skipn_all. apply app_nil_r.
  - now apply (sort_desc_chain t).
  - now apply sorted_results_in_bounds.
Qed.

Section SinglePass.

Variable analyze : text -> option (list RecognizerResult).
Variable finditer : string -> text -> list Match.

(** C4.  [_tokenize_with_presidio] sorts the spans by start offset, highest
    first, and replaces them one after the other in that order; when the
    spans are in bounds and pairwise non-overlapping, the text this
    produces is exactly the original text with every span's slice replaced
    at once by the token allocated to that span. *)
Theorem presidio_rewrite_is_simultaneous (t : text)
    (results : list RecognizerResult) (self : Fields) :
  analyze t = Some results ->
  forallb (result_in_bounds t) results = true ->
  pairwise_disjoint results = true ->
  let sorted := sort_desc results in
  let assigned := allocate sorted t (log_event (AnalyzerCall t) self) in
  Permutation results sorted /\
  descending sorted /\
  fst (_tokenize_with_presidio analyze finditer t self)
  = replace_simultaneously assigned t.
Proof.
  intros Ha Hb Hd sorted assigned.
  split; [apply sort_desc_perm|]. split; [apply sort_desc_descending|].
  unfold _tokenize_with_presidio. rewrite Ha.
  now apply presidio_loop_simultaneous.
Qed.

End SinglePass.

Lemma presidio_rewrite_is_simultaneous_witness :
  let t := str "Contact alice@company.com and bob@company.com for details" in
  let results := [mkResult 8 25 (str "EMAIL_ADDRESS");
                  mkResult 30 45 (str "EMAIL_ADDRESS")] in
  let cleared := {| token_mapping := []; token_counters := []; trace := [] |} in
  fst (_tokenize_with_presidio (fun _ => Some results) Re.finditer t cleared)
  = str "Contact [PII_EMAIL_ADDRESS_2] and [PII_EMAIL_ADDRESS_1] for details"
  /\ fst (_tokenize_with_presidio (fun _ => Some results) Re.finditer t cleared)
     = replace_simultaneously
         (allocate (sort_desc results) t (log_event (AnalyzerCall t) cleared))
         t.
Proof.
  intros t results cleared. split; [reflexivity|].
  apply (presidio_rewrite_is_simultaneous (fun _ => Some results) Re.finditer
           t results cleared); reflexivity.
Defined.

(** ** Detokenizing a tokenized document *)

Lemma tokenized_document_restore (k v : text) (ps : list piece) :
  no_open_bracket v = true -> tokenized_document ps = true ->
  tokenized_document (map (restore_piece k v) ps) = true.
Proof.
  intros Hv. unfold tokenized_document.
  induction ps as [|p ps IH]; simpl; auto.
  rewrite !andb_true_iff. intros [Hp Hps]. split; auto.
  destruct p as [s|t]; simpl; auto.
  destruct (text_eqb k t); auto.
Qed.

(** One replacement acts piece by piece. *)
Lemma str_replace_pieces (k v : text) (ps : list piece) :
  bracketed k = true -> tokenized_document ps = true ->
  str_replace (render_all ps) k v = render_all (map (restore_piece k v) ps).
Proof.
  intros Hk. pose proof (bracketed_nonempty k Hk) as Hk0.
  unfold tokenized_document, render_all.
  induction ps as [|p ps IH]; cbn [forallb flat_map map].
  - intros _. now apply str_replace_nil.
  - rewrite andb_true_iff. intros [Hp Hps]. specialize (IH Hps).
    destruct p as [s|t]; cbn [render restore_piece piece_ok] in *.
    + rewrite str_replace_plain by auto. now rewrite IH.
    + destruct (text_eqb k t) eqn:E.
      * apply text_eqb_eq in E. subst t. cbn [render].
        rewrite str_replace_hit by auto. now rewrite IH.
      * apply text_eqb_neq in E. cbn [render].
        rewrite str_replace_other_token by auto. now rewrite IH.
Qed.

Lemma resolve_cons (k v : text) (mapping : Dict text) (p : piece) :
  resolve mapping (restore_piece k v p) = resolve ((k, v) :: mapping) p.
Proof.
  destruct p as [s|t]; simpl; auto.
  destruct (text_eqb k t); reflexivity.
Qed.

(** The whole mapping acts piece by piece: a placeholder becomes the value
    stored under it, if any. *)
Lemma detokenize_pieces (mapping : Dict text) (ps : list piece) :
  forallb bracketed (keys mapping) = true ->
  forallb no_open_bracket (values mapping) = true ->
  tokenized_document ps = true ->
  detokenize_text (render_all ps) mapping
  = render_all (map (resolve mapping) ps).
Proof.
  revert ps. induction mapping as [|[k v] M IH]; intros ps Hk Hv Hps.
  - simpl. f_equal. rewrite <- (map_id ps) at 1. apply map_ext.
    intros [s|t]; reflexivity.
  - simpl in Hk, Hv. apply andb_true_iff in Hk, Hv.
    destruct Hk as [Hk HkM], Hv as [Hv HvM].
    unfold detokenize_text in *. cbn [fold_left fst snd].
    rewrite str_replace_pieces by auto.
    rewrite IH; auto using tokenized_document_restore.
    rewrite map_map. f_equal. apply map_ext. intros p. apply resolve_cons.
Qed.

Lemma dict_get_in {V} (d : Dict V) (k : text) (v : V) :
  NoDup (keys d) -> (dict_get d k = Some v <-> In (k, v) d).
Proof.
  induction d as [|[k0 v0] d IH]; simpl; intros Hnd.
  - split; [discriminate | tauto].
  - apply NoDup_cons_iff in Hnd. destruct Hnd as [Hk0 Hnd].
    destruct (text_eqb k0 k) eqn:E.
    + apply text_eqb_eq in E. subst k0. split.
      * intros H. injection H as ->. auto.
      * intros [H|H]; [injection H as ->; reflexivity|].
        exfalso. apply Hk0. unfold keys. apply in_map_iff.
        exists (k, v). auto.
    + apply text_eqb_neq in E. rewrite IH by auto. split; auto.
      intros [H|H]; auto. injection H as -> ->. congruence.
Qed.

(** A dict lookup does not depend on the order of the entries. *)
Lemma dict_get_permutation {V} (d d' : Dict V) (k : text) :
  NoDup (keys d) -> Permutation d d' -> dict_get d k = dict_get d' k.
Proof.
  intros Hnd Hp.
  assert (Hnd' : NoDup (keys d')).
  { eapply Permutation_NoDup; [|exact Hnd]. now apply Permutation_map. }
  destruct (dict_get d k) as [v|] eqn:E.
  - apply dict_get_in in E; auto. symmetry. apply dict_get_in; auto.
    eapply Permutation_in; eauto.
  - symmetry. apply dict_get_none. apply dict_get_none in E.
    intros Hin. apply E. eapply Permutation_in; [|exact Hin].
    apply Permutation_map. now apply Permutation_sym.
Qed.

Lemma forallb_permutation {A} (p : A -> bool) (l l' : list A) :
  Permutation l l' -> forallb p l = true -> forallb p l' = true.
Proof.
  intros Hp. rewrite !forallb_forall. intros H x Hx. apply H.
  eapply Permutation_in; [|exact Hx]. now apply Permutation_sym.
Qed.

(** C5, as the code has it.  On a tokenized document (prose without ['[']
    interleaved with bracketed tokens), with a mapping whose keys are
    distinct bracketed tokens and whose values hold no ['['], the result of
    [detokenize_text] is the same for every order of the entries. *)
Theorem detokenize_order_independent (ps : list piece)
    (mapping permuted : Dict text) :
  tokenized_document ps = true ->
  forallb bracketed (keys mapping) = true ->
  forallb no_open_bracket (values mapping) = true ->
  NoDup (keys mapping) ->
  Permutation mapping permuted ->
  detokenize_text (render_all ps) permuted
  = detokenize_text (render_all ps) mapping.
Proof.
  intros Hps Hk Hv Hnd Hp.
  rewrite !detokenize_pieces; auto.
  - f_equal. apply map_ext. intros [s|t]; simpl; auto.
    now rewrite (dict_get_permutation mapping permuted t).
  - eapply forallb_permutation; [|exact Hk]. now apply Permutation_map.
  - eapply forallb_permutation; [|exact Hv]. now apply Permutation_map.
Qed.

Lemma detokenize_order_independent_witness :
  let ps := [Plain (str "Contact "); Tok (str "[PII_PERSON_1]");
             Plain (str " at "); Tok (str "[PII_EMAIL_1]");
             Plain (str " or "); Tok (str "[PII_PHONE_1]")] in
  let mapping := [(str "[PII_PERSON_1]", str "John Doe");
                  (str "[PII_EMAIL_1]", str "john@example.com")] in
  render_all ps
  = str "Contact [PII_PERSON_1] at [PII_EMAIL_1] or [PII_PHONE_1]" /\
  detokenize_text (render_all ps) (rev mapping)
  = detokenize_text (render_all ps) mapping.
Proof.
  intros ps mapping. split; [reflexivity|].
  apply detokenize_order_independent; try reflexivity.
  - repeat constructor; simpl; intuition discriminate.
  - apply Permutation_rev.
Defined.

(** The mapping of an actual run of the fallback on a URL with an IP
    address in it: applied in insertion order and in the opposite order it
    gives two different texts. *)
Lemma detokenize_order_matters :
  let hh := PIIHandler_init false [] in
  let r := tokenize_text (fun _ => None) Re.finditer (fst hh)
             (str "see https://1.2.3.4/x now") (snd hh) in
  tokenized_text r = str "see [PII_URL_1] now" /\
  returned_mapping r
  = [(str "[PII_IP_ADDRESS_1]", str "1.2.3.4");
     (str "[PII_URL_1]", str "https://[PII_IP_ADDRESS_1]/x")] /\
  Permutation (returned_mapping r) (rev (returned_mapping r)) /\
  detokenize_text (tokenized_text r) (returned_mapping r)
  = str "see https://[PII_IP_ADDRESS_1]/x now" /\
  detokenize_text (tokenized_text r) (rev (returned_mapping r))
  = str "see https://1.2.3.4/x now" /\
  detokenize_text (tokenized_text r) (returned_mapping r)
  <> detokenize_text (tokenized_text r) (rev (returned_mapping r)).
Proof.
  intros hh r.
  split; [reflexivity|]. split; [reflexivity|].
  split; [apply Permutation_rev|].
  split; [reflexivity|]. split; [reflexivity|]. discriminate.
Qed.

(** ** The primary path, piece by piece *)

Lemma digit_not_bracket (c : ascii) :
  is_decimal_digit c = true ->
  negb (is_open_bracket c || is_close_bracket c) = true.
Proof.
  intros H. unfold is_open_bracket, is_close_bracket.
  destruct (ascii_eqb c "[") eqn:E1.
  - apply ascii_eqb_eq in E1. subst c. discriminate.
  - destruct (ascii_eqb c "]") eqn:E2; auto.
    apply ascii_eqb_eq in E2. subst c. discriminate.
Qed.

Lemma decimal_bracket_free (n : nat) : bracket_free (decimal n) = true.
Proof.
  unfold bracket_free. apply forallb_forall. intros c Hc.
  apply digit_not_bracket.
  pose proof (decimal_digits n) as H. rewrite forallb_forall in H. auto.
Qed.

Lemma token_text_bracketed (ty : text) (n : nat) :
  bracket_free ty = true -> bracketed (token_text ty n) = true.
Proof.
  intros Hty. unfold token_text.
  change (str "[PII_" ++ ty ++ str "_" ++ decimal n ++ str "]")
    with ("["%char :: str "PII_" ++ ty ++ str "_" ++ decimal n ++ ["]"%char]).
  replace (str "PII_" ++ ty ++ str "_" ++ decimal n ++ ["]"%char])
    with ((str "PII_" ++ ty ++ str "_" ++ decimal n) ++ ["]"%char])
    by (now rewrite <- !app_assoc).
  apply bracketed_intro.
  rewrite !bracket_free_app, Hty, decimal_bracket_free. reflexivity.
Qed.

(** Every token of the documented grammar, [[PII_<CATEGORY>_<N>]] with
    [CATEGORY] in [[A-Z0-9_]+], is a bracketed token. *)
Lemma grammar_token_bracketed (category : text) (n : nat) :
  category_grammar category = true ->
  bracketed (token_text category n) = true.
Proof.
  intros H. apply token_text_bracketed.
  destruct category as [|c category]; [discriminate|].
  unfold category_grammar in H. unfold bracket_free.
  rewrite forallb_forall in *. intros x Hx. specialize (H x Hx).
  unfold is_open_bracket, is_close_bracket.
  destruct (ascii_eqb x "[") eqn:E1.
  - apply ascii_eqb_eq in E1. subst x. discriminate.
  - destruct (ascii_eqb x "]") eqn:E2; auto.
    apply ascii_eqb_eq in E2. subst x. discriminate.
Qed.

Lemma allocate_tokens_bracketed (L : list RecognizerResult) (t : text)
    (self : Fields) :
  forallb (fun r => bracket_free (entity_type r)) L = true ->
  Forall (fun a => bracketed (snd a) = true) (allocate L t self).
Proof.
  revert self. induction L as [|r L IH]; intros self H; cbn [allocate].
  - constructor.
  - simpl in H. apply andb_true_iff in H. destruct H as [Hr HL].
    destruct (_generate_token (entity_type r)
                (slice t (start r) (end_ r)) self) as [token self'] eqn:E.
    constructor; auto. cbn [snd].
    change token with (fst (token, self')). rewrite <- E.
    rewrite generate_token_fst. now apply token_text_bracketed.
Qed.

(** The mapping after the loop: one entry per span, in the order of the
    loop, after what was there before. *)
Lemma presidio_loop_mapping (t : text) (L : list RecognizerResult) :
  forall (cur : text) (self : Fields),
    session_inv self ->
    token_mapping (snd (fold_left (presidio_replace_result t) L (cur, self)))
    = token_mapping self ++ map (span_entry t) (allocate L t self).
Proof.
  induction L as [|a L IH]; intros cur self Hinv.
  - simpl. now rewrite app_nil_r.
  - cbn [fold_left allocate]. unfold presidio_replace_result at 2.
    pose proof (generate_token_fresh (entity_type a)
                  (slice t (start a) (end_ a)) self Hinv) as Hfresh.
    pose proof (session_inv_generate (entity_type a)
                  (slice t (start a) (end_ a)) self Hinv) as Hinv'.
    pose proof (generate_token_mapping (entity_type a)
                  (slice t (start a) (end_ a)) self) as Hmap.
    destruct (_generate_token (entity_type a)
                (slice t (start a) (end_ a)) self) as [token self'] eqn:E.
    cbn [fst snd] in *. rewrite IH by auto.
    rewrite Hmap, dict_set_fresh by auto.
    rewrite <- app_assoc. reflexivity.
Qed.

Lemma render_pieces_of (A : list (RecognizerResult * text)) (i : nat)
    (t : text) :
  render_all (pieces_of A i t) = rewrite_spans snd A i t.
Proof.
  revert i. induction t as [|c t IH]; intros i; simpl; auto.
  unfold render_all in *. rewrite IH. f_equal.
  unfold piece_at, rewrite_at. destruct (find (starts_at i) A); reflexivity.
Qed.

Lemma pieces_of_ok (A : list (RecognizerResult * text)) (i : nat) (t : text) :
  Forall (fun a => bracketed (snd a) = true) A ->
  no_open_bracket t = true ->
  tokenized_document (pieces_of A i t) = true.
Proof.
  intros HA. revert i. unfold tokenized_document.
  induction t as [|c t IH]; intros i Ht; simpl; auto.
  simpl in Ht. apply andb_true_iff in Ht. destruct Ht as [Hc Ht].
  rewrite IH by auto. rewrite andb_true_r.
  unfold piece_at. destruct (find (starts_at i) A) as [a|] eqn:E; simpl.
  - apply find_some in E. destruct E as [Hin _].
    rewrite Forall_forall in HA. now apply HA.
  - destruct (existsb (covers i) A); simpl; auto. now rewrite Hc.
Qed.

(** Resolving the pieces against the mapping of the run writes every
    span's original value where its token stands. *)
Lemma resolve_pieces_of (A : list (RecognizerResult * text)) (t : text)
    (i : nat) (x : text) :
  NoDup (map snd A) ->
  render_all (map (resolve (map (span_entry t) A)) (pieces_of A i x))
  = rewrite_spans (span_value t) A i x.
Proof.
  intros Hnd. revert i. induction x as [|c x IH]; intros i; simpl; auto.
  unfold render_all in *. rewrite IH. f_equal.
  unfold piece_at, rewrite_at.
  destruct (find (starts_at i) A) as [a|] eqn:E; simpl; auto.
  apply find_some in E. destruct E as [Hin _].
  assert (Hget : dict_get (map (span_entry t) A) (snd a)
                 = Some (span_value t a)).
  { apply dict_get_in.
    - unfold keys. rewrite map_map. exact Hnd.
    - change (snd a, span_value t a) with (span_entry t a).
      now apply in_map. }
  now rewrite Hget.
Qed.

Lemma firstn_three (t : text) (s e bound : nat) :
  s <= e -> e <= bound ->
  firstn bound t
  = firstn s t ++ firstn (e - s) (skipn s t) ++ firstn (bound - e) (skipn e t).
Proof.
  intros Hse Heb.
  rewrite <- (firstn_skipn s (firstn bound t)) at 1.
  rewrite firstn_firstn, Nat.min_l by lia. f_equal.
  rewrite skipn_firstn_comm.
  rewrite <- (firstn_skipn (e - s) (firstn (bound - s) (skipn s t))) at 1.
  rewrite firstn_firstn, Nat.min_l by lia. f_equal.
  rewrite skipn_firstn_comm, skipn_skipn.
  replace (e - s + s) with e by lia.
  replace (bound - s - (e - s)) with (bound - e) by lia. reflexivity.
Qed.

(** Writing every span's own slice back gives the original text. *)
Lemma rewrite_spans_values (t : text) (L : list RecognizerResult) :
  forall (self : Fields) (bound : nat),
    chain L ->
    Forall (fun r => (0 <= start r < end_ r /\ end_ r <= Z.of_nat bound)%Z) L ->
    bound <= length t ->
    rewrite_spans (span_value t) (allocate L t self) 0 (firstn bound t)
    = firstn bound t.
Proof.
  induction L as [|a L IH]; intros self bound Hc Hb Hbt.
  - simpl. now apply rewrite_spans_copy.
  - apply StronglySorted_inv in Hc. destruct Hc as [Hc Ha].
    apply Forall_cons_iff in Hb. destruct Hb as [Hab Hb].
    cbn [allocate].
    destruct (_generate_token (entity_type a)
                (slice t (start a) (end_ a)) self) as [token self'] eqn:E.
    set (s := Z.to_nat (start a)). set (e := Z.to_nat (end_ a)).
    assert (Hs : start a = Z.of_nat s) by (subst s; lia).
    assert (He : end_ a = Z.of_nat e) by (subst e; lia).
    assert (HL : Forall (fun r => (0 <= start r < end_ r
                                   /\ end_ r <= Z.of_nat s)%Z) L).
    { rewrite Forall_forall in *. intros r Hr.
      specialize (Hb r Hr). specialize (Ha r Hr). lia. }
    rewrite (rewrite_spans_cons _ _ (a, token) t s e bound); auto; try lia.
    + rewrite IH by (auto; lia).
      unfold span_value. cbn [fst]. rewrite Hs, He.
      rewrite slice_in_range by lia.
      symmetry. apply firstn_three; lia.
    + apply (allocate_forall (fun r => (start r < end_ r <= Z.of_nat s)%Z)).
      rewrite Forall_forall in *. intros r Hr. specialize (HL r Hr). lia.
Qed.

Lemma forallb_firstn {A} (p : A -> bool) (n : nat) (l : list A) :
  forallb p l = true -> forallb p (firstn n l) = true.
Proof.
  revert n. induction l as [|x l IH]; intros [|n]; simpl; auto.
  rewrite !andb_true_iff. intros [H1 H2]. auto.
Qed.

Lemma forallb_skipn {A} (p : A -> bool) (n : nat) (l : list A) :
  forallb p l = true -> forallb p (skipn n l) = true.
Proof.
  revert n. induction l as [|x l IH]; intros [|n]; simpl; auto.
  rewrite !andb_true_iff. intros [H1 H2]. auto.
Qed.

Lemma forallb_slice (p : ascii -> bool) (t : text) (a b : Z) :
  forallb p t = true -> forallb p (slice t a b) = true.
Proof.
  intros H. unfold slice. now apply forallb_firstn, forallb_skipn.
Qed.

Section PrimaryPath.

Variable analyze : text -> option (list RecognizerResult).
Variable finditer : string -> text -> list Match.

(** What a run of the primary path produces, for well-behaved spans: the
    text is the rendering of the pieces of the simultaneous rewrite, the
    mapping has one entry per span, the tokens are distinct and bracketed. *)
Lemma presidio_run_shape (t : text) (results : list RecognizerResult) :
  analyze t = Some results ->
  forallb (result_in_bounds t) results = true ->
  pairwise_disjoint results = true ->
  forallb (fun r => bracket_free (entity_type r)) results = true ->
  let cleared := {| token_mapping := []; token_counters := []; trace := [] |} in
  let A := allocate (sort_desc results) t (log_event (AnalyzerCall t) cleared) in
  let run := _tokenize_with_presidio analyze finditer t cleared in
  fst run = render_all (pieces_of A 0 t) /\
  token_mapping (snd run) = map (span_entry t) A /\
  NoDup (map snd A) /\
  Forall (fun a => bracketed (snd a) = true) A.
Proof.
  intros Ha Hb Hd Hty cleared A run.
  assert (Hinv0 : session_inv (log_event (AnalyzerCall t) cleared)).
  { apply session_inv_log; simpl; auto. apply session_inv_cleared. }
  assert (Hmap : token_mapping (snd run) = map (span_entry t) A).
  { subst run. unfold _tokenize_with_presidio. rewrite Ha.
    now rewrite presidio_loop_mapping. }
  split; [|split; [exact Hmap|split]].
  - subst run. unfold _tokenize_with_presidio. rewrite Ha.
    rewrite presidio_loop_simultaneous by auto.
    now rewrite render_pieces_of.
  - pose proof (presidio_session_inv analyze finditer t cleared
                  session_inv_cleared) as (_ & Hnd & _).
    fold run in Hnd. rewrite Hmap in Hnd.
    unfold keys in Hnd. now rewrite map_map in Hnd.
  - apply allocate_tokens_bracketed.
    now rewrite forallb_sort_desc.
Qed.

(** The primary path restores the text when the spans are in bounds and
    pairwise non-overlapping, with labels free of brackets, over a text
    that holds no ['[']. *)
Lemma primary_round_trip (self : PIIHandler) (t : text) (heap : Heap)
    (results : list RecognizerResult) :
  use_presidio self = true ->
  analyze t = Some results ->
  forallb (result_in_bounds t) results = true ->
  pairwise_disjoint results = true ->
  forallb (fun r => bracket_free (entity_type r)) results = true ->
  no_open_bracket t = true ->
  let r := tokenize_text analyze finditer self t heap in
  detokenize_text (tokenized_text r) (returned_mapping r) = t.
Proof.
  intros Hp Ha Hb Hd Hty Ht r.
  destruct (tokenize_text_fields analyze finditer self t heap)
    as (Htok & _ & _ & _ & _ & _ & Hret).
  fold r in Htok, Hret. rewrite Htok, Hret, Hp.
  destruct (presidio_run_shape t results Ha Hb Hd Hty)
    as (Hfst & Hmap & Hnd & Hbr).
  rewrite Hfst, Hmap.
  set (A := allocate (sort_desc results) t
              (log_event (AnalyzerCall t)
                 {| token_mapping := []; token_counters := []; trace := [] |}))
    in *.
  rewrite detokenize_pieces.
  - rewrite resolve_pieces_of by exact Hnd.
    pose proof (rewrite_spans_values t (sort_desc results)
                  (log_event (AnalyzerCall t)
                     {| token_mapping := []; token_counters := [];
                        trace := [] |}) (length t)) as H.
    rewrite firstn_all in H. apply H; auto.
    + now apply (sort_desc_chain t).
    + now apply sorted_results_in_bounds.
  - unfold keys. rewrite map_map. apply forallb_forall.
    intros k Hk. apply in_map_iff in Hk. destruct Hk as (a & <- & Hin).
    rewrite Forall_forall in Hbr. now apply Hbr.
  - unfold values. rewrite map_map. apply forallb_forall.
    intros v Hv. apply in_map_iff in Hv. destruct Hv as (a & <- & Hin).
    cbn [snd span_entry]. unfold span_value. now apply forallb_slice.
  - now apply pieces_of_ok.
Qed.

End PrimaryPath.

(** ** Where a stored value can still be read *)



















Section Leakage.

Variable analyze : text -> option (list RecognizerResult).
Variable finditer : string -> text -> list Match.



End Leakage.

(** ** Documents in alternating form *)

Lemma unclosed_app (a b : text) (opened : bool) :
  unclosed opened (a ++ b) = unclosed (unclosed opened a) b.
Proof.
  revert opened. induction a as [|c a IH]; intros opened; simpl; auto.
  destruct (is_open_bracket c); [apply IH|].
  destruct (is_close_bracket c); apply IH.
Qed.

Lemma unclosed_no_open (s : text) :
  no_open_bracket s = true -> unclosed false s = false.
Proof.
  induction s as [|c s IH]; simpl; auto.
  rewrite andb_true_iff. intros [Hc Hs].
  apply negb_true_iff in Hc. rewrite Hc.
  destruct (is_close_bracket c); auto.
Qed.

Lemma unclosed_bracket_free (s : text) (opened : bool) :
  bracket_free s = true -> unclosed opened s = opened.
Proof.
  induction s as [|c s IH]; simpl; auto.
  rewrite andb_true_iff. intros [Hc Hs].
  apply negb_true_iff, orb_false_iff in Hc. destruct Hc as [-> ->]. auto.
Qed.

Lemma unclosed_token (t : text) (opened : bool) :
  bracketed t = true -> unclosed opened t = false.
Proof.
  intros H. apply bracketed_inv in H. destruct H as (body & -> & Hb).
  cbn [unclosed]. change (is_open_bracket "[") with true. cbn iota.
  rewrite unclosed_app, (unclosed_bracket_free body) by auto. reflexivity.
Qed.

(** After a proper, non-empty part of a token the bracket is still open. *)
Lemma unclosed_inside_token (t x y : text) (opened : bool) :
  bracketed t = true -> t = x ++ y -> x <> [] -> y <> [] ->
  unclosed opened x = true.
Proof.
  intros H E Hx Hy. apply bracketed_inv in H. destruct H as (body & -> & Hb).
  destruct x as [|c x]; [congruence|]. simpl in E. injection E as <- E.
  cbn [unclosed]. change (is_open_bracket "[") with true. cbn iota.
  apply app_eq_app in E. destruct E as [l [[E1 E2]|[E1 E2]]].
  - subst body. rewrite bracket_free_app in Hb.
    apply andb_true_iff in Hb. destruct Hb as [Hb _].
    now apply unclosed_bracket_free.
  - destruct l as [|d l].
    + rewrite app_nil_r in E1. subst x. now apply unclosed_bracket_free.
    + simpl in E2. injection E2 as <- E2.
      destruct l; [|discriminate]. simpl in E2. congruence.
Qed.

Lemma doc_pieces_render (s0 : text) (l : list (text * text)) :
  render_all (doc_pieces s0 l) = s0 ++ doc_body l.
Proof.
  unfold doc_pieces, render_all, doc_body. cbn [flat_map render]. f_equal.
  induction l as [|[t s] l IH]; simpl; auto.
  rewrite IH. now rewrite app_assoc.
Qed.

Lemma doc_pieces_ok (s0 : text) (l : list (text * text)) :
  doc_ok s0 l = true -> tokenized_document (doc_pieces s0 l) = true.
Proof.
  unfold doc_ok, tokenized_document, doc_pieces. cbn [forallb piece_ok].
  rewrite !andb_true_iff. intros [H0 Hl]. split; auto.
  induction l as [|[t s] l IH]; simpl in *; auto.
  apply andb_true_iff in Hl. destruct Hl as [Hts Hl].
  apply andb_true_iff in Hts. destruct Hts as [Ht Hs].
  rewrite Ht, Hs. simpl. auto.
Qed.

Lemma doc_pieces_resolve (mapping : Dict text) (s0 : text)
    (l : list (text * text)) :
  render_all (map (resolve mapping) (doc_pieces s0 l))
  = s0 ++ doc_restored mapping l.
Proof.
  unfold doc_pieces, render_all, doc_restored.
  cbn [map flat_map resolve render]. f_equal.
  induction l as [|[t s] l IH]; auto.
  cbn [flat_map map app fst snd]. rewrite IH.
  cbn [resolve render]. rewrite <- app_assoc. f_equal.
  unfold value_of. destruct (dict_get mapping t); reflexivity.
Qed.

Lemma dict_get_app_fresh {V} (d : Dict V) (k k' : text) (v : V) :
  k <> k' -> dict_get (d ++ [(k, v)]) k' = dict_get d k'.
Proof.
  intros Hne. induction d as [|[k0 v0] d IH]; simpl.
  - apply text_eqb_neq in Hne. now rewrite Hne.
  - destruct (text_eqb k0 k'); auto.
Qed.

Lemma dict_get_app_new {V} (d : Dict V) (k : text) (v : V) :
  ~ In k (keys d) -> dict_get (d ++ [(k, v)]) k = Some v.
Proof.
  induction d as [|[k0 v0] d IH]; simpl; intros H.
  - now rewrite text_eqb_refl.
  - destruct (text_eqb k0 k) eqn:E.
    + apply text_eqb_eq in E. tauto.
    + apply IH. tauto.
Qed.

Lemma doc_restored_app_fresh (mapping : Dict text) (tok v : text)
    (l : list (text * text)) :
  ~ In tok (map fst l) ->
  doc_restored (mapping ++ [(tok, v)]) l = doc_restored mapping l.
Proof.
  unfold doc_restored. induction l as [|[t s] l IH]; simpl; intros H; auto.
  rewrite IH by tauto. f_equal. f_equal. unfold value_of.
  rewrite dict_get_app_fresh; auto.
Qed.

Lemma doc_body_cons (t s : text) (l : list (text * text)) :
  doc_body ((t, s) :: l) = t ++ s ++ doc_body l.
Proof. unfold doc_body. simpl. now rewrite <- app_assoc. Qed.

Lemma doc_restored_cons (mapping : Dict text) (t s : text)
    (l : list (text * text)) :
  doc_restored mapping ((t, s) :: l)
  = value_of mapping t ++ s ++ doc_restored mapping l.
Proof. unfold doc_restored. simpl. now rewrite <- app_assoc. Qed.

Lemma doc_ok_cons (s0 t s : text) (l : list (text * text)) :
  doc_ok s0 ((t, s) :: l)
  = no_open_bracket s0 && (bracketed t && doc_ok s l).
Proof. unfold doc_ok. simpl. now rewrite <- !andb_assoc. Qed.

Lemma doc_ok_nil (s0 : text) : doc_ok s0 [] = no_open_bracket s0.
Proof. unfold doc_ok. simpl. apply andb_true_r. Qed.

(** Replacing a stretch of prose by a new token keeps the document in
    alternating form, and the enlarged mapping restores the same text. *)
Lemma doc_replace_match (tok v : text) (mapping : Dict text) :
  bracketed tok = true -> v <> [] -> no_open_bracket v = true ->
  ~ In tok (keys mapping) ->
  forall (l : list (text * text)) (s0 pre post : text),
    doc_ok s0 l = true ->
    ~ In tok (map fst l) ->
    s0 ++ doc_body l = pre ++ v ++ post ->
    unclosed false pre = false ->
    exists s0' l',
      s0' ++ doc_body l' = pre ++ tok ++ post /\
      doc_ok s0' l' = true /\
      (forall k, In k (map fst l') -> k = tok \/ In k (map fst l)) /\
      s0' ++ doc_restored (mapping ++ [(tok, v)]) l'
      = s0 ++ doc_restored mapping l /\
      In tok (map fst l') /\
      (forall k, In k (map fst l) -> In k (map fst l')).
Proof.
  intros Htok Hv Hvo Hfresh.
  assert (Hnew_value : value_of (mapping ++ [(tok, v)]) tok = v).
  { unfold value_of. now rewrite dict_get_app_new. }
  assert (Hold_value : forall k, k <> tok ->
            value_of (mapping ++ [(tok, v)]) k = value_of mapping k).
  { intros k Hk. unfold value_of. rewrite dict_get_app_fresh; auto. }
  assert (Hinside : forall s post l,
            doc_ok s l = true -> ~ In tok (map fst l) ->
            s ++ doc_body l = v ++ post ->
            exists y, s = v ++ y /\ post = y ++ doc_body l).
  { (* a match that starts in prose ends in it *)
    intros s post l Hok Hnew E.
    apply app_eq_app in E. destruct E as [y [[E1 E2]|[E1 E2]]]; eauto.
    destruct y as [|c y].
    - exists []. rewrite app_nil_r in *. simpl in E2. auto.
    - exfalso. destruct l as [|[t1 s1] l].
      + simpl in E2. discriminate.
      + rewrite doc_ok_cons in Hok.
        apply andb_true_iff in Hok. destruct Hok as [_ Hok].
        apply andb_true_iff in Hok. destruct Hok as [Ht1 _].
        apply bracketed_inv in Ht1. destruct Ht1 as (body1 & -> & _).
        rewrite doc_body_cons in E2. simpl in E2. injection E2 as <- _.
        subst v. rewrite no_open_bracket_app in Hvo.
        apply andb_true_iff in Hvo. destruct Hvo as [_ Hvo].
        simpl in Hvo. discriminate. }
  induction l as [|[t1 s1] l IH]; intros s0 pre post Hok Hnew E Hpre.
  - (* prose only *)
    rewrite doc_ok_nil in Hok.
    simpl in E. rewrite app_nil_r in E. subst s0.
    rewrite !no_open_bracket_app in Hok.
    apply andb_true_iff in Hok. destruct Hok as [H1 Hok].
    apply andb_true_iff in Hok. destruct Hok as [_ H3].
    exists pre, [(tok, post)]. repeat split.
    + rewrite doc_body_cons. simpl. now rewrite app_nil_r.
    + rewrite doc_ok_cons, doc_ok_nil. now rewrite H1, Htok, H3.
    + simpl. intros k [<-|[]]. auto.
    + rewrite doc_restored_cons, Hnew_value. simpl.
      now rewrite !app_nil_r.
    + left. reflexivity.
    + intros k [].
  - pose proof Hok as Hok'. rewrite doc_ok_cons in Hok'.
    apply andb_true_iff in Hok'. destruct Hok' as [H0 Hok'].
    apply andb_true_iff in Hok'. destruct Hok' as [Ht1 Hok1].
    assert (Hne1 : t1 <> tok)
      by (intros ->; apply Hnew; left; reflexivity).
    assert (Hnew1 : ~ In tok (map fst l))
      by (intros Hin; apply Hnew; right; exact Hin).
    rewrite doc_body_cons in E.
    apply app_eq_app in E. destruct E as [x [[E1 E2]|[E1 E2]]].
    + (* the match starts in the leading prose *)
      symmetry in E2. rewrite <- doc_body_cons in E2.
      assert (Hokx : doc_ok x ((t1, s1) :: l) = true).
      { rewrite doc_ok_cons in *. subst s0.
        rewrite no_open_bracket_app in Hok.
        apply andb_true_iff in Hok. destruct Hok as [Hok _].
        apply andb_true_iff in Hok. destruct Hok as [_ ->].
        now rewrite Ht1, Hok1. }
      destruct (Hinside x post ((t1, s1) :: l) Hokx Hnew E2)
        as (y & -> & ->).
      subst s0. rewrite !no_open_bracket_app in H0.
      apply andb_true_iff in H0. destruct H0 as [Hp H0].
      apply andb_true_iff in H0. destruct H0 as [_ Hy].
      exists pre, ((tok, y) :: (t1, s1) :: l). repeat split.
      * rewrite doc_body_cons. reflexivity.
      * rewrite !doc_ok_cons. now rewrite Hp, Htok, Hy, Ht1, Hok1.
      * intros k [<-|Hk]; auto.
      * rewrite !doc_restored_cons, Hnew_value, (Hold_value t1) by auto.
        rewrite doc_restored_app_fresh by auto.
        now rewrite <- !app_assoc.
      * left. reflexivity.
      * intros k Hk. right. exact Hk.
    + (* the match starts after the leading prose *)
      assert (Hstep : exists y, pre = s0 ++ t1 ++ y /\
                                s1 ++ doc_body l = y ++ v ++ post).
      { destruct x as [|c x].
        - (* exactly at the token: impossible *)
          exfalso. simpl in E2.
          apply bracketed_inv in Ht1. destruct Ht1 as (body1 & -> & _).
          destruct v as [|d v]; [congruence|].
          simpl in E2. injection E2 as <- _. simpl in Hvo. discriminate.
        - apply app_eq_app in E2. destruct E2 as [y [[E3 E4]|[E3 E4]]].
          + destruct y as [|d y].
            * exists []. rewrite app_nil_r in E3. simpl in E4.
              subst pre. rewrite E3. rewrite app_nil_r. auto.
            * (* inside the token: impossible *)
              exfalso. subst pre.
              rewrite unclosed_app, unclosed_no_open in Hpre by auto.
              rewrite (unclosed_inside_token t1 (c :: x) (d :: y) false)
                in Hpre; auto; discriminate.
          + exists y. subst pre. rewrite E3. auto. }
      destruct Hstep as (y & -> & E4).
      destruct (IH s1 y post Hok1 Hnew1 E4)
        as (s0' & l' & R1 & R2 & R3 & R4 & R5 & R6).
      { rewrite !unclosed_app in Hpre.
        rewrite (unclosed_token t1) in Hpre by auto. exact Hpre. }
      exists s0, ((t1, s0') :: l'). repeat split.
      * rewrite doc_body_cons, R1. now rewrite <- !app_assoc.
      * rewrite doc_ok_cons. now rewrite H0, Ht1, R2.
      * intros k [<-|Hk]; [right; left; reflexivity|].
        destruct (R3 k Hk); auto. right. right. assumption.
      * rewrite !doc_restored_cons, (Hold_value t1) by auto.
        now rewrite R4.
      * right. exact R5.
      * intros k [<-|Hk]; [left; reflexivity | right; now apply R6].
Qed.

(** ** The fallback path, pass by pass *)

Lemma run_inv_cleared (t : text) (tr : list Event) :
  no_open_bracket t = true ->
  allocated tr = [] ->
  run_inv t (t, {| token_mapping := []; token_counters := []; trace := tr |}).
Proof.
  intros Ht Htr. unfold run_inv. cbn [fst snd token_mapping].
  split; [|split; [reflexivity|split; [reflexivity|]]].
  - unfold session_inv. cbn [token_mapping trace]. rewrite Htr.
    repeat split; [constructor | intros k []].
  - exists t, []. rewrite doc_ok_nil. simpl. rewrite app_nil_r.
    repeat split; auto; intros k [].
Qed.

Lemma run_inv_log (t : text) (cur : text) (self : Fields) (e : Event) :
  (match e with GeneratedToken _ _ => False | _ => True end) ->
  run_inv t (cur, self) -> run_inv t (cur, log_event e self).
Proof.
  intros He (Hs & Hk & Hv & Hdoc). unfold run_inv. cbn [fst snd] in *.
  split; [now apply session_inv_log|]. auto.
Qed.

(** A clean run restores the text. *)
Lemma run_inv_detokenize (t cur : text) (self : Fields) :
  run_inv t (cur, self) -> detokenize_text cur (token_mapping self) = t.
Proof.
  intros (_ & Hk & Hv & s0 & l & Hcur & Hok & _ & Hres & _).
  cbn [fst snd] in *. rewrite <- Hcur, <- doc_pieces_render.
  rewrite detokenize_pieces; auto using doc_pieces_ok.
  now rewrite doc_pieces_resolve.
Qed.

Lemma forallb_app_one {A} (p : A -> bool) (l : list A) (x : A) :
  forallb p l = true -> p x = true -> forallb p (l ++ [x]) = true.
Proof. intros Hl Hx. rewrite forallb_app, Hl. simpl. now rewrite Hx. Qed.

(** One replacement of a match that lies in prose keeps the invariant. *)
Lemma regex_replace_match_inv (t ty cur : text) (self : Fields) (m : Match)
    (s e : nat) :
  bracket_free ty = true ->
  run_inv t (cur, self) ->
  m_start m = Z.of_nat s -> m_end m = Z.of_nat e ->
  s < e -> e <= length cur ->
  m_group m = firstn (e - s) (skipn s cur) ->
  no_open_bracket (m_group m) = true ->
  unclosed false (firstn s cur) = false ->
  run_inv t (regex_replace_match ty (cur, self) m) /\
  fst (regex_replace_match ty (cur, self) m)
  = firstn s cur ++ fst (_generate_token ty (m_group m) self) ++ skipn e cur.
Proof.
  intros Hty (Hs & Hk & Hv & s0 & l & Hcur & Hok & Hin & Hres & Hall)
         Hms Hme Hse Hec Hg Hgo Hun.
  cbn [fst snd] in *.
  unfold regex_replace_match.
  pose proof (generate_token_fresh ty (m_group m) self Hs) as Hfresh.
  pose proof (session_inv_generate ty (m_group m) self Hs) as Hs'.
  pose proof (generate_token_mapping ty (m_group m) self) as Hmap.
  pose proof (generate_token_fst ty (m_group m) self) as Htok.
  destruct (_generate_token ty (m_group m) self) as [token self'] eqn:E.
  cbn [fst snd] in *.
  rewrite dict_set_fresh in Hmap by auto.
  rewrite Hms, Hme, splice_in_range by lia.
  split; [|reflexivity].
  assert (Hbr : bracketed token = true)
    by (rewrite Htok; now apply token_text_bracketed).
  assert (Hgne : m_group m <> []).
  { rewrite Hg. intros E0. apply (f_equal (@length ascii)) in E0.
    rewrite length_firstn, length_skipn in E0. simpl in E0. lia. }
  assert (Hsplit : s0 ++ doc_body l
                   = firstn s cur ++ m_group m ++ skipn e cur).
  { rewrite Hcur, Hg.
    rewrite <- (firstn_skipn s cur) at 1. f_equal.
    rewrite <- (firstn_skipn (e - s) (skipn s cur)) at 1. f_equal.
    rewrite skipn_skipn. f_equal. lia. }
  destruct (doc_replace_match token (m_group m) (token_mapping self)
              Hbr Hgne Hgo Hfresh l s0 (firstn s cur) (skipn e cur)
              Hok (fun H => Hfresh (Hin _ H)) Hsplit Hun)
    as (s0' & l' & R1 & R2 & R3 & R4 & R5 & R6).
  unfold run_inv. cbn [fst snd]. rewrite Hmap.
  split; [exact Hs'|]. split; [|split].
  - unfold keys. rewrite map_app. apply forallb_app_one; auto.
  - unfold values. rewrite map_app. apply forallb_app_one; auto.
  - exists s0', l'. repeat split; auto.
    + intros k Hk'. unfold keys. rewrite map_app. apply in_or_app.
      destruct (R3 k Hk') as [->|H]; [right; left; reflexivity|].
      left. now apply Hin.
    + now rewrite R4.
    + intros k Hk'. unfold keys in Hk'. rewrite map_app in Hk'.
      apply in_app_or in Hk'. destruct Hk' as [Hk'|[<-|[]]].
      * now apply R6, Hall.
      * exact R5.
Qed.

Lemma match_clean_inv (c0 : text) (m : Match) :
  match_clean c0 m = true ->
  exists s e,
    m_start m = Z.of_nat s /\ m_end m = Z.of_nat e /\
    s < e /\ e <= length c0 /\
    m_group m = firstn (e - s) (skipn s c0) /\
    no_open_bracket (m_group m) = true /\
    unclosed false (firstn s c0) = false.
Proof.
  unfold match_clean, match_in_bounds. rewrite !andb_true_iff.
  intros [[[Hb Hg] Ho] Hu].
  apply in_bounds_iff in Hb. apply text_eqb_eq in Hg.
  apply negb_true_iff in Hu.
  remember (Z.to_nat (m_start m)) as s eqn:Hs.
  remember (Z.to_nat (m_end m)) as e eqn:He.
  assert (Es : m_start m = Z.of_nat s) by lia.
  assert (Ee : m_end m = Z.of_nat e) by lia.
  exists s, e. rewrite Es, Ee in *.
  repeat split; auto; try lia.
  - rewrite Hg. apply slice_in_range; lia.
  - unfold slice_to in Hu.
    rewrite slice_index_in_range in Hu by lia. exact Hu.
Qed.

(** One pass: the matches of one pattern, replaced from the last to the
    first; below the lowest match replaced so far the text is untouched. *)
Lemma regex_pass_inv (t ty c0 : text) (self : Fields) (ms : list Match) :
  bracket_free ty = true ->
  pass_clean c0 ms = true ->
  run_inv t (c0, self) ->
  forall b,
    b <= length c0 ->
    (forall m, In m ms -> (Z.of_nat b <= m_start m)%Z) ->
    let r := fold_right (fun m acc => regex_replace_match ty acc m)
                        (c0, self) ms in
    run_inv t r /\ firstn b (fst r) = firstn b c0 /\ b <= length (fst r).
Proof.
  intros Hty. induction ms as [|m ms IH]; intros Hp Hinv b Hb Hlow.
  - simpl. auto.
  - unfold pass_clean in Hp. cbn [forallb ascending] in Hp.
    apply andb_true_iff in Hp. destruct Hp as [Hp Ha].
    apply andb_true_iff in Hp. destruct Hp as [Hm Hp].
    apply andb_true_iff in Ha. destruct Ha as [Hnext Ha].
    destruct (match_clean_inv c0 m Hm)
      as (s & e & Hs & He & Hse & Hec & Hg & Hgo & Hun).
    assert (Hpass : pass_clean c0 ms = true)
      by (unfold pass_clean; now rewrite Hp, Ha).
    destruct (IH Hpass Hinv e Hec) as (Hr & Hfirst & Hlen).
    { intros m' Hm'. rewrite forallb_forall in Hnext.
      specialize (Hnext m' Hm'). apply Z.leb_le in Hnext. lia. }
    cbn [fold_right].
    set (r := fold_right (fun m0 acc => regex_replace_match ty acc m0)
                         (c0, self) ms) in *.
    destruct r as [cur self'] eqn:Er. cbn [fst snd] in *.
    assert (Hprefix : forall n, n <= e -> firstn n cur = firstn n c0).
    { intros n Hn. rewrite <- (Nat.min_l n e) by lia.
      rewrite <- !firstn_firstn. now rewrite Hfirst. }
    destruct (regex_replace_match_inv t ty cur self' m s e)
      as (Hinv' & Hfst); auto.
    + rewrite Hg. rewrite !firstn_skipn_comm.
      rewrite (Hprefix (s + (e - s))) by lia. reflexivity.
    + rewrite Hprefix by lia. exact Hun.
    + assert (Hbs : b <= s).
      { specialize (Hlow m (or_introl eq_refl)). lia. }
      split; [exact Hinv'|]. rewrite Hfst. split.
      * rewrite firstn_app, length_firstn, Nat.min_l by lia.
        replace (b - s) with 0 by lia. cbn [firstn]. rewrite app_nil_r.
        rewrite firstn_firstn, Nat.min_l by lia. apply Hprefix. lia.
      * rewrite length_app, length_firstn. lia.
Qed.

Section FallbackPath.

Variable finditer : string -> text -> list Match.

Lemma regex_apply_pattern_inv (t : text) (acc : text * Fields)
    (p : string * text) :
  bracket_free (snd p) = true ->
  pass_clean (fst acc) (finditer (fst p) (fst acc)) = true ->
  run_inv t acc ->
  run_inv t (regex_apply_pattern finditer acc p).
Proof.
  destruct acc as [cur self], p as [pattern ty]. cbn [fst snd].
  intros Hty Hp Hinv. unfold regex_apply_pattern.
  rewrite <- fold_left_rev_right, rev_involutive.
  apply (regex_pass_inv t ty cur _ _ Hty Hp) with (b := 0).
  - apply run_inv_log; simpl; auto.
  - lia.
  - intros m Hm. unfold pass_clean in Hp.
    apply andb_true_iff in Hp. destruct Hp as [Hp _].
    rewrite forallb_forall in Hp. specialize (Hp m Hm).
    destruct (match_clean_inv cur m Hp) as (s & e & -> & _). lia.
Qed.

Lemma regex_run_inv (t : text) (ps : list (string * text))
    (acc : text * Fields) :
  forallb (fun p => bracket_free (snd p)) ps = true ->
  regex_run_clean finditer ps acc = true ->
  run_inv t acc ->
  run_inv t (fold_left (regex_apply_pattern finditer) ps acc).
Proof.
  revert acc. induction ps as [|p ps IH]; intros acc Hty Hc Hinv; auto.
  cbn [forallb regex_run_clean fold_left] in *.
  apply andb_true_iff in Hty, Hc. destruct Hty as [Hp Hty], Hc as [Hc1 Hc].
  apply IH; auto. now apply regex_apply_pattern_inv.
Qed.

(** The fallback restores the text after a clean run. *)
Lemma regex_round_trip (t : text) (tr : list Event) :
  no_open_bracket t = true ->
  allocated tr = [] ->
  let cleared := {| token_mapping := []; token_counters := []; trace := tr |} in
  regex_run_clean finditer patterns (t, cleared) = true ->
  detokenize_text (fst (_tokenize_with_regex finditer t cleared))
                  (token_mapping (snd (_tokenize_with_regex finditer t cleared)))
  = t.
Proof.
  intros Ht Htr cleared Hc.
  pose proof (regex_run_inv t patterns (t, cleared) eq_refl Hc
                (run_inv_cleared t tr Ht Htr)) as Hinv.
  unfold _tokenize_with_regex.
  destruct (fold_left (regex_apply_pattern finditer) patterns (t, cleared))
    as [cur self]. now apply run_inv_detokenize.
Qed.

End FallbackPath.

(** ** The round trip *)

Section RoundTrip.

Variable analyze : text -> option (list RecognizerResult).
Variable finditer : string -> text -> list Match.

(** C1, as the code has it.  Detokenizing the tokenized text with the
    mapping returned by the same call restores the text exactly when the
    text holds no ['['] and the run is clean: on the primary path the spans
    are in bounds, pairwise non-overlapping and labelled without brackets;
    on the fallback (also when taken because the analyzer failed) no match
    of any pattern holds a ['['] or lies inside a token placed by an earlier
    pattern. *)
Theorem tokenize_round_trip (self : PIIHandler) (t : text) (heap : Heap) :
  no_open_bracket t = true ->
  clean_run analyze finditer self t = true ->
  let r := tokenize_text analyze finditer self t heap in
  detokenize_text (tokenized_text r) (returned_mapping r) = t.
Proof.
  intros Ht Hc r. unfold clean_run in Hc.
  destruct (use_presidio self) eqn:Hp;
    [destruct (analyze t) as [results|] eqn:Ha|].
  - unfold spans_clean in Hc. apply andb_true_iff in Hc.
    destruct Hc as [Hc Hty]. apply andb_true_iff in Hc.
    destruct Hc as [Hb Hd].
    now apply (primary_round_trip analyze finditer self t heap results).
  - destruct (tokenize_text_fields analyze finditer self t heap)
      as (Htok & _ & _ & _ & _ & _ & Hret).
    fold r in Htok, Hret. rewrite Htok, Hret, Hp.
    unfold _tokenize_with_presidio. rewrite Ha.
    now apply (regex_round_trip finditer t [AnalyzerCall t]).
  - destruct (tokenize_text_fields analyze finditer self t heap)
      as (Htok & _ & _ & _ & _ & _ & Hret).
    fold r in Htok, Hret. rewrite Htok, Hret, Hp.
    now apply (regex_round_trip finditer t []).
Qed.

End RoundTrip.

(** The round trip on a run of the primary path (spans as an analyzer
    reports them) and on a run of the fallback. *)
Lemma tokenize_round_trip_witness :
  let t1 := str "Contact alice@company.com and bob@company.com for details" in
  let results := [mkResult 8 25 (str "EMAIL_ADDRESS");
                  mkResult 30 45 (str "EMAIL_ADDRESS")] in
  let primary := PIIHandler_init true [] in
  let r1 := tokenize_text (fun _ => Some results) Re.finditer
              (fst primary) t1 (snd primary) in
  let t2 := str "Email me at test@example.com or call 555-123-4567" in
  let fallback := PIIHandler_init false [] in
  let r2 := tokenize_text (fun _ => None) Re.finditer
              (fst fallback) t2 (snd fallback) in
  (returned_mapping r1
   = [(str "[PII_EMAIL_ADDRESS_1]", str "bob@company.com");
      (str "[PII_EMAIL_ADDRESS_2]", str "alice@company.com")] /\
   detokenize_text (tokenized_text r1) (returned_mapping r1) = t1) /\
  (tokenized_text r2 = str "Email me at [PII_EMAIL_1] or call [PII_PHONE_1]" /\
   detokenize_text (tokenized_text r2) (returned_mapping r2) = t2).
Proof.
  intros t1 results primary r1 t2 fallback r2.
  split; (split; [reflexivity|]).
  - apply (tokenize_round_trip (fun _ => Some results) Re.finditer
             (fst primary) t1 (snd primary)); reflexivity.
  - apply (tokenize_round_trip (fun _ => None) Re.finditer
             (fst fallback) t2 (snd fallback)); reflexivity.
Defined.

(** Two runs of the fallback in which the round trip does not give the
    text back: a URL with an IP address in it (the URL pattern matches
    across the token placed for the address, so the run is not clean), and
    a text that already holds the text of a token. *)
Lemma tokenize_round_trip_fails :
  let hh := PIIHandler_init false [] in
  let run t := tokenize_text (fun _ => None) Re.finditer (fst hh) t (snd hh) in
  let back t := detokenize_text (tokenized_text (run t))
                                (returned_mapping (run t)) in
  (back (str "see https://1.2.3.4/x now")
   = str "see https://[PII_IP_ADDRESS_1]/x now" /\
   back (str "see https://1.2.3.4/x now") <> str "see https://1.2.3.4/x now" /\
   clean_run (fun _ => None) Re.finditer (fst hh)
     (str "see https://1.2.3.4/x now") = false) /\
  (back (str "[PII_PERSON_1] is John Doe") = str "John Doe is John Doe" /\
   back (str "[PII_PERSON_1] is John Doe")
   <> str "[PII_PERSON_1] is John Doe" /\
   no_open_bracket (str "[PII_PERSON_1] is John Doe") = false).
Proof.
  intros hh run back. split.
  - split; [reflexivity|]. split; [discriminate | reflexivity].
  - split; [reflexivity|]. split; [discriminate | reflexivity].
Qed.

(** ** The handler on the inputs of its test suite *)

Example fallback_email_and_phone :
  let hh := PIIHandler_init false [] in
  let r := tokenize_text (fun _ => None) Re.finditer (fst hh)
             (str "Email me at test@example.com or call 555-123-4567")
             (snd hh) in
  tokenized_text r = str "Email me at [PII_EMAIL_1] or call [PII_PHONE_1]" /\
  returned_mapping r
  = [(str "[PII_EMAIL_1]", str "test@example.com");
     (str "[PII_PHONE_1]", str "555-123-4567")].
Proof. split; reflexivity. Qed.

Example counters_per_category :
  let cleared := {| token_mapping := []; token_counters := []; trace := [] |} in
  let '(token1, self1) := _generate_token (str "PERSON") (str "John Doe") cleared in
  let '(token2, self2) := _generate_token (str "PERSON") (str "Jane Smith") self1 in
  let '(token3, _) := _generate_token (str "EMAIL") (str "test@example.com") self2 in
  [token1; token2; token3]
  = [str "[PII_PERSON_1]"; str "[PII_PERSON_2]"; str "[PII_EMAIL_1]"].
Proof. reflexivity. Qed.

Example analyzer_failure_falls_back :
  let hh := PIIHandler_init true [] in
  let r := tokenize_text (fun _ => None) Re.finditer (fst hh)
             (str "Email me at a@b.com") (snd hh) in
  tokenized_text r = str "Email me at [PII_EMAIL_1]" /\
  returned_mapping r = [(str "[PII_EMAIL_1]", str "a@b.com")].
Proof. split; reflexivity. Qed.

(** ** Leakage, on both paths *)


Lemma cut_tokens_prose (s rest : text) :
  no_open_bracket s = true ->
  cut_tokens false (s ++ rest) = s ++ cut_tokens false rest.
Proof.
  induction s as [|c s IH]; [reflexivity|].
  cbn [no_open_bracket forallb app cut_tokens].
  rewrite andb_true_iff. intros [Hc Hs].
  apply negb_true_iff in Hc. rewrite Hc. f_equal. now apply IH.
Qed.

Lemma cut_tokens_inside (body rest : text) :
  bracket_free body = true ->
  cut_tokens true (body ++ "]"%char :: rest) = cut_tokens false rest.
Proof.
  induction body as [|c body IH]; [reflexivity|].
  cbn [bracket_free forallb app cut_tokens].
  rewrite andb_true_iff. intros [Hc Hb].
  apply negb_true_iff, orb_false_iff in Hc. destruct Hc as [_ ->].
  now apply IH.
Qed.

Lemma cut_tokens_token (tok rest : text) :
  bracketed tok = true ->
  cut_tokens false (tok ++ rest) = "["%char :: cut_tokens false rest.
Proof.
  intros H. apply bracketed_inv in H. destruct H as (body & -> & Hb).
  cbn [app cut_tokens]. change (is_open_bracket "[") with true. cbv iota.
  f_equal. rewrite <- app_assoc. cbn [app]. now apply cut_tokens_inside.
Qed.

(** On a tokenized document the scan cuts exactly the tokens. *)
Lemma cut_tokens_pieces (ps : list piece) :
  tokenized_document ps = true ->
  cut_tokens false (render_all ps) = render_cut ps.
Proof.
  unfold tokenized_document, render_all, render_cut.
  induction ps as [|p ps IH]; [reflexivity|].
  cbn [forallb flat_map]. rewrite andb_true_iff. intros [Hp Hps].
  destruct p as [s|tok]; cbn [piece_ok render] in *.
  - rewrite cut_tokens_prose by exact Hp. now rewrite IH.
  - rewrite cut_tokens_token by exact Hp. now rewrite IH.
Qed.



Section FallbackLeakage.

Variable finditer : string -> text -> list Match.

(** After a clean run of the fallback on a text without brackets, the
    returned text is prose and tokens in turn, the input is the same prose
    with the stored values in the place of the tokens, and what lies between
    the tokens is the input outside the detected values. *)
Lemma fallback_outside_original (t : text) (tr : list Event) :
  bracket_free t = true ->
  allocated tr = [] ->
  let cleared := {| token_mapping := []; token_counters := []; trace := tr |} in
  regex_run_clean finditer patterns (t, cleared) = true ->
  let run := _tokenize_with_regex finditer t cleared in
  exists s0 l,
    fst run = s0 ++ doc_body l /\
    t = s0 ++ doc_restored (token_mapping (snd run)) l /\
    cut_tokens false (fst run) = render_cut (doc_pieces s0 l) /\
    (forall k, In k (map fst l) <-> In k (keys (token_mapping (snd run)))).
Proof.
  intros Ht Htr cleared Hc run.
  pose proof (regex_run_inv finditer t patterns (t, cleared) eq_refl Hc
                (run_inv_cleared t tr (bracket_free_no_open t Ht) Htr))
    as Hinv.
  subst run. unfold _tokenize_with_regex.
  destruct (fold_left (regex_apply_pattern finditer) patterns (t, cleared))
    as [cur self].
  destruct Hinv as (_ & _ & _ & s0 & l & Hcur & Hok & Hin & Hres & Hall).
  cbn [fst snd] in *. exists s0, l. repeat split; auto.
  rewrite <- Hcur, <- doc_pieces_render.
  apply cut_tokens_pieces. now apply doc_pieces_ok.
Qed.


End FallbackLeakage.

Section NoLeak.

Variable analyze : text -> option (list RecognizerResult).
Variable finditer : string -> text -> list Match.


End NoLeak.



(** * Further properties of the handler *)

(** ** Runs without detections *)

Section NoDetection.

Variable analyze : text -> option (list RecognizerResult).
Variable finditer : string -> text -> list Match.

Lemma regex_patterns_no_match (t : text) (ps : list (string * text))
    (self : Fields) :
  (forall p, In p ps -> finditer (fst p) t = []) ->
  fst (fold_left (regex_apply_pattern finditer) ps (t, self)) = t /\
  token_mapping (snd (fold_left (regex_apply_pattern finditer) ps (t, self)))
  = token_mapping self.
Proof.
  revert self. induction ps as [|[pattern ty] ps IH]; intros self H; auto.
  cbn [fold_left].
  assert (E : regex_apply_pattern finditer (t, self) (pattern, ty)
              = (t, log_event (FinditerCall pattern t) self)).
  { unfold regex_apply_pattern.
    pose proof (H (pattern, ty) (or_introl eq_refl)) as Hm.
    cbn [fst] in Hm. rewrite Hm. reflexivity. }
  rewrite E.
  destruct (IH (log_event (FinditerCall pattern t) self)) as [H1 H2].
  - intros p Hp. apply H. right. exact Hp.
  - rewrite H1, H2. auto.
Qed.

(** X1.  When the active detector reports nothing for a text,
    [tokenize_text] returns the text unchanged with an empty mapping: on
    the primary path when the analyzer returns no result, on the fallback
    (also after an analyzer failure) when no pattern has a match. *)
Theorem tokenize_without_detections (self : PIIHandler) (t : text)
    (heap : Heap) :
  let r := tokenize_text analyze finditer self t heap in
  (use_presidio self = true -> analyze t = Some [] ->
   tokenized_text r = t /\ returned_mapping r = []) /\
  (use_presidio self = false \/ analyze t = None ->
   (forall p, In p patterns -> finditer (fst p) t = []) ->
   tokenized_text r = t /\ returned_mapping r = []).
Proof.
  intros r.
  destruct (tokenize_text_fields analyze finditer self t heap)
    as (Htok & _ & _ & _ & _ & _ & Hret).
  fold r in Htok, Hret. rewrite Htok, Hret. clear Htok Hret. split.
  - intros -> Ha. unfold _tokenize_with_presidio. rewrite Ha. auto.
  - intros Hpath Hnone.
    destruct (use_presidio self) eqn:Hp.
    + destruct Hpath as [Hpath|Ha]; [discriminate|].
      unfold _tokenize_with_presidio, _tokenize_with_regex. rewrite Ha.
      apply regex_patterns_no_match. exact Hnone.
    + unfold _tokenize_with_regex.
      apply regex_patterns_no_match. exact Hnone.
Qed.

End NoDetection.

Lemma tokenize_without_detections_witness :
  let t := str "This is a simple contract without any personal information." in
  let primary := PIIHandler_init true [] in
  let fallback := PIIHandler_init false [] in
  let r1 := tokenize_text (fun _ => Some []) Re.finditer
              (fst primary) t (snd primary) in
  let r2 := tokenize_text (fun _ => Some []) Re.finditer
              (fst fallback) t (snd fallback) in
  (tokenized_text r1 = t /\ returned_mapping r1 = []) /\
  (tokenized_text r2 = t /\ returned_mapping r2 = []).
Proof.
  intros t primary fallback r1 r2. split.
  - apply (proj1 (tokenize_without_detections (fun _ => Some []) Re.finditer
                    (fst primary) t (snd primary))); reflexivity.
  - apply (proj2 (tokenize_without_detections (fun _ => Some []) Re.finditer
                    (fst fallback) t (snd fallback))).
    + left. reflexivity.
    + intros p Hp. simpl in Hp.
      repeat (destruct Hp as [<-|Hp]; [vm_compute; reflexivity|]).
      destruct Hp.
Defined.

(** ** Invariants of a run, in general *)

Section RunInvariants.

Variable analyze : text -> option (list RecognizerResult).
Variable finditer : string -> text -> list Match.
Variable P : Fields -> Prop.

Hypothesis P_log : forall e self,
  (match e with GeneratedToken _ _ => False | _ => True end) ->
  P self -> P (log_event e self).

Lemma regex_run_preserves (t : text) (self : Fields) :
  (forall ty v s, In ty fallback_labels ->
                  P s -> P (snd (_generate_token ty v s))) ->
  P self -> P (snd (_tokenize_with_regex finditer t self)).
Proof.
  intros Hgen Hself. unfold _tokenize_with_regex, fallback_labels in *.
  assert (Hgo : forall ps acc,
            (forall p, In p ps -> In (snd p) (map snd patterns)) ->
            P (snd acc) ->
            P (snd (fold_left (regex_apply_pattern finditer) ps acc))).
  { induction ps as [|[pattern ty] ps IH]; intros [cur st] Hin Hst; auto.
    cbn [fold_left]. apply IH.
    - intros p Hp. apply Hin. right. exact Hp.
    - unfold regex_apply_pattern.
      apply (fold_left_preserves (fun a => P (snd a))).
      + intros [cur' st'] m Hst'. unfold regex_replace_match.
        destruct (_generate_token ty (m_group m) st') as [token st''] eqn:E.
        cbn [snd]. change st'' with (snd (token, st'')). rewrite <- E.
        apply Hgen; auto. apply (Hin (pattern, ty)). left. reflexivity.
      + cbn [snd] in *. apply P_log; simpl; auto. }
  apply (Hgo patterns (t, self)); auto.
  intros p Hp. now apply in_map.
Qed.

Lemma presidio_run_preserves (t : text) (self : Fields) :
  (forall ty v s, P s -> P (snd (_generate_token ty v s))) ->
  P self -> P (snd (_tokenize_with_presidio analyze finditer t self)).
Proof.
  intros Hgen Hself. unfold _tokenize_with_presidio.
  assert (H' : P (log_event (AnalyzerCall t) self))
    by (apply P_log; simpl; auto).
  destruct (analyze t) as [results|].
  - apply (fold_left_preserves (fun a => P (snd a))); auto.
    intros [cur st] result Hst. unfold presidio_replace_result.
    destruct (_generate_token (entity_type result)
                (slice t (start result) (end_ result)) st)
      as [token st'] eqn:E.
    cbn [snd]. change st' with (snd (token, st')). rewrite <- E.
    now apply Hgen.
  - apply regex_run_preserves; auto.
Qed.

End RunInvariants.

(** ** Numbering of the tokens *)

Lemma count_category_app (ty : text) (a b : list Event) :
  count_category ty (a ++ b) = count_category ty a + count_category ty b.
Proof.
  induction a as [|e a IH]; simpl; auto.
  destruct e; auto. rewrite IH. lia.
Qed.

Lemma split_last_event (pre post tr : list Event) (x e : Event) :
  pre ++ x :: post = tr ++ [e] ->
  (post = [] /\ pre = tr /\ x = e) \/
  (exists post', post = post' ++ [e] /\ tr = pre ++ x :: post').
Proof.
  intros H. destruct (@exists_last _ (x :: post)) as (l & y & E);
    [discriminate|].
  rewrite E, app_assoc in H. apply app_inj_tail in H. destruct H as [H ->].
  destruct post as [|z post].
  - left. destruct l as [|u l].
    + simpl in E. injection E as ->. rewrite app_nil_r in H. auto.
    + simpl in E. injection E as _ E. destruct l; discriminate.
  - right. destruct l as [|u l].
    + simpl in E. discriminate.
    + simpl in E. injection E as <- E.
      exists l. split; auto.
Qed.

Lemma numbering_inv_cleared :
  numbering_inv {| token_mapping := []; token_counters := []; trace := [] |}.
Proof.
  split; simpl; auto.
  intros pre token ty post H. destruct pre; discriminate.
Qed.

Lemma numbering_inv_log (e : Event) (self : Fields) :
  (match e with GeneratedToken _ _ => False | _ => True end) ->
  numbering_inv self -> numbering_inv (log_event e self).
Proof.
  intros He [Hc Hn]. unfold numbering_inv, log_event. cbn [token_counters trace].
  split.
  - intros ty. rewrite count_category_app, Hc.
    destruct e; simpl; try contradiction; lia.
  - intros pre token ty post H. symmetry in H. apply split_last_event in H.
    destruct H as [(_ & _ & <-)|(post' & _ & H)]; [contradiction|].
    now apply (Hn pre token ty post').
Qed.

Lemma numbering_inv_generate (ty v : text) (self : Fields) :
  numbering_inv self -> numbering_inv (snd (_generate_token ty v self)).
Proof.
  intros [Hc Hn]. unfold numbering_inv.
  rewrite generate_token_trace. split.
  - intros ty'. rewrite generate_token_counter, count_category_app.
    cbn [count_category]. rewrite !Hc.
    destruct (text_eqb ty ty') eqn:E; [|lia].
    apply text_eqb_eq in E. subst ty'. lia.
  - intros pre token ty' post H. symmetry in H. apply split_last_event in H.
    destruct H as [(_ & -> & H)|(post' & _ & H)].
    + assert (Htok : token = fst (_generate_token ty v self)) by congruence.
      assert (Hty : ty' = ty) by congruence.
      subst ty'. rewrite Htok, generate_token_fst, Hc. f_equal. lia.
    + now apply (Hn pre token ty' post').
Qed.

Section Numbering.

Variable analyze : text -> option (list RecognizerResult).
Variable finditer : string -> text -> list Match.

(** X2.  Within one [tokenize_text] call the counters are independent per
    category and start at 1: whatever the detectors report, the k-th token
    generated for a category is [[PII_<category>_<k>]]. *)
Theorem tokens_numbered_per_category (self : PIIHandler) (t : text)
    (heap : Heap) (pre post : list Event) (token ty : text) :
  events (tokenize_text analyze finditer self t heap)
  = pre ++ GeneratedToken token ty :: post ->
  token = token_text ty (S (count_category ty pre)).
Proof.
  destruct (tokenize_text_fields analyze finditer self t heap)
    as (_ & He & _).
  cbv zeta in He. rewrite He. clear He.
  assert (H : numbering_inv
                (snd (if use_presidio self
                      then _tokenize_with_presidio analyze finditer t
                             {| token_mapping := []; token_counters := [];
                                trace := [] |}
                      else _tokenize_with_regex finditer t
                             {| token_mapping := []; token_counters := [];
                                trace := [] |}))).
  { destruct (use_presidio self).
    - apply presidio_run_preserves;
        auto using numbering_inv_log, numbering_inv_generate,
                   numbering_inv_cleared.
    - apply regex_run_preserves;
        auto using numbering_inv_log, numbering_inv_generate,
                   numbering_inv_cleared. }
  destruct H as [_ H]. apply H.
Qed.

End Numbering.

Lemma tokens_numbered_per_category_witness :
  let t := str "Ann Lee and Bob Ray wrote to a@b.com" in
  let hh := PIIHandler_init false [] in
  let r := tokenize_text (fun _ => None) Re.finditer (fst hh) t (snd hh) in
  tokenized_text r = str "[PII_PERSON_2] and [PII_PERSON_1] wrote to [PII_EMAIL_1]"
  /\ str "[PII_PERSON_2]"
     = token_text (str "PERSON")
         (S (count_category (str "PERSON")
               (firstn 9 (events r)))).
Proof.
  intros t hh r. split; [reflexivity|].
  apply (tokens_numbered_per_category (fun _ => None) Re.finditer
           (fst hh) t (snd hh) (firstn 9 (events r)) (skipn 10 (events r))).
  reflexivity.
Defined.

(** ** What the primary path stores *)

Section PrimaryMapping.

Variable analyze : text -> option (list RecognizerResult).
Variable finditer : string -> text -> list Match.

(** X3.  On the primary path the returned mapping has one entry per
    reported result, whatever the results are (duplicates, overlaps and
    offsets out of range included): its values are the slices
    [text[start:end]] of the original text, in the order of the stable
    sort by descending start. *)
Theorem primary_mapping_values (self : PIIHandler) (t : text) (heap : Heap)
    (results : list RecognizerResult) :
  use_presidio self = true ->
  analyze t = Some results ->
  let r := tokenize_text analyze finditer self t heap in
  values (returned_mapping r)
  = map (fun result => slice t (start result) (end_ result))
        (sort_desc results) /\
  length (returned_mapping r) = length results.
Proof.
  intros Hp Ha r.
  destruct (tokenize_text_fields analyze finditer self t heap)
    as (_ & _ & _ & _ & _ & _ & Hret).
  fold r in Hret. rewrite Hret, Hp. clear Hret.
  unfold _tokenize_with_presidio. rewrite Ha.
  rewrite presidio_loop_mapping
    by (apply session_inv_log; simpl; auto using session_inv_cleared).
  cbn [log_event token_mapping app].
  set (A := allocate (sort_desc results) t _).
  assert (HA : map fst A = sort_desc results) by apply allocate_fst.
  split.
  - unfold values. rewrite map_map. rewrite <- HA, map_map. reflexivity.
  - rewrite length_map. rewrite <- (length_map fst A), HA.
    symmetry. apply Permutation_length, sort_desc_perm.
Qed.

End PrimaryMapping.

Lemma primary_mapping_values_witness :
  let t := str "abcdef" in
  let results := [mkResult 0 4 (str "A"); mkResult 2 6 (str "B");
                  mkResult 2 6 (str "B")] in
  let hh := PIIHandler_init true [] in
  let r := tokenize_text (fun _ => Some results) Re.finditer
             (fst hh) t (snd hh) in
  values (returned_mapping r) = [str "cdef"; str "cdef"; str "abcd"] /\
  length (returned_mapping r) = 3.
Proof.
  intros t results hh r.
  apply (primary_mapping_values (fun _ => Some results) Re.finditer
           (fst hh) t (snd hh) results); reflexivity.
Defined.

(** ** A span beyond the end of the text *)

Lemma slice_index_beyond (len : nat) (i : Z) :
  (Z.of_nat len <= i)%Z -> slice_index len i = len.
Proof.
  intros H. unfold slice_index.
  destruct (Z.ltb_spec i 0); [lia|]. apply Nat.min_r. lia.
Qed.

Section BeyondEnd.

Variable analyze : text -> option (list RecognizerResult).
Variable finditer : string -> text -> list Match.

(** X5.  A single reported span whose offsets both lie at or beyond the
    end of the text is neither rejected nor dropped: the slices are
    clamped, so the token is appended to the unchanged text and the
    mapping stores the empty string for it. *)
Theorem primary_span_beyond_end (self : PIIHandler) (t : text) (heap : Heap)
    (result : RecognizerResult) :
  use_presidio self = true ->
  analyze t = Some [result] ->
  (Z.of_nat (length t) <= start result)%Z ->
  (Z.of_nat (length t) <= end_ result)%Z ->
  let r := tokenize_text analyze finditer self t heap in
  tokenized_text r = t ++ token_text (entity_type result) 1 /\
  returned_mapping r = [(token_text (entity_type result) 1, [])].
Proof.
  intros Hp Ha Hs He r.
  destruct (tokenize_text_fields analyze finditer self t heap)
    as (Htok & _ & _ & _ & _ & _ & Hret).
  fold r in Htok, Hret. rewrite Htok, Hret, Hp. clear Htok Hret.
  unfold _tokenize_with_presidio. rewrite Ha.
  cbn [sort_desc fold_right insert_desc fold_left].
  unfold presidio_replace_result.
  assert (Hv : slice t (start result) (end_ result) = []).
  { unfold slice. rewrite !slice_index_beyond by lia.
    now rewrite Nat.sub_diag. }
  rewrite Hv.
  assert (Hsp : forall token,
            splice t (start result) (end_ result) token = t ++ token).
  { intros token. unfold splice, slice_to, slice_from.
    rewrite !slice_index_beyond by lia.
    rewrite firstn_all, skipn_all. now rewrite app_nil_r. }
  pose proof (generate_token_fst (entity_type result) []
                (log_event (AnalyzerCall t)
                   {| token_mapping := []; token_counters := [];
                      trace := [] |})) as Hf.
  pose proof (generate_token_mapping (entity_type result) []
                (log_event (AnalyzerCall t)
                   {| token_mapping := []; token_counters := [];
                      trace := [] |})) as Hm.
  destruct (_generate_token (entity_type result) []
              (log_event (AnalyzerCall t)
                 {| token_mapping := []; token_counters := [];
                    trace := [] |})) as [token self'].
  cbn [fst snd] in *. rewrite Hsp, Hm, Hf. split; reflexivity.
Qed.

End BeyondEnd.

Lemma primary_span_beyond_end_witness :
  let t := str "short" in
  let hh := PIIHandler_init true [] in
  let r := tokenize_text (fun _ => Some [mkResult 10 14 (str "PERSON")])
             Re.finditer (fst hh) t (snd hh) in
  tokenized_text r = str "short[PII_PERSON_1]" /\
  returned_mapping r = [(str "[PII_PERSON_1]", [])].
Proof.
  intros t hh r.
  apply (primary_span_beyond_end
           (fun _ => Some [mkResult 10 14 (str "PERSON")]) Re.finditer
           (fst hh) t (snd hh) (mkResult 10 14 (str "PERSON")));
    try reflexivity; simpl; lia.
Defined.

(** ** Detokenization: texts it leaves alone, documents it restores *)

Lemma str_replace_absent (s k v : text) :
  contains s k = false -> str_replace s k v = s.
Proof.
  intros H.
  assert (Hk : k <> []).
  { intros ->. destruct s; discriminate. }
  induction s as [|c s IH].
  - now apply str_replace_nil.
  - cbn [contains] in H. apply orb_false_iff in H. destruct H as [H1 H2].
    rewrite str_replace_miss by auto. now rewrite IH.
Qed.

(** X6.  A mapping none of whose tokens occurs in the text leaves the text
    as it is, whatever its values are. *)
Theorem detokenize_without_occurrence (s : text) (mapping : Dict text) :
  forallb (fun token => negb (contains s token)) (keys mapping) = true ->
  detokenize_text s mapping = s.
Proof.
  unfold detokenize_text.
  induction mapping as [|[k v] M IH]; intros H; [reflexivity|].
  cbn [keys map fst forallb] in H. apply andb_true_iff in H.
  destruct H as [Hk HM]. apply negb_true_iff in Hk.
  cbn [fold_left fst snd]. rewrite str_replace_absent by exact Hk.
  now apply IH.
Qed.

Lemma detokenize_without_occurrence_witness :
  detokenize_text (str "clauses [1] and [2] name [PII_PERSON_1]")
                  [(str "[PII_PERSON_2]", str "Ann");
                   (str "[PII_EMAIL_1]", str "[PII_PERSON_1]")]
  = str "clauses [1] and [2] name [PII_PERSON_1]".
Proof.
  apply detokenize_without_occurrence. reflexivity.
Defined.

(** X7.  On a document made of prose without ['['] and of bracketed
    tokens, [detokenize_text] does what its name says, for every mapping
    with bracketed keys and values without ['[']: each token that is a key
    is replaced by the value stored under it, every other token and all
    the prose stay as they are. *)
Theorem detokenize_restores_document (ps : list piece)
    (mapping : Dict text) :
  tokenized_document ps = true ->
  forallb bracketed (keys mapping) = true ->
  forallb no_open_bracket (values mapping) = true ->
  detokenize_text (render_all ps) mapping
  = flat_map (fun p => match p with
                       | Plain s => s
                       | Tok token => value_of mapping token
                       end) ps.
Proof.
  intros Hps Hk Hv. rewrite detokenize_pieces by auto.
  unfold render_all. rewrite flat_map_concat_map, map_map.
  rewrite <- flat_map_concat_map. apply flat_map_ext.
  intros [s|token]; simpl; auto. unfold value_of.
  destruct (dict_get mapping token); reflexivity.
Qed.

Lemma detokenize_restores_document_witness :
  let ps := [Tok (str "[PII_PERSON_1]"); Plain (str " owes ");
             Tok (str "[PII_PERSON_2]"); Plain (str " and ");
             Tok (str "[PII_PERSON_1]")] in
  let mapping := [(str "[PII_PERSON_1]", str "Ann")] in
  detokenize_text (render_all ps) mapping
  = str "Ann owes [PII_PERSON_2] and Ann".
Proof.
  intros ps mapping.
  rewrite (detokenize_restores_document ps mapping); reflexivity.
Defined.

(** ** The fallback after an analyzer failure *)

Lemma generate_token_same_fields (ty v : text) (a b : Fields) :
  same_fields a b ->
  fst (_generate_token ty v a) = fst (_generate_token ty v b) /\
  same_fields (snd (_generate_token ty v a)) (snd (_generate_token ty v b)).
Proof.
  intros [Hm Hc]. unfold same_fields, _generate_token. cbn [fst snd
    token_mapping token_counters]. rewrite Hm, Hc. auto.
Qed.

Section FallbackEquivalence.

Variable analyze : text -> option (list RecognizerResult).
Variable finditer : string -> text -> list Match.

Lemma regex_matches_same_fields (ty : text) (ms : list Match) (cur : text)
    (a b : Fields) :
  same_fields a b ->
  fst (fold_left (regex_replace_match ty) ms (cur, a))
  = fst (fold_left (regex_replace_match ty) ms (cur, b)) /\
  same_fields (snd (fold_left (regex_replace_match ty) ms (cur, a)))
              (snd (fold_left (regex_replace_match ty) ms (cur, b))).
Proof.
  revert cur a b. induction ms as [|m ms IH]; intros cur a b Hab; auto.
  cbn [fold_left]. unfold regex_replace_match at 2 4 6 8.
  destruct (generate_token_same_fields ty (m_group m) a b Hab) as [Hf Hs].
  destruct (_generate_token ty (m_group m) a) as [ta a'].
  destruct (_generate_token ty (m_group m) b) as [tb b'].
  cbn [fst snd] in *. subst tb. now apply IH.
Qed.

Lemma regex_run_same_fields (ps : list (string * text)) (cur : text)
    (a b : Fields) :
  same_fields a b ->
  fst (fold_left (regex_apply_pattern finditer) ps (cur, a))
  = fst (fold_left (regex_apply_pattern finditer) ps (cur, b)) /\
  same_fields (snd (fold_left (regex_apply_pattern finditer) ps (cur, a)))
              (snd (fold_left (regex_apply_pattern finditer) ps (cur, b))).
Proof.
  revert cur a b. induction ps as [|[pattern ty] ps IH]; intros cur a b Hab;
    auto.
  cbn [fold_left]. unfold regex_apply_pattern at 2 4 6 8.
  destruct (regex_matches_same_fields ty (rev (finditer pattern cur)) cur
              (log_event (FinditerCall pattern cur) a)
              (log_event (FinditerCall pattern cur) b)) as [Hf Hs].
  { destruct Hab. split; assumption. }
  destruct (fold_left (regex_replace_match ty) (rev (finditer pattern cur))
              (cur, log_event (FinditerCall pattern cur) a)) as [ca a'].
  destruct (fold_left (regex_replace_match ty) (rev (finditer pattern cur))
              (cur, log_event (FinditerCall pattern cur) b)) as [cb b'].
  cbn [fst snd] in *. subst cb. now apply IH.
Qed.

(** X4.  When the analyzer raises, the call gives the same tokenized text
    and the same mapping as a handler that was built without Presidio:
    the fallback starts from the cleared state in both cases. *)
Theorem analyzer_failure_equals_fallback (self other : PIIHandler)
    (t : text) (heap heap' : Heap) :
  use_presidio self = true ->
  analyze t = None ->
  use_presidio other = false ->
  let r := tokenize_text analyze finditer self t heap in
  let r' := tokenize_text analyze finditer other t heap' in
  tokenized_text r = tokenized_text r' /\
  returned_mapping r = returned_mapping r'.
Proof.
  intros Hp Ha Ho r r'.
  destruct (tokenize_text_fields analyze finditer self t heap)
    as (Htok & _ & _ & _ & _ & _ & Hret).
  destruct (tokenize_text_fields analyze finditer other t heap')
    as (Htok' & _ & _ & _ & _ & _ & Hret').
  fold r in Htok, Hret. fold r' in Htok', Hret'.
  rewrite Htok, Hret, Htok', Hret', Hp, Ho.
  unfold _tokenize_with_presidio, _tokenize_with_regex. rewrite Ha.
  destruct (regex_run_same_fields patterns t
              (log_event (AnalyzerCall t)
                 {| token_mapping := []; token_counters := []; trace := [] |})
              {| token_mapping := []; token_counters := []; trace := [] |})
    as [Hf [Hm _]].
  { split; reflexivity. }
  auto.
Qed.

End FallbackEquivalence.

Lemma analyzer_failure_equals_fallback_witness :
  let t := str "Email me at a@b.com" in
  let primary := PIIHandler_init true [] in
  let fallback := PIIHandler_init false [[]] in
  let r := tokenize_text (fun _ => None) Re.finditer
             (fst primary) t (snd primary) in
  let r' := tokenize_text (fun _ => None) Re.finditer
              (fst fallback) t (snd fallback) in
  tokenized_text r' = str "Email me at [PII_EMAIL_1]" /\
  tokenized_text r = tokenized_text r' /\
  returned_mapping r = returned_mapping r'.
Proof.
  intros t primary fallback r r'. split; [reflexivity|].
  apply (analyzer_failure_equals_fallback (fun _ => None) Re.finditer
           (fst primary) (fst fallback) t (snd primary) (snd fallback));
    reflexivity.
Defined.

(** ** The tokens of the fallback *)

Section FallbackTokens.

Variable analyze : text -> option (list RecognizerResult).
Variable finditer : string -> text -> list Match.

(** X8.  Every token generated on the fallback path (also when it is taken
    after an analyzer failure) follows the documented grammar
    [[PII_<CATEGORY>_<N>]]: its category is one of the seven labels of the
    pattern table, each of which matches [[A-Z0-9_]+], and its number is
    at least 1. *)
Theorem fallback_tokens_follow_grammar (self : PIIHandler) (t : text)
    (heap : Heap) (token ty : text) :
  use_presidio self = false \/ analyze t = None ->
  In (GeneratedToken token ty)
     (events (tokenize_text analyze finditer self t heap)) ->
  In ty fallback_labels /\
  category_grammar ty = true /\
  exists n, 1 <= n /\ token = token_text ty n.
Proof.
  intros Hpath.
  destruct (tokenize_text_fields analyze finditer self t heap)
    as (_ & He & _).
  cbv zeta in He. rewrite He. clear He.
  set (Q := fun s : Fields =>
              forall token ty, In (GeneratedToken token ty) (trace s) ->
                In ty fallback_labels /\
                exists n, 1 <= n /\ token = token_text ty n).
  assert (Qlog : forall e s,
             (match e with GeneratedToken _ _ => False | _ => True end) ->
             Q s -> Q (log_event e s)).
  { intros e s He Hs tok ty' Hin. unfold log_event in Hin.
    cbn [trace] in Hin. apply in_app_or in Hin.
    destruct Hin as [Hin|[Hin|[]]]; [now apply Hs | subst e; contradiction]. }
  assert (Qgen : forall ty' v s, In ty' fallback_labels ->
             Q s -> Q (snd (_generate_token ty' v s))).
  { intros ty' v s Hty Hs tok ty'' Hin.
    rewrite generate_token_trace in Hin. apply in_app_or in Hin.
    destruct Hin as [Hin|[Hin|[]]]; [now apply Hs|].
    assert (tok = fst (_generate_token ty' v s)) by congruence.
    assert (ty'' = ty') by congruence. subst.
    split; auto. rewrite generate_token_fst. eexists. split; [|reflexivity].
    lia. }
  assert (Qrun : Q (snd (if use_presidio self
                         then _tokenize_with_presidio analyze finditer t
                                {| token_mapping := []; token_counters := [];
                                   trace := [] |}
                         else _tokenize_with_regex finditer t
                                {| token_mapping := []; token_counters := [];
                                   trace := [] |}))).
  { destruct (use_presidio self) eqn:Hp.
    - destruct Hpath as [Hpath|Ha]; [discriminate|].
      unfold _tokenize_with_presidio. rewrite Ha.
      apply regex_run_preserves; auto.
      apply Qlog; simpl; auto. intros tok ty' [].
    - apply regex_run_preserves; auto. intros tok ty' []. }
  intros Hin. destruct (Qrun token ty Hin) as [Hl Hn].
  split; [exact Hl|]. split; [|exact Hn].
  unfold fallback_labels in Hl. simpl in Hl.
  repeat (destruct Hl as [<-|Hl]; [reflexivity|]). destruct Hl.
Qed.

End FallbackTokens.

Lemma fallback_tokens_follow_grammar_witness :
  let t := str "Name: John Smith" in
  let hh := PIIHandler_init false [] in
  In (str "PERSON") fallback_labels /\
  category_grammar (str "PERSON") = true /\
  exists n, 1 <= n /\ str "[PII_PERSON_1]" = token_text (str "PERSON") n.
Proof.
  intros t hh.
  apply (fallback_tokens_follow_grammar (fun _ => None) Re.finditer
           (fst hh) t (snd hh) (str "[PII_PERSON_1]") (str "PERSON")).
  - left. reflexivity.
  - vm_compute. auto 20.
Defined.

(** * [DocumentParser]: cleaning of the extracted text *)

Section CleanText.

Import Parser.

Lemma lstrip_length (s : text) : length (lstrip s) <= length s.
Proof.
  induction s as [|c s IH]; cbn [lstrip length]; auto.
  destruct (is_space c); cbn [length]; lia.
Qed.

Lemma run_length_space (c : ascii) (s : text) :
  is_space c = true -> run_length (c :: s) = S (run_length s).
Proof.
  intros H. unfold run_length. cbn [lstrip length]. rewrite H.
  pose proof (lstrip_length s). lia.
Qed.

Lemma run_length_other (c : ascii) (s : text) :
  is_space c = false -> run_length (c :: s) = 0.
Proof.
  intros H. unfold run_length. cbn [lstrip length]. rewrite H.
  cbn [length]. lia.
Qed.

Lemma class_loop (lo : nat) (hi : option nat) (member : ascii -> bool)
    (k : option ascii -> text -> option text)
    (F : nat -> nat -> option ascii -> text -> option text) :
  (forall fuel n prev s,
      F fuel n prev s
      = let stop := if lo <=? n then k prev s else None in
        match fuel with
        | O => stop
        | S fuel' =>
            let may_repeat :=
              match hi with Some h => n <? h | None => true end in
            let more :=
              if may_repeat
              then Re.matches (Re.Class member) prev s
                     (fun p s' =>
                        if length s' <? length s
                        then F fuel' (S n) p s' else None)
              else None in
            match more with
            | Some rest => Some rest
            | None => stop
            end
        end) ->
  forall fuel n prev s,
    F fuel n prev s
    = rep_loop (Re.matches (Re.Class member)) k lo hi fuel n prev s.
Proof.
  intros HF. induction fuel as [|fuel IH]; intros n prev s; rewrite HF.
  - reflexivity.
  - cbn [rep_loop Re.matches].
    destruct hi as [h|].
    + destruct (n <? h); [|reflexivity].
      destruct s as [|x s']; [reflexivity|].
      destruct (member x); [|reflexivity].
      destruct (length s' <? length (x :: s')); [|reflexivity].
      now rewrite IH.
    + destruct s as [|x s']; [reflexivity|].
      destruct (member x); [|reflexivity].
      destruct (length s' <? length (x :: s')); [|reflexivity].
      now rewrite IH.
Qed.

Lemma matches_rep (lo : nat) (hi : option nat) (member : ascii -> bool)
    (prev : option ascii) (s : text)
    (k : option ascii -> text -> option text) :
  Re.matches (Re.Rep lo hi (Re.Class member)) prev s k
  = rep_loop (Re.matches (Re.Class member)) k lo hi (S (length s)) 0 prev s.
Proof.
  cbn [Re.matches rep_loop].
  assert (Hin : forall (x : ascii) (s' : text),
             (length s' <? length (x :: s')) = true)
    by (intros; apply Nat.ltb_lt; cbn [length]; lia).
  destruct s as [|x s']; [reflexivity|].
  destruct (member x) eqn:Hx;
    [|destruct hi as [h|]; [destruct (0 <? h)|]; reflexivity].
  destruct hi as [h|].
  - destruct (0 <? h); [|reflexivity]. rewrite Hin.
    match goal with
    | |- match ?F _ _ _ _ with _ => _ end = _ =>
        rewrite (class_loop lo (Some h) member k F);
          [reflexivity | intros [|fuel] n p t; reflexivity]
    end.
  - rewrite Hin.
    match goal with
    | |- match ?F _ _ _ _ with _ => _ end = _ =>
        rewrite (class_loop lo None member k F);
          [reflexivity | intros [|fuel] n p t; reflexivity]
    end.
Qed.

(** A greedy run of whitespace takes all of it. *)
Lemma rep_loop_whitespace (lo : nat) (s : text) :
  forall fuel n prev,
    length s < fuel ->
    rep_loop (Re.matches (Re.Class is_space)) (fun _ rest => Some rest)
             lo None fuel n prev s
    = if lo <=? n + run_length s then Some (lstrip s) else None.
Proof.
  induction s as [|c s IH]; intros fuel n prev Hf;
    (destruct fuel as [|fuel]; [simpl in Hf; lia|]).
  - cbn [rep_loop Re.matches]. unfold run_length. simpl.
    now rewrite Nat.add_0_r.
  - cbn [rep_loop Re.matches].
    destruct (is_space c) eqn:Hc.
    + assert (Hlt : (length s <? length (c :: s)) = true)
        by (apply Nat.ltb_lt; simpl; lia).
      rewrite Hlt, IH by (simpl in Hf; lia).
      rewrite run_length_space by auto. cbn [lstrip]. rewrite Hc.
      replace (S n + run_length s) with (n + S (run_length s)) by lia.
      destruct (lo <=? n + S (run_length s)) eqn:E; auto.
      apply Nat.leb_gt in E.
      destruct (Nat.leb_spec lo n); [lia | reflexivity].
    + rewrite run_length_other by auto. cbn [lstrip]. rewrite Hc.
      now rewrite Nat.add_0_r.
Qed.

Lemma matches_whitespace_run (prev : option ascii) (s : text) :
  Re.matches whitespace_run prev s (fun _ rest => Some rest)
  = if 1 <=? run_length s then Some (lstrip s) else None.
Proof.
  unfold whitespace_run. rewrite matches_rep.
  rewrite rep_loop_whitespace by lia. reflexivity.
Qed.

(** The first substitution of [_clean_text] replaces every run of
    whitespace by one space. *)
Lemma sub_whitespace_run (s : text) :
  (forall prev, sub_scan whitespace_run [space] prev 0 s = collapse false s)
  /\
  (forall prev, sub_scan whitespace_run [space] prev (run_length s) s
                = collapse true s).
Proof.
  induction s as [|c s [IH0 IH1]]; [split; reflexivity|].
  assert (H0 : forall prev,
             sub_scan whitespace_run [space] prev 0 (c :: s)
             = collapse false (c :: s)).
  { intros prev. cbn [sub_scan collapse].
    rewrite matches_whitespace_run.
    destruct (is_space c) eqn:Hc.
    - rewrite run_length_space by auto. cbn [Nat.leb lstrip]. rewrite Hc.
      replace (length (c :: s) - length (lstrip s))
        with (S (run_length s))
        by (unfold run_length; pose proof (lstrip_length s);
            cbn [length]; lia).
      now rewrite IH1.
    - rewrite run_length_other by auto. cbn [Nat.leb]. now rewrite IH0. }
  split; [exact H0|].
  intros prev. destruct (is_space c) eqn:Hc.
  - rewrite run_length_space by auto. cbn [sub_scan collapse].
    now rewrite Hc, IH1.
  - rewrite run_length_other by auto. rewrite H0.
    cbn [collapse]. now rewrite Hc.
Qed.

(** The last substitution drops the characters of the removed class. *)
Lemma sub_control_char (s : text) (prev : option ascii) :
  sub_scan control_char [] prev 0 s = filter (fun c => negb (is_control c)) s.
Proof.
  revert prev. induction s as [|c s IH]; intros prev; [reflexivity|].
  cbn [sub_scan filter]. unfold control_char at 1. cbn [Re.matches].
  destruct (is_control c) eqn:Hc; cbn [negb].
  - replace (length (c :: s) - length s) with 1 by (cbn [length]; lia).
    cbn [app]. apply IH.
  - f_equal. apply IH.
Qed.

(** Without a newline the line-break substitution finds nothing. *)
Lemma sub_blank_line (repl s : text) (prev : option ascii) :
  ~ In newline s -> sub_scan blank_line repl prev 0 s = s.
Proof.
  revert prev. induction s as [|c s IH]; intros prev H; [reflexivity|].
  cbn [sub_scan]. unfold blank_line at 1. cbn [Re.matches].
  destruct (ascii_eqb c newline) eqn:E.
  - apply ascii_eqb_eq in E. subst c. exfalso. apply H. left. reflexivity.
  - f_equal. apply IH. intros Hin. apply H. right. exact Hin.
Qed.

Lemma lstrip_incl (s : text) (c : ascii) : In c (lstrip s) -> In c s.
Proof.
  induction s as [|d s IH]; simpl; auto.
  destruct (is_space d); simpl; auto.
Qed.

Lemma strip_incl (s : text) (c : ascii) : In c (strip s) -> In c s.
Proof.
  unfold strip, rstrip. intros H. apply in_rev in H.
  apply lstrip_incl in H. apply in_rev in H. now apply lstrip_incl.
Qed.

Lemma collapse_chars (b : bool) (s : text) (c : ascii) :
  In c (collapse b s) -> c = space \/ (In c s /\ is_space c = false).
Proof.
  revert b. induction s as [|d s IH]; intros b; simpl; [tauto|].
  destruct (is_space d) eqn:Hd.
  - intros H. apply in_app_or in H. destruct H as [H|H].
    + destruct b; simpl in H; [tauto|]. destruct H as [<-|[]]. auto.
    + destruct (IH true H) as [->|[H1 H2]]; auto.
  - intros [<-|H]; auto.
    destruct (IH false H) as [->|[H1 H2]]; auto.
Qed.

(** [_clean_text] in three steps: the line-break step changes nothing. *)
Lemma clean_text_steps (t : text) :
  _clean_text t
  = filter (fun c => negb (is_control c)) (strip (collapse false t)).
Proof.
  destruct t as [|c t]; [reflexivity|].
  unfold _clean_text, sub.
  rewrite (proj1 (sub_whitespace_run (c :: t))).
  rewrite sub_blank_line; [apply sub_control_char|].
  intros H. apply strip_incl, collapse_chars in H.
  destruct H as [H|[_ H]]; discriminate.
Qed.

Lemma filter_id (f : ascii -> bool) (s : text) :
  (forall c, In c s -> f c = true) -> filter f s = s.
Proof.
  induction s as [|c s IH]; intros H; [reflexivity|].
  cbn [filter]. rewrite (H c) by (left; reflexivity).
  f_equal. apply IH. intros d Hd. apply H. right. exact Hd.
Qed.

Lemma filter_filter_weaker (f g : ascii -> bool) (s : text) :
  (forall c, f c = true -> g c = true) ->
  filter f (filter g s) = filter f s.
Proof.
  intros H. induction s as [|c s IH]; [reflexivity|].
  cbn [filter]. destruct (g c) eqn:Hg.
  - cbn [filter]. destruct (f c); now rewrite IH.
  - destruct (f c) eqn:Hf; [|exact IH].
    apply H in Hf. congruence.
Qed.

Lemma visible_not_space (c : ascii) :
  is_space c = true -> visible c = false.
Proof. intros H. unfold visible. now rewrite H. Qed.

Lemma filter_visible_lstrip (s : text) :
  filter visible (lstrip s) = filter visible s.
Proof.
  induction s as [|c s IH]; [reflexivity|].
  cbn [lstrip]. destruct (is_space c) eqn:Hc; [|reflexivity].
  cbn [filter]. now rewrite visible_not_space.
Qed.

Lemma filter_rev_text (f : ascii -> bool) (s : text) :
  filter f (rev s) = rev (filter f s).
Proof.
  induction s as [|c s IH]; [reflexivity|].
  cbn [rev filter]. rewrite filter_app, IH. cbn [filter].
  destruct (f c); [reflexivity|]. now rewrite app_nil_r.
Qed.

Lemma filter_visible_strip (s : text) :
  filter visible (strip s) = filter visible s.
Proof.
  unfold strip, rstrip.
  rewrite filter_rev_text, filter_visible_lstrip, filter_rev_text.
  rewrite filter_visible_lstrip, <- filter_rev_text, <- filter_rev_text.
  now rewrite rev_involutive.
Qed.

Lemma filter_visible_collapse (b : bool) (s : text) :
  filter visible (collapse b s) = filter visible s.
Proof.
  revert b. induction s as [|c s IH]; intros b; [reflexivity|].
  cbn [collapse filter]. destruct (is_space c) eqn:Hc.
  - rewrite filter_app, IH, visible_not_space by exact Hc.
    destruct b; reflexivity.
  - cbn [filter]. now rewrite IH.
Qed.

Lemma lstrip_all_space (s : text) :
  forallb is_space s = true -> lstrip s = [].
Proof.
  induction s as [|c s IH]; [reflexivity|].
  cbn [forallb lstrip]. intros H. apply andb_true_iff in H.
  destruct H as [Hc Hs]. rewrite Hc. auto.
Qed.

Lemma lstrip_app (a b : text) :
  lstrip (a ++ b)
  = match lstrip a with [] => lstrip b | _ :: _ => lstrip a ++ b end.
Proof.
  induction a as [|c a IH]; [reflexivity|].
  cbn [app lstrip]. destruct (is_space c); [exact IH | reflexivity].
Qed.

Lemma rstrip_cons (c : ascii) (s : text) :
  rstrip (c :: s)
  = match rstrip s with
    | [] => if is_space c then [] else [c]
    | _ :: _ => c :: rstrip s
    end.
Proof.
  unfold rstrip. cbn [rev]. rewrite lstrip_app.
  destruct (lstrip (rev s)) as [|d l] eqn:E.
  - cbn [rev lstrip]. destruct (is_space c); reflexivity.
  - rewrite rev_app_distr. cbn [rev app].
    destruct (rev l ++ [d]) as [|e l'] eqn:E'; [|reflexivity].
    now apply app_eq_nil in E'.
Qed.

Lemma loose_collapse (s : text) :
  loose false (collapse false s) = true
  /\ forall b, loose b (collapse true s) = true.
Proof.
  induction s as [|c s [IH0 IH1]]; [split; reflexivity|].
  cbn [collapse]. destruct (is_space c) eqn:Hc.
  - split; [|intros b; apply IH1].
    cbn [app loose]. change (is_space space) with true. cbv iota.
    change (ascii_eqb space space) with true. cbn [andb negb].
    apply IH1.
  - split; [|intros b]; cbn [loose]; rewrite Hc; exact IH0.
Qed.

Lemma loose_lstrip (s : text) (b b' : bool) :
  loose b s = true -> loose b' (lstrip s) = true.
Proof.
  revert b. induction s as [|c s IH]; intros b H; [reflexivity|].
  cbn [lstrip]. cbn [loose] in H. destruct (is_space c) eqn:Hc.
  - apply andb_true_iff in H. destruct H as [_ H]. eapply IH, H.
  - cbn [loose]. now rewrite Hc.
Qed.

Lemma spaced_rstrip (s : text) :
  forall b, loose b s = true -> rstrip s <> [] ->
            spaced b (rstrip s) = true.
Proof.
  induction s as [|c s IH]; intros b H Hne; [now elim Hne|].
  rewrite rstrip_cons in Hne |- *. cbn [loose] in H.
  destruct (rstrip s) as [|d l] eqn:E.
  - destruct (is_space c) eqn:Hc; [now elim Hne|].
    cbn [spaced]. now rewrite Hc.
  - cbn [spaced]. fold (spaced true (d :: l)). fold (spaced false (d :: l)).
    destruct (is_space c) eqn:Hc.
    + apply andb_true_iff in H. destruct H as [H1 H2]. rewrite H1.
      cbn [andb]. apply IH; [exact H2 | discriminate].
    + apply IH; [exact H | discriminate].
Qed.

Lemma single_spaced_strip (s : text) (b : bool) :
  loose b s = true -> single_spaced (strip s) = true.
Proof.
  intros H. unfold single_spaced, strip.
  destruct (rstrip (lstrip s)) as [|c l] eqn:E; [reflexivity|].
  rewrite <- E. apply spaced_rstrip.
  - eapply loose_lstrip, H.
  - rewrite E. discriminate.
Qed.

Lemma spaced_collapse (s : text) :
  forall b, spaced b s = true -> collapse b s = s.
Proof.
  induction s as [|c s IH]; intros b H; [reflexivity|].
  cbn [spaced] in H. cbn [collapse].
  destruct (is_space c) eqn:Hc.
  - apply andb_true_iff in H. destruct H as [H H2].
    apply andb_true_iff in H. destruct H as [H0 H1].
    apply ascii_eqb_eq in H0. destruct b; [discriminate|].
    rewrite (IH true H2). now subst c.
  - now rewrite (IH false H).
Qed.

Lemma spaced_lstrip (s : text) :
  spaced true s = true -> lstrip s = s.
Proof.
  destruct s as [|c s]; [reflexivity|]. cbn [spaced lstrip].
  destruct (is_space c); [|reflexivity].
  rewrite andb_false_r. discriminate.
Qed.

Lemma spaced_rstrip_id (s : text) :
  forall b, spaced b s = true -> s <> [] -> rstrip s = s.
Proof.
  induction s as [|c s IH]; intros b H Hne; [now elim Hne|].
  rewrite rstrip_cons. cbn [spaced] in H.
  destruct s as [|d s].
  - change (rstrip []) with (@nil ascii). cbv iota.
    destruct (is_space c); [|reflexivity].
    rewrite andb_false_r in H. discriminate.
  - assert (Hs : rstrip (d :: s) = d :: s).
    { destruct (is_space c).
      + apply andb_true_iff in H. destruct H as [_ H].
        apply (IH true H). discriminate.
      + apply (IH false H). discriminate. }
    now rewrite Hs.
Qed.

Lemma no_control_filter (s : text) :
  no_control (filter (fun c => negb (is_control c)) s) = true.
Proof.
  unfold no_control. apply forallb_forall. intros c Hc.
  now apply filter_In in Hc.
Qed.

Lemma clean_text_fixed (s : text) :
  single_spaced s = true -> no_control s = true -> _clean_text s = s.
Proof.
  intros Hs Hc. rewrite clean_text_steps.
  destruct s as [|c s]; [reflexivity|].
  unfold single_spaced in Hs.
  assert (H0 : collapse false (c :: s) = c :: s).
  { cbn [spaced] in Hs. cbn [collapse].
    destruct (is_space c) eqn:E.
    - rewrite andb_false_r in Hs. discriminate.
    - f_equal. now apply spaced_collapse. }
  rewrite H0. unfold strip.
  rewrite (spaced_lstrip _ Hs).
  rewrite (spaced_rstrip_id _ true Hs) by discriminate.
  apply filter_id. intros d Hd.
  unfold no_control in Hc. rewrite forallb_forall in Hc. now apply Hc.
Qed.

Lemma strip_collapse_no_control (t : text) :
  forallb (fun c => negb (stray_control c)) t = true ->
  forall c, In c (strip (collapse false t)) -> negb (is_control c) = true.
Proof.
  intros H c Hc. apply strip_incl, collapse_chars in Hc.
  destruct Hc as [->|[Hin Hsp]]; [reflexivity|].
  rewrite forallb_forall in H. specialize (H c Hin).
  unfold stray_control in H. rewrite Hsp in H. cbn [negb] in H.
  now rewrite andb_true_r in H.
Qed.

Lemma filter_visible_clean (t : text) :
  filter visible (_clean_text t) = filter visible t.
Proof.
  rewrite clean_text_steps.
  rewrite filter_filter_weaker.
  - now rewrite filter_visible_strip, filter_visible_collapse.
  - intros c H. unfold visible in H. apply andb_true_iff in H. tauto.
Qed.

(** X9.  Whatever the input, the cleaned text holds no character of the
    removed control class and no whitespace other than the plain space;
    in particular it never holds a line break. *)
Theorem clean_text_alphabet (t : text) :
  forallb (fun c => negb (is_control c)
                    && (negb (is_space c) || ascii_eqb c space))
          (_clean_text t) = true
  /\ existsb (fun c => ascii_eqb c newline) (_clean_text t) = false.
Proof.
  assert (H : forall c, In c (_clean_text t) ->
                        is_control c = false
                        /\ (is_space c = true -> c = space)).
  { intros c Hc. rewrite clean_text_steps in Hc.
    apply filter_In in Hc. destruct Hc as [Hc Hn].
    apply negb_true_iff in Hn. split; [exact Hn|].
    apply strip_incl, collapse_chars in Hc.
    destruct Hc as [->|[_ Hc]]; [auto | congruence]. }
  split.
  - apply forallb_forall. intros c Hc. destruct (H c Hc) as [H1 H2].
    rewrite H1. cbn [negb andb].
    destruct (is_space c) eqn:E; [|reflexivity].
    rewrite (H2 eq_refl). reflexivity.
  - destruct (existsb _ _) eqn:E; [|reflexivity].
    apply existsb_exists in E. destruct E as [c [Hc E]].
    apply ascii_eqb_eq in E. subst c.
    destruct (H _ Hc) as [_ H2]. specialize (H2 eq_refl). discriminate.
Qed.

(** X10.  Cleaning neither drops, adds nor reorders a visible character:
    the characters that are neither whitespace nor of the removed class
    are the same, in the same order, before and after. *)
Theorem clean_text_keeps_visible (t : text) :
  filter visible (parse_text t) = filter visible t.
Proof.
  unfold parse_text. rewrite clean_text_steps.
  rewrite filter_filter_weaker.
  - now rewrite filter_visible_strip, filter_visible_collapse.
  - intros c H. unfold visible in H. apply andb_true_iff in H. tauto.
Qed.

(** X11.  A text of whitespace only is cleaned to the empty string. *)
Theorem clean_text_blank (t : text) :
  forallb is_space t = true -> parse_text t = [].
Proof.
  intros H. unfold parse_text. rewrite clean_text_steps.
  assert (Hl : lstrip (collapse false t) = []).
  { apply lstrip_all_space, forallb_forall. intros c Hc.
    apply collapse_chars in Hc. destruct Hc as [->|[Hc Hs]]; [reflexivity|].
    rewrite forallb_forall in H. rewrite (H c Hc) in Hs. discriminate. }
  unfold strip. now rewrite Hl.
Qed.

Lemma clean_text_blank_witness :
  forallb is_space [space; newline; space] = true
  /\ parse_text [space; newline; space] = [].
Proof.
  split; [reflexivity|].
  apply (clean_text_blank [space; newline; space]). reflexivity.
Defined.

(** X12.  When every character of the removed class in the input is also
    whitespace, the cleaned text is empty or is words separated by single
    spaces: no whitespace at either end and no two in a row. *)
Theorem clean_text_single_spaced (t : text) :
  forallb (fun c => negb (stray_control c)) t = true ->
  single_spaced (_clean_text t) = true.
Proof.
  intros H. rewrite clean_text_steps.
  rewrite filter_id by (apply strip_collapse_no_control, H).
  apply (single_spaced_strip _ false), loose_collapse.
Qed.

Lemma clean_text_single_spaced_witness :
  forallb (fun c => negb (stray_control c))
          (str "  Party A
 pays  ") = true
  /\ single_spaced (_clean_text (str "  Party A
 pays  ")) = true.
Proof.
  split; [reflexivity|].
  apply (clean_text_single_spaced (str "  Party A
 pays  ")). reflexivity.
Defined.

(** X13.  Under the same condition cleaning is idempotent: cleaning a
    cleaned text changes nothing. *)
Theorem clean_text_idempotent (t : text) :
  forallb (fun c => negb (stray_control c)) t = true ->
  _clean_text (_clean_text t) = _clean_text t.
Proof.
  intros H. apply clean_text_fixed.
  - rewrite clean_text_steps.
    rewrite filter_id by (apply strip_collapse_no_control, H).
    apply (single_spaced_strip _ false), loose_collapse.
  - rewrite clean_text_steps. apply no_control_filter.
Qed.

Lemma clean_text_idempotent_witness :
  forallb (fun c => negb (stray_control c)) (str " a   b ") = true
  /\ _clean_text (_clean_text (str " a   b ")) = _clean_text (str " a   b ").
Proof.
  split; [reflexivity|].
  apply (clean_text_idempotent (str " a   b ")). reflexivity.
Defined.

Lemma filter_visible_join (parts : list text) :
  filter visible (str_join [newline; newline] parts)
  = flat_map (filter visible) parts.
Proof.
  induction parts as [|p parts IH]; [reflexivity|].
  destruct parts as [|q parts].
  - cbn [str_join flat_map]. now rewrite app_nil_r.
  - change (str_join [newline; newline] (p :: q :: parts))
      with (p ++ [newline; newline] ++ str_join [newline; newline] (q :: parts)).
    rewrite !filter_app, IH. reflexivity.
Qed.

Lemma flat_map_text_content (pages : list (option text)) :
  flat_map (filter visible) (text_content pages) = visible_of_pages pages.
Proof.
  unfold visible_of_pages.
  induction pages as [|p pages IH]; [reflexivity|].
  destruct p as [[|c p]|]; cbn [text_content flat_map];
    rewrite ?IH; reflexivity.
Qed.

(** X14.  The text extracted from a PDF holds the visible characters of
    its pages, in page order and nothing else visible; pages without text
    contribute nothing. *)
Theorem parse_pdf_keeps_visible (pages : list (option text)) :
  filter visible (_parse_pdf pages) = visible_of_pages pages.
Proof.
  unfold _parse_pdf. cbv zeta.
  rewrite <- flat_map_text_content, <- filter_visible_join.
  apply filter_visible_clean.
Qed.

End CleanText.

(** * [ContractAnalyzer.analyze_text]: the guard on empty content *)

Section AnalyzerFacts.

Import Parser.

Variable analyze : text -> option (list RecognizerResult).
Variable finditer : string -> text -> list Match.
Variable JSON : Type.
Variable json_dumps : JSON -> Outcome text.
Variable json_loads : text -> Loads JSON.
Variable analyze_contract : text -> Outcome JSON.
Variable save_parsed_contract :
  text -> text -> JSON -> JSON -> Dict text -> Outcome Z.

Lemma lstrip_head (s r : text) (c : ascii) :
  lstrip s = c :: r -> is_space c = false.
Proof.
  induction s as [|d s IH]; [discriminate|].
  cbn [lstrip]. destruct (is_space d) eqn:Hd; [exact IH|].
  intros H. congruence.
Qed.

Lemma lstrip_nil (s : text) :
  lstrip s = [] -> forallb is_space s = true.
Proof.
  induction s as [|d s IH]; [reflexivity|].
  cbn [lstrip forallb]. destruct (is_space d); [exact IH | discriminate].
Qed.

Lemma strip_nil_iff (s : text) :
  strip s = [] <-> forallb is_space s = true.
Proof.
  unfold strip. split.
  - intros H. apply lstrip_nil.
    destruct (lstrip s) as [|c r] eqn:E; [reflexivity|].
    apply lstrip_head in E. rewrite rstrip_cons, E in H.
    destruct (rstrip r); discriminate.
  - intros H. now rewrite (lstrip_all_space s H).
Qed.

Lemma filter_visible_nil_iff (s : text) :
  no_control s = true ->
  (filter visible s = [] <-> forallb is_space s = true).
Proof.
  unfold no_control. induction s as [|c s IH]; [intros; split; reflexivity|].
  cbn [forallb filter]. intros H. apply andb_true_iff in H.
  destruct H as [Hc Hs]. unfold visible at 1.
  rewrite Hc, andb_true_r.
  destruct (is_space c); cbn [negb andb].
  - apply IH, Hs.
  - split; discriminate.
Qed.

Lemma strip_clean_nil_iff (t : text) :
  strip (parse_text t) = [] <-> filter visible t = [].
Proof.
  unfold parse_text. rewrite strip_nil_iff.
  rewrite <- (filter_visible_clean t).
  symmetry. apply filter_visible_nil_iff.
  rewrite clean_text_steps. apply no_control_filter.
Qed.

(** X15.  A text without a visible character (empty, whitespace, removed
    control characters) is refused with the error "No text content
    provided": no detector runs, nothing is sent to the AI or stored, and
    the handler and its mapping are left as they were. *)
Theorem analyze_text_refuses_blank
    (self : PIIHandler) (heap : Heap) (t source : text) :
  filter visible t = [] ->
  analyze_text analyze finditer JSON json_dumps json_loads analyze_contract
               save_parsed_contract self heap t source
  = {| answer := Failure (str "No text content provided");
       external := [];
       detector_events := [];
       pii_handler_after := self;
       analysis_heap := heap |}.
Proof.
  intros H. apply strip_clean_nil_iff in H.
  unfold analyze_text. cbv zeta. now rewrite H.
Qed.

(** X16.  A text with a visible character passes the guard: the detector
    runs on the cleaned text and the first thing that leaves the process
    is the tokenized text, handed to [analyze_contract] exactly once,
    whatever the AI client and the database then answer. *)
Theorem analyze_text_sends_tokenized
    (self : PIIHandler) (heap : Heap) (t source : text) :
  filter visible t <> [] ->
  let r := tokenize_text analyze finditer self (parse_text t) heap in
  let a := analyze_text analyze finditer JSON json_dumps json_loads
                        analyze_contract save_parsed_contract
                        self heap t source in
  detector_events a = events r
  /\ hd_error (external a) = Some (SentToGrok (tokenized_text r))
  /\ sent_to_grok (external a) = [tokenized_text r].
Proof.
  intros H r a. subst r a.
  assert (Hs : strip (parse_text t) <> [])
    by (intros E; apply H, strip_clean_nil_iff, E).
  unfold analyze_text. cbv zeta.
  destruct (strip (parse_text t)) as [|c s]; [now elim Hs|].
  destruct (analyze_contract _) as [ai|e]; [|repeat split].
  destruct (_detokenize_response _ _ _ _ _) as [d|e]; [|repeat split].
  destruct (save_parsed_contract _ _ _ _ _); repeat split.
Qed.

End AnalyzerFacts.

Lemma analyze_text_refuses_blank_witness :
  let t := [ascii_of_nat 0; Parser.space; ascii_of_nat 0] in
  let hh := PIIHandler_init true [] in
  Parser.parse_text t = [Parser.space]
  /\ filter Parser.visible t = []
  /\ analyze_text (fun _ => Some []) Re.finditer Json.value
                  Json.dumps_outcome
                  Json.loads (fun _ => Returned (Json.JObject []))
                  (fun _ _ _ _ _ => Returned 1%Z)
                  (fst hh) (snd hh) t (str "direct_input")
     = {| answer := Failure (str "No text content provided");
          external := [];
          detector_events := [];
          pii_handler_after := fst hh;
          analysis_heap := snd hh |}.
Proof.
  intros t hh. split; [reflexivity|]. split; [reflexivity|].
  apply (analyze_text_refuses_blank (fun _ => Some []) Re.finditer Json.value
           Json.dumps_outcome Json.loads
           (fun _ => Returned (Json.JObject []))
           (fun _ _ _ _ _ => Returned 1%Z) (fst hh) (snd hh) t
           (str "direct_input")).
  reflexivity.
Defined.

Lemma analyze_text_sends_tokenized_witness :
  let t := str "  Call 555-123-4567 " in
  let hh := PIIHandler_init false [] in
  let a := analyze_text (fun _ => None) Re.finditer Json.value
                        Json.dumps_outcome
                        Json.loads (fun _ => Raised (str "API call failed"))
                        (fun _ _ _ _ _ => Returned 1%Z)
                        (fst hh) (snd hh) t (str "direct_input") in
  filter Parser.visible t <> []
  /\ hd_error (external a) = Some (SentToGrok (str "Call [PII_PHONE_1]"))
  /\ sent_to_grok (external a) = [str "Call [PII_PHONE_1]"].
Proof.
  intros t hh a.
  assert (H : filter Parser.visible t <> []) by (vm_compute; discriminate).
  split; [exact H|].
  destruct (analyze_text_sends_tokenized (fun _ => None) Re.finditer
              Json.value Json.dumps_outcome Json.loads
              (fun _ => Raised (str "API call failed"))
              (fun _ _ _ _ _ => Returned 1%Z)
              (fst hh) (snd hh) t (str "direct_input") H) as [_ [H1 H2]].
  split; [exact H1 | exact H2].
Defined.
